(** * Eco-CI optimisers: a shallow embedding and its verified properties

    The repository holds two population-based black-box optimisers:

    - [src/DE_optimizer/differential_evolution.py], a differential-evolution
      loop over a four-dimensional resource vector, scored by the closed
      formula [evaluate_cicd];
    - [src/mbo_optimizer/optimizer.py], an elitist local-perturbation loop
      whose objective patches a Kubernetes deployment and reads Prometheus.

    Numbers.  Python floats and ints are embedded as exact rationals [Q]
    (integers as [Z] where the source keeps them integral); rounding error
    and overflow are outside the model.  Equality of computed numbers is
    therefore [Qeq] ([==]); unchanged data is compared with [=].  The
    measurements of [optimizer.py] come from [float()] applied to text the
    metrics backend sends, which parses [NaN] and the infinities as well:
    they, and the scores computed from them, are [pyfloat]s, rationals
    extended with the two infinities and NaN.

    Effects.  Every source of non-determinism is an explicit oracle: the
    pseudo-random generator is a stream [rng : nat -> Z] of raw draws, the
    metrics backend a stream of HTTP outcomes, the cluster a stream of patch
    verdicts; the order [list.sort] leaves when NaN keys defeat [<] is the
    interpreter's business and an oracle too.  The code runs in a state-and-exception monad over a [world]
    that records how far each stream has been consumed and what has been
    written out. *)

From Stdlib Require Import QArith ZArith List Lia Lqa Bool Qround Qminmax.
From Stdlib Require Import Sorting.Sorted Sorting.Permutation.
Import ListNotations.
Open Scope Q_scope.

(** ** Floats that may be infinite or NaN *)

Definition Qltb (x y : Q) : bool := negb (Qle_bool y x).

Inductive pyfloat : Type :=
| Fin (q : Q)
| PosInf
| NegInf
| NaN.

Definition is_nan (x : pyfloat) : bool :=
  match x with
  | NaN => true
  | _ => false
  end.

(** [x < y]: false as soon as one side is NaN. *)
Definition fl_ltb (x y : pyfloat) : bool :=
  match x, y with
  | NaN, _ | _, NaN => false
  | Fin a, Fin b => Qltb a b
  | NegInf, NegInf => false
  | NegInf, _ => true
  | _, NegInf => false
  | PosInf, _ => false
  | Fin _, PosInf => true
  end.

(** [x <= y]: false as soon as one side is NaN. *)
Definition fl_leb (x y : pyfloat) : bool :=
  match x, y with
  | NaN, _ | _, NaN => false
  | Fin a, Fin b => Qle_bool a b
  | NegInf, _ => true
  | _, PosInf => true
  | _, _ => false
  end.

Definition fl_le (x y : pyfloat) : Prop := fl_leb x y = true.

Definition fl_lt (x y : pyfloat) : Prop := fl_ltb x y = true.

Definition fl_neg (x : pyfloat) : pyfloat :=
  match x with
  | Fin a => Fin (- a)
  | PosInf => NegInf
  | NegInf => PosInf
  | NaN => NaN
  end.

(** [x + y]: infinities of opposite sign give NaN. *)
Definition fl_add (x y : pyfloat) : pyfloat :=
  match x, y with
  | NaN, _ | _, NaN => NaN
  | Fin a, Fin b => Fin (a + b)
  | PosInf, NegInf | NegInf, PosInf => NaN
  | PosInf, _ | _, PosInf => PosInf
  | NegInf, _ | _, NegInf => NegInf
  end.

Definition fl_sub (x y : pyfloat) : pyfloat := fl_add x (fl_neg y).

(** An infinity multiplied or divided by the finite [a]. *)
Definition scale_inf (positive : bool) (a : Q) : pyfloat :=
  match Qcompare a 0 with
  | Gt => if positive then PosInf else NegInf
  | Lt => if positive then NegInf else PosInf
  | Eq => NaN
  end.

(** [x * y]: an infinity times zero is NaN. *)
Definition fl_mul (x y : pyfloat) : pyfloat :=
  match x, y with
  | NaN, _ | _, NaN => NaN
  | Fin a, Fin b => Fin (a * b)
  | Fin a, PosInf | PosInf, Fin a => scale_inf true a
  | Fin a, NegInf | NegInf, Fin a => scale_inf false a
  | PosInf, PosInf | NegInf, NegInf => PosInf
  | PosInf, NegInf | NegInf, PosInf => NegInf
  end.

(** [x / y] for [y] other than zero, where Python raises; both divisions
    of [optimizer.py] have a divisor that is finite and not zero. *)
Definition fl_div (x y : pyfloat) : pyfloat :=
  match x, y with
  | NaN, _ | _, NaN => NaN
  | Fin a, Fin b => Fin (a / b)
  | Fin _, _ => Fin 0
  | PosInf, Fin b => scale_inf true b
  | NegInf, Fin b => scale_inf false b
  | _, _ => NaN
  end.

(** [sum(l)], which starts from [0]. *)
Definition fl_sum (l : list pyfloat) : pyfloat := fold_left fl_add l (Fin 0).

(** ** Python exceptions and the world *)

Inductive exn : Type :=
| ValueError
| IndexError
| ZeroDivisionError
| TypeError
| ConfigException
| ApiException.

(** [rand_calls]: raw draws consumed from the generator;
    [objective_calls]: completed evaluations of [evaluate_cicd], each the
    candidate's values with the score it received, oldest first;
    [stdout]: the best score printed at the end of each DE iteration;
    [http_calls]: [requests.get] calls issued to Prometheus;
    [patches]: deployment patches accepted by the cluster, oldest first;
    [measurements]: completed evaluations on the cluster, each the
    candidate's values with the score it received, oldest first. *)
Record world : Type := mkWorld {
  rand_calls : nat;
  objective_calls : list (list Q * Q);
  stdout : list Q;
  http_calls : nat;
  patches : list (Z * Q);
  measurements : list (list Q * pyfloat)
}.

Definition world0 : world := mkWorld 0 [] [] 0 [] [].

Definition M (A : Type) : Type := world -> (exn + A) * world.

Definition ret {A} (a : A) : M A := fun w => (inr a, w).

Definition raise {A} (e : exn) : M A := fun w => (inl e, w).

Definition bind {A B} (m : M A) (k : A -> M B) : M B :=
  fun w => match m w with
           | (inr a, w') => k a w'
           | (inl e, w') => (inl e, w')
           end.

Notation "x <- m ;; k" := (bind m (fun x => k))
  (at level 61, m at next level, right associativity).
Notation "m ;;; k" := (bind m (fun _ => k))
  (at level 61, right associativity).

(** [for x in l: acc = body(acc, x)] *)
Fixpoint foldM {A B} (body : B -> A -> M B) (l : list A) (acc : B) : M B :=
  match l with
  | [] => ret acc
  | x :: t => acc' <- body acc x ;; foldM body t acc'
  end.

(** [[f(x) for x in l]] *)
Fixpoint mapM {A B} (f : A -> M B) (l : list A) : M (list B) :=
  match l with
  | [] => ret []
  | x :: t => y <- f x ;; ys <- mapM f t ;; ret (y :: ys)
  end.

(** ** Python built-ins used by both programs *)

(** [l[i]] for [i >= 0]. *)
Definition index {A} (l : list A) (i : nat) : M A :=
  match nth_error l i with
  | Some x => ret x
  | None => raise IndexError
  end.

Fixpoint update {A} (l : list A) (i : nat) (x : A) : list A :=
  match l, i with
  | [], _ => []
  | _ :: t, O => x :: t
  | y :: t, S i' => y :: update t i' x
  end.

(** [l[i] = x] for [i >= 0]: raises when [i] is out of range. *)
Definition store {A} (l : list A) (i : nat) (x : A) : M (list A) :=
  if (i <? length l)%nat then ret (update l i x) else raise IndexError.

(** First element with the least key, with its position: the common core of
    [min(l)], [min(l, key=...)] and [np.argmin(l)]. *)
Fixpoint min_by_from {A} (key : A -> Q) (i best_i : nat) (best : A)
    (l : list A) : nat * A :=
  match l with
  | [] => (best_i, best)
  | x :: t =>
      if Qltb (key x) (key best)
      then min_by_from key (S i) i x t
      else min_by_from key (S i) best_i best t
  end.

Definition first_min_by {A} (key : A -> Q) (l : list A) : option (nat * A) :=
  match l with
  | [] => None
  | x :: t => Some (min_by_from key 1 0 x t)
  end.

(** [min(l, key=key)]: [ValueError] on an empty sequence. *)
Definition py_min_by {A} (key : A -> Q) (l : list A) : M A :=
  match first_min_by key l with
  | Some (_, x) => ret x
  | None => raise ValueError
  end.

Definition py_min (l : list Q) : M Q := py_min_by (fun x => x) l.

(** [np.argmin(l)]: [ValueError] on an empty sequence. *)
Definition argmin (l : list Q) : M nat :=
  match first_min_by (fun x => x) l with
  | Some (i, _) => ret i
  | None => raise ValueError
  end.

(** [min(l, key=key)] with float keys: the first element is kept until one
    is [<] it, so a leading NaN is never displaced. *)
Fixpoint min_from {A} (key : A -> pyfloat) (best : A) (l : list A) : A :=
  match l with
  | [] => best
  | x :: t =>
      if fl_ltb (key x) (key best)
      then min_from key x t
      else min_from key best t
  end.

Definition py_min_key {A} (key : A -> pyfloat) (l : list A) : M A :=
  match l with
  | [] => raise ValueError
  | x :: t => ret (min_from key x t)
  end.

(** [round(x)] with one argument: nearest integer, ties to the even one. *)
Definition py_round (x : Q) : Z :=
  let f := Qfloor x in
  match Qcompare (x - inject_Z f) (1 # 2) with
  | Lt => f
  | Gt => (f + 1)%Z
  | Eq => if Z.even f then f else (f + 1)%Z
  end.

(** [np.clip(x, lo, hi)], that is [minimum(maximum(x, lo), hi)]. *)
Definition np_clip (x lo hi : Q) : Q := Qmin (Qmax x lo) hi.

(** [l.remove(x)]: drops the first occurrence, [ValueError] when absent. *)
Fixpoint remove_first (x : nat) (l : list nat) : option (list nat) :=
  match l with
  | [] => None
  | y :: t =>
      if Nat.eqb x y then Some t
      else match remove_first x t with
           | Some t' => Some (y :: t')
           | None => None
           end
  end.

Definition list_remove (l : list nat) (x : nat) : M (list nat) :=
  match remove_first x l with
  | Some l' => ret l'
  | None => raise ValueError
  end.

Fixpoint remove_at {A} (p : nat) (l : list A) : list A :=
  match l, p with
  | [], _ => []
  | _ :: t, O => t
  | y :: t, S p' => y :: remove_at p' t
  end.

(** ** The [random] module, driven by the raw stream [rng] *)

Section Random.
Variable rng : nat -> Z.

Definition next_raw : M Z :=
  fun w => (inr (rng (rand_calls w)),
            mkWorld (S (rand_calls w)) (objective_calls w) (stdout w)
                    (http_calls w) (patches w) (measurements w)).

(** [random.random()]: a 53-bit integer over [2^53], so in [[0, 1)]. *)
Definition random : M Q :=
  r <- next_raw ;;
  ret (Qmake (r mod 9007199254740992) 9007199254740992).

(** A uniform choice among [n] alternatives. *)
Definition randbelow (n : nat) : M nat :=
  r <- next_raw ;; ret (Z.to_nat (r mod Z.of_nat n)).

(** [random.uniform(a, b)] is [a + (b - a) * random()]. *)
Definition uniform (a b : Q) : M Q :=
  u <- random ;; ret (a + (b - a) * u).

(** [random.randint(a, b)]: [ValueError] on an empty range. *)
Definition randint (a b : Z) : M Z :=
  if (b <? a)%Z then raise ValueError
  else k <- randbelow (Z.to_nat (b - a + 1)) ;; ret (a + Z.of_nat k)%Z.

(** [random.choice(l)]. *)
Definition choice {A} (l : list A) : M A :=
  match l with
  | [] => raise IndexError
  | _ => k <- randbelow (length l) ;; index l k
  end.

(** One draw without replacement. *)
Definition pick {A} (pool : list A) : M (A * list A) :=
  p <- randbelow (length pool) ;;
  match nth_error pool p with
  | Some x => ret (x, remove_at p pool)
  | None => raise ValueError
  end.

(** [random.sample(pool, 3)]: three members at distinct positions;
    [ValueError] when the pool has fewer than three. *)
Definition sample3 {A} (pool : list A) : M (A * A * A) :=
  if (length pool <? 3)%nat then raise ValueError
  else
    p1 <- pick pool ;;
    p2 <- pick (snd p1) ;;
    p3 <- pick (snd p2) ;;
    ret (fst p1, fst p2, fst p3).
End Random.

(** ** [DE_optimizer/differential_evolution.py] *)

Module DE.

(** [evaluate_cicd(config)].  Unpacking needs exactly four values; [500 / cpu]
    raises on a zero divisor (for a NumPy scalar the quotient would be an
    infinity, which the rationals do not have; a zero [cpu] is out of reach
    whenever the CPU bounds are positive). *)
Definition evaluate_cicd (config : list Q) : exn + Q :=
  match config with
  | [cpu; mem; rep; par] =>
      if Qeq_bool cpu 0 then inl ZeroDivisionError
      else
        let build_time := (500 / cpu) + (mem / 500) + (rep * (3 # 2)) in
        let resource_penalty := (cpu * 2) + (mem / 800) in
        inr (build_time + resource_penalty)
  | _ => inl ValueError
  end.

(** A call of the objective, entered in [objective_calls] when it returns. *)
Definition call_evaluate (config : list Q) : M Q :=
  fun w => match evaluate_cicd config with
           | inr score =>
               (inr score,
                mkWorld (rand_calls w) (objective_calls w ++ [(config, score)])
                        (stdout w) (http_calls w) (patches w)
                        (measurements w))
           | inl e => (inl e, w)
           end.

Definition print_best (best : Q) : M unit :=
  fun w => (inr tt,
            mkWorld (rand_calls w) (objective_calls w) (stdout w ++ [best])
                    (http_calls w) (patches w) (measurements w)).

(** The module-level search space. *)
Definition bounds : list (Q * Q) :=
  [ (1 # 10, 2); (256, 4096); (1, 10); (1, 5) ].

Section Optimizer.
Variable rng : nat -> Z.
Variable bounds : list (Q * Q).
Variables max_iter pop_size : nat.
Variables F CR : Q.

Let dim : nat := length bounds.

(** Lines 24-28: the initial population. *)
Definition init_population : M (list (list Q)) :=
  foldM (fun population _ =>
           ind <- mapM (fun i => b <- index bounds i ;;
                                 uniform rng (fst b) (snd b))
                       (seq 0 dim) ;;
           ret (population ++ [ind]))
        (seq 0 pop_size) [].

(** Lines 41-44. *)
Definition mutate (x1 x2 x3 : list Q) : M (list Q) :=
  mapM (fun j => v1 <- index x1 j ;;
                 v2 <- index x2 j ;;
                 v3 <- index x3 j ;;
                 ret (v1 + F * (v2 - v3)))
       (seq 0 dim).

(** Lines 46-47: clamp every component into its bounds, in place. *)
Definition clamp (mutant : list Q) : M (list Q) :=
  foldM (fun mutant j =>
           m <- index mutant j ;;
           b <- index bounds j ;;
           store mutant j (np_clip m (fst b) (snd b)))
        (seq 0 dim) mutant.

(** Lines 49-55. *)
Definition crossover (population : list (list Q)) (i : nat)
    (mutant : list Q) : M (list Q) :=
  R <- randint rng 0 (Z.of_nat dim - 1) ;;
  mapM (fun j => u <- random rng ;;
                 if Qltb u CR || (Z.of_nat j =? R)%Z
                 then index mutant j
                 else (xi <- index population i ;; index xi j))
       (seq 0 dim).

(** Lines 57-59. *)
Definition round_integer_parameters (trial : list Q) : M (list Q) :=
  t2 <- index trial 2 ;;
  trial <- store trial 2 (inject_Z (py_round t2)) ;;
  t3 <- index trial 3 ;;
  store trial 3 (inject_Z (py_round t3)).

(** Lines 35-59: the trial vector built for index [i]. *)
Definition make_trial (population : list (list Q)) (i : nat) : M (list Q) :=
  candidates <- list_remove (seq 0 pop_size) i ;;
  abc <- sample3 rng candidates ;;
  let '(a, b, c) := abc in
  x1 <- index population a ;;
  x2 <- index population b ;;
  x3 <- index population c ;;
  mutant <- mutate x1 x2 x3 ;;
  mutant <- clamp mutant ;;
  trial <- crossover population i mutant ;;
  round_integer_parameters trial.

(** Lines 61-65: greedy one-to-one selection. *)
Definition select (pf : list (list Q) * list Q) (i : nat) (trial : list Q)
    : M (list (list Q) * list Q) :=
  let '(population, fitness) := pf in
  trial_fitness <- call_evaluate trial ;;
  fi <- index fitness i ;;
  if Qltb trial_fitness fi
  then population <- store population i trial ;;
       fitness <- store fitness i trial_fitness ;;
       ret (population, fitness)
  else ret (population, fitness).

(** Lines 33-65: one pass of the inner loop body. *)
Definition evolve_index (pf : list (list Q) * list Q) (i : nat)
    : M (list (list Q) * list Q) :=
  trial <- make_trial (fst pf) i ;;
  select pf i trial.

(** Lines 33-67: one generation. *)
Definition generation (pf : list (list Q) * list Q) (iteration : nat)
    : M (list (list Q) * list Q) :=
  pf <- foldM evolve_index (seq 0 pop_size) pf ;;
  best <- py_min (snd pf) ;;
  print_best best ;;;
  ret pf.

(** Lines 23-30. *)
Definition initialise : M (list (list Q) * list Q) :=
  population <- init_population ;;
  fitness <- mapM call_evaluate population ;;
  ret (population, fitness).

(** The state of the run after [k] generations. *)
Definition generations (k : nat) : M (list (list Q) * list Q) :=
  pf <- initialise ;;
  foldM generation (seq 0 k) pf.

(** Lines 69-70. *)
Definition report (pf : list (list Q) * list Q) : M (list Q * Q) :=
  best_index <- argmin (snd pf) ;;
  best_config <- index (fst pf) best_index ;;
  best_score <- index (snd pf) best_index ;;
  ret (best_config, best_score).

Definition differential_evolution : M (list Q * Q) :=
  pf <- generations max_iter ;;
  report pf.
End Optimizer.

End DE.

(** ** [mbo_optimizer/optimizer.py] *)

Module MBO.

(** The three PromQL queries of [fetch_current_metrics]. *)
Inductive query : Type :=
| build_duration_query
| cpu_query
| memory_query.

(** The value under [data.result] of a successful body, as
    [get_metric_scalar] uses it.  [Atom] is a value that cannot be
    iterated (null, a number, a boolean), with its truth value.  [Items] is
    an iterable (a list, a dict, a string): per item, the float that
    [float(entry["value"][1])] parses, or [None] when that expression
    raises; an empty iterable is falsy. *)
Inductive result : Type :=
| Atom (truthy : bool)
| Items (entries : list (option pyfloat)).

(** What one pass through the [try] block of [prometheus_query] meets:
    an exception ([requests.get], [raise_for_status], [r.json()] or the
    lookup of [data.result]), a body whose status is not ["success"], or a
    successful body with its result. *)
Inductive response : Type :=
| Raised
| NotSuccess
| Success (res : result).

Record individual : Type := mkInd {
  replicas : Z;
  cpu : Q;
  concurrency : Z
}.

Record metrics : Type := mkMetrics {
  build_duration : pyfloat;
  cpu_usage : pyfloat;
  memory : pyfloat
}.

(** An entry of [evaluated]: the tuple [(ind, score, m)]. *)
Definition scored : Type := individual * pyfloat * metrics.

Definition score (e : scored) : pyfloat := snd (fst e).

(** [SPACE], [POP_SIZE], [MAX_ITERS]. *)
Definition SPACE_replicas : Z * Z := (1, 4)%Z.
Definition SPACE_cpu_request : Q * Q := (1 # 10, 1 # 2).
Definition SPACE_concurrency : Z * Z := (1, 4)%Z.
Definition POP_SIZE : nat := 8.
Definition MAX_ITERS : nat := 12.

(** [hist_ranges] of [mbo_optimize]. *)
Definition hist_build_duration : Q * Q := (50, 900).
Definition hist_cpu : Q * Q := (1 # 100, 2).

Definition normalize (val lo hi : Q) : Q :=
  if Qeq_bool hi lo then 0 else (val - lo) / (hi - lo).

(** [normalize] at a measurement that may be infinite or NaN, over a finite
    range; at a finite measurement it is [normalize]. *)
Definition normalize_float (val : pyfloat) (lo hi : Q) : pyfloat :=
  if Qeq_bool hi lo then Fin 0
  else fl_div (fl_sub val (Fin lo)) (fl_sub (Fin hi) (Fin lo)).

(** [x or default]: [None] and [0.0] are falsy, NaN and the infinities are
    not. *)
Definition or_default (x : option pyfloat) (default : Q) : pyfloat :=
  match x with
  | Some (Fin v) => if Qeq_bool v 0 then Fin default else Fin v
  | Some v => v
  | None => Fin default
  end.

Fixpoint somes {A} (l : list (option A)) : list A :=
  match l with
  | [] => []
  | Some x :: t => x :: somes t
  | None :: t => somes t
  end.

(** [combined.sort(key=...)].  The sort compares keys with [<] only.  Where
    [<] orders the keys, that is when none is NaN, the result is the stable
    ascending order, reached here by insertion. *)
Fixpoint insert_by {A} (key : A -> pyfloat) (x : A) (l : list A) : list A :=
  match l with
  | [] => [x]
  | y :: t => if fl_ltb (key y) (key x) then y :: insert_by key x t
              else x :: y :: t
  end.

Fixpoint sort_by {A} (key : A -> pyfloat) (l : list A) : list A :=
  match l with
  | [] => []
  | x :: t => insert_by key x (sort_by key t)
  end.

(** With a NaN among the keys the list is still rearranged, never changed,
    but into an order that depends on the interpreter's merge strategy and
    not on the program: [disorder] tells, from the keys in list order, the
    place each entry takes among those that follow it. *)
Fixpoint insert_at {A} (place : nat) (x : A) (l : list A) : list A :=
  match place, l with
  | S p, y :: t => y :: insert_at p x t
  | _, _ => x :: l
  end.

Fixpoint arrange {A} (places : list nat) (l : list A) : list A :=
  match l with
  | [] => []
  | x :: t => insert_at (hd 0%nat places) x (arrange (tl places) t)
  end.

Definition list_sort {A} (disorder : list pyfloat -> list nat)
    (key : A -> pyfloat) (l : list A) : list A :=
  if existsb is_nan (map key l)
  then arrange (disorder (map key l)) l
  else sort_by key l.

(** [max(lo, min(hi, x))] on ints and on floats. *)
Definition clampZ (bounds : Z * Z) (x : Z) : Z :=
  Z.max (fst bounds) (Z.min (snd bounds) x).

Definition clampQ (bounds : Q * Q) (x : Q) : Q :=
  Qmax (fst bounds) (Qmin (snd bounds) x).

Definition values (ind : individual) : list Q :=
  [inject_Z (replicas ind); cpu ind; inject_Z (concurrency ind)].

(** Bookkeeping: enter a scored candidate in [measurements]. *)
Definition record_evaluation (ind : individual) (s : pyfloat) : M unit :=
  fun w => (inr tt,
            mkWorld (rand_calls w) (objective_calls w) (stdout w)
                    (http_calls w) (patches w)
                    (measurements w ++ [(values ind, s)])).

Section Optimizer.
Variable rng : nat -> Z.
(** Outcome of the [n]-th [requests.get], given the query it carries. *)
Variable http : nat -> query -> response.
(** Whether the cluster accepts the [n]-th patch. *)
Variable cluster : nat -> bool.
(** Whether [load_incluster_config] and [load_kube_config] succeed. *)
Variables incluster kubeconfig : bool.
(** Weights read from the environment (defaults 0.7 and 0.3), taken to be
    finite numbers. *)
Variables ALPHA BETA : Q.
(** The order [list.sort] leaves among keys that include NaN. *)
Variable disorder : list pyfloat -> list nat.

Definition requests_get (q : query) : M response :=
  fun w => (inr (http (http_calls w) q),
            mkWorld (rand_calls w) (objective_calls w) (stdout w)
                    (S (http_calls w)) (patches w) (measurements w)).

(** The [for attempt in range(...)] loop of [prometheus_query]. *)
Fixpoint attempt_query (q : query) (attempts : nat) : M (option result) :=
  match attempts with
  | O => ret None
  | S n =>
      r <- requests_get q ;;
      match r with
      | Success res => ret (Some res)
      | Raised | NotSuccess => attempt_query q n
      end
  end.

Definition prometheus_query (q : query) : M (option result) :=
  attempt_query q 3.

(** [if not res] sends [None] and every falsy result to [return None]; the
    [for] loop, outside any [try], raises on a truthy result that cannot be
    iterated; the mean is taken over the items that parsed. *)
Definition get_metric_scalar (q : query) : M (option pyfloat) :=
  res <- prometheus_query q ;;
  match res with
  | None | Some (Atom false) | Some (Items []) => ret None
  | Some (Atom true) => raise TypeError
  | Some (Items entries) =>
      let vals := somes entries in
      match vals with
      | [] => ret None
      | _ => ret (Some (fl_div (fl_sum vals)
                               (Fin (inject_Z (Z.of_nat (length vals))))))
      end
  end.

Definition fetch_current_metrics : M metrics :=
  bd <- get_metric_scalar build_duration_query ;;
  c <- get_metric_scalar cpu_query ;;
  mem <- get_metric_scalar memory_query ;;
  ret (mkMetrics (or_default bd 300) (or_default c (1 # 2))
                 (or_default mem 0)).

Definition objective_from_metrics (m : metrics) : pyfloat :=
  let dur_n := normalize_float (build_duration m) (fst hist_build_duration)
                               (snd hist_build_duration) in
  let cpu_n := normalize_float (cpu_usage m) (fst hist_cpu) (snd hist_cpu) in
  fl_add (fl_mul (Fin ALPHA) dur_n) (fl_mul (Fin BETA) cpu_n).

Definition k8s_client : M unit :=
  if incluster then ret tt
  else if kubeconfig then ret tt
  else raise ConfigException.

(** The API call either raises or records the patch. *)
Definition patch_deployment_params (r : Z) (cpu_request : Q) : M unit :=
  fun w => if cluster (length (patches w))
           then (inr tt,
                 mkWorld (rand_calls w) (objective_calls w) (stdout w)
                         (http_calls w) (patches w ++ [(r, cpu_request)])
                         (measurements w))
           else (inl ApiException, w).

(** Lines 119-123 and 145-149: apply, wait, measure, score. *)
Definition evaluate (ind : individual) : M scored :=
  patch_deployment_params (replicas ind) (cpu ind) ;;;
  m <- fetch_current_metrics ;;
  let s := objective_from_metrics m in
  record_evaluation ind s ;;;
  ret (ind, s, m).

(** Lines 109-113. *)
Definition sample_individual : M individual :=
  r <- randint rng (fst SPACE_replicas) (snd SPACE_replicas) ;;
  c <- uniform rng (fst SPACE_cpu_request) (snd SPACE_cpu_request) ;;
  k <- randint rng (fst SPACE_concurrency) (snd SPACE_concurrency) ;;
  ret (mkInd r c k).

(** Lines 134-140. *)
Definition perturb (ind : individual) : M individual :=
  d <- choice rng [(-1)%Z; 0%Z; 1%Z] ;;
  let r := clampZ SPACE_replicas (replicas ind + d) in
  u <- uniform rng (- (1 # 5)) (1 # 5) ;;
  let c := clampQ SPACE_cpu_request (cpu ind * (1 + u)) in
  d' <- choice rng [(-1)%Z; 0%Z; 1%Z] ;;
  let k := clampZ SPACE_concurrency (concurrency ind + d') in
  ret (mkInd r c k).

Section Loop.
Variables pop_size max_iters : nat.

(** Lines 108-126. *)
Definition initialise : M (list scored * scored) :=
  pop <- mapM (fun _ => sample_individual) (seq 0 pop_size) ;;
  evaluated <- mapM evaluate pop ;;
  best <- py_min_key score evaluated ;;
  ret (evaluated, best).

(** Lines 131-157: one generation. *)
Definition generation (st : list scored * scored) (it : nat)
    : M (list scored * scored) :=
  let '(evaluated, best) := st in
  new_pop <- mapM (fun e => perturb (fst (fst e))) evaluated ;;
  new_evaluated <- mapM evaluate new_pop ;;
  let combined := list_sort disorder score (evaluated ++ new_evaluated) in
  let evaluated := firstn pop_size combined in
  top <- index evaluated 0 ;;
  if fl_ltb (score top) (score best)
  then ret (evaluated, top)
  else ret (evaluated, best).

(** The state of the run after [k] generations. *)
Definition generations (k : nat) : M (list scored * scored) :=
  k8s_client ;;;
  st <- initialise ;;
  foldM generation (seq 0 k) st.

(** The push of the final score to the Pushgateway sits in its own
    [try]/[except] and cannot change what is returned. *)
Definition optimize : M scored :=
  st <- generations max_iters ;;
  ret (snd st).
End Loop.

Definition mbo_optimize : M scored := optimize POP_SIZE MAX_ITERS.
End Optimizer.

End MBO.

(** * The model on small inputs *)

Example evaluate_cicd_value :
  DE.evaluate_cicd [1; 500; 2; 1] = inr (500 / 1 + 500 / 500 + 2 * (3 # 2)
                                         + (1 * 2 + 500 / 800)) /\
  500 / 1 + 500 / 500 + 2 * (3 # 2) + (1 * 2 + 500 / 800) == 4053 # 8.
Proof. split; reflexivity. Qed.

Example evaluate_cicd_arity : DE.evaluate_cicd [1; 500; 2] = inl ValueError.
Proof. reflexivity. Qed.

Example evaluate_cicd_zero_cpu :
  DE.evaluate_cicd [0; 500; 2; 1] = inl ZeroDivisionError.
Proof. reflexivity. Qed.

Example py_round_values :
  map py_round [5 # 2; 7 # 2; -5 # 2; 13 # 5; 12 # 5; -3 # 2; 3]
  = [2; 4; -2; 3; 2; -2; 3]%Z.
Proof. reflexivity. Qed.

Example np_clip_values :
  map (fun x => np_clip x (1 # 10) 2) [5; 1; -3] = [2; 1; 1 # 10].
Proof. reflexivity. Qed.

Example argmin_first_of_ties :
  fst (argmin [3; 1; 2; 1] world0) = inr 1%nat /\
  fst (argmin [] world0) = inl ValueError.
Proof. split; reflexivity. Qed.

Example sort_by_is_stable :
  MBO.list_sort (fun _ => []) snd
    [(1%Z, Fin 3); (2%Z, Fin 1); (3%Z, PosInf); (4%Z, Fin 1); (5%Z, NegInf);
     (6%Z, Fin 3)]
  = [(5%Z, NegInf); (2%Z, Fin 1); (4%Z, Fin 1); (1%Z, Fin 3); (6%Z, Fin 3);
     (3%Z, PosInf)].
Proof. reflexivity. Qed.

Example or_default_zero_is_falsy :
  MBO.or_default (Some (Fin 0)) 300 = Fin 300 /\
  MBO.or_default None 300 = Fin 300 /\
  MBO.or_default (Some (Fin 120)) 300 = Fin 120 /\
  MBO.or_default (Some NaN) 300 = NaN.
Proof. repeat split. Qed.

(** A backend that answers on the third attempt only. *)
Example prometheus_query_third_attempt :
  let http := fun n (_ : MBO.query) =>
                match n with
                | 2%nat => MBO.Success
                             (MBO.Items [Some (Fin 4); None; Some (Fin 6)])
                | _ => MBO.Raised
                end in
  MBO.get_metric_scalar http MBO.cpu_query world0
  = (inr (Some (Fin ((0 + 4 + 6) / inject_Z 2))), mkWorld 0 [] [] 3 [] []).
Proof. reflexivity. Qed.

(** A result that is a bare number, and one sample that reads [NaN]. *)
Example get_metric_scalar_odd_results :
  fst (MBO.get_metric_scalar (fun _ _ => MBO.Success (MBO.Atom true))
                             MBO.cpu_query world0) = inl TypeError /\
  fst (MBO.get_metric_scalar (fun _ _ => MBO.Success (MBO.Atom false))
                             MBO.cpu_query world0) = inr None /\
  fst (MBO.get_metric_scalar
         (fun _ _ => MBO.Success (MBO.Items [Some (Fin 4); Some NaN]))
         MBO.cpu_query world0) = inr (Some NaN).
Proof. repeat split. Qed.

Example min_keeps_a_leading_nan :
  fst (py_min_key snd [(1%Z, NaN); (2%Z, Fin 3); (3%Z, Fin 1)] world0)
  = inr (1%Z, NaN) /\
  fst (py_min_key snd [(1%Z, Fin 3); (2%Z, NaN); (3%Z, Fin 1)] world0)
  = inr (3%Z, Fin 1).
Proof. split; reflexivity. Qed.

Example sample3_too_few :
  fst (sample3 (fun _ => 0%Z) [1; 2]%nat world0) = inl ValueError.
Proof. reflexivity. Qed.

Example sample3_distinct :
  fst (sample3 (fun n => Z.of_nat n) [10; 20; 30; 40]%nat world0)
  = inr (10, 30, 20)%nat.
Proof. reflexivity. Qed.

(** * Reasoning about monadic code *)

Lemma bind_inr {A B} (m : M A) (k : A -> M B) w b w' :
  bind m k w = (inr b, w') ->
  exists a w1, m w = (inr a, w1) /\ k a w1 = (inr b, w').
Proof.
  unfold bind. destruct (m w) as [[e | a] w1]; intros H.
  - discriminate.
  - exists a, w1. split; [reflexivity | exact H].
Qed.

Lemma bind_ok {A B} (m : M A) (k : A -> M B) w a w1 :
  m w = (inr a, w1) -> bind m k w = k a w1.
Proof. unfold bind. intros ->. reflexivity. Qed.

Lemma bind_err {A B} (m : M A) (k : A -> M B) w e w1 :
  m w = (inl e, w1) -> bind m k w = (inl e, w1).
Proof. unfold bind. intros ->. reflexivity. Qed.

Lemma ret_inr {A} (a b : A) w w' : ret a w = (inr b, w') -> a = b /\ w = w'.
Proof. unfold ret. intros H. inversion H. split; reflexivity. Qed.

Lemma index_inr {A} (l : list A) i x w w' :
  index l i w = (inr x, w') -> nth_error l i = Some x /\ w' = w.
Proof.
  unfold index. destruct (nth_error l i); intros H; inversion H.
  split; reflexivity.
Qed.

Lemma index_ok {A} (l : list A) i x w :
  nth_error l i = Some x -> index l i w = (inr x, w).
Proof. unfold index. intros ->. reflexivity. Qed.

Lemma store_inr {A} (l : list A) i x l' w w' :
  store l i x w = (inr l', w') ->
  (i < length l)%nat /\ l' = update l i x /\ w' = w.
Proof.
  unfold store. destruct (Nat.ltb_spec i (length l)) as [Hlt | Hge];
    intros H; inversion H.
  split; [assumption | split; reflexivity].
Qed.

Lemma store_ok {A} (l : list A) i x w :
  (i < length l)%nat -> store l i x w = (inr (update l i x), w).
Proof.
  unfold store. intros H. apply Nat.ltb_lt in H. rewrite H. reflexivity.
Qed.

(** Inversion of a successful run, one bind at a time. *)
Ltac invM H :=
  lazymatch type of H with
  | bind _ _ _ = (inr _, _) =>
      let a := fresh "a" in
      let w := fresh "w" in
      let H1 := fresh "Hm" in
      let H2 := fresh "Hk" in
      apply bind_inr in H; destruct H as (a & w & H1 & H2);
      invM H1; invM H2
  | ret _ _ = (inr _, _) =>
      let E := fresh "E" in
      apply ret_inr in H; destruct H as [E ?]; subst
  | raise _ _ = (inr _, _) => discriminate H
  | index _ _ _ = (inr _, _) =>
      let E := fresh "E" in
      apply index_inr in H; destruct H as [H E]; subst
  | store _ _ _ _ = (inr _, _) =>
      let E := fresh "E" in
      let L := fresh "L" in
      apply store_inr in H; destruct H as (L & E & ?); subst
  | _ => idtac
  end.

Lemma Qltb_lt x y : Qltb x y = true <-> x < y.
Proof.
  unfold Qltb. rewrite negb_true_iff. split; intros H.
  - apply Qnot_le_lt. intros C. apply Qle_bool_iff in C. congruence.
  - destruct (Qle_bool y x) eqn:E; [| reflexivity].
    apply Qle_bool_iff in E. exfalso. exact (Qlt_not_le _ _ H E).
Qed.

Lemma Qltb_ge x y : Qltb x y = false <-> y <= x.
Proof.
  unfold Qltb. rewrite negb_false_iff. apply Qle_bool_iff.
Qed.

(** ** Lists updated by index *)

Lemma length_update {A} (l : list A) i x : length (update l i x) = length l.
Proof.
  revert i. induction l as [| y t IH]; intros [| i]; simpl; auto.
Qed.

Lemma nth_error_update_eq {A} (l : list A) i x :
  (i < length l)%nat -> nth_error (update l i x) i = Some x.
Proof.
  revert i. induction l as [| y t IH]; intros [| i]; simpl; intros H;
    try lia; auto. apply IH. lia.
Qed.

Lemma nth_error_update_neq {A} (l : list A) i j x :
  i <> j -> nth_error (update l i x) j = nth_error l j.
Proof.
  revert i j. induction l as [| y t IH]; intros [| i] [| j] H; simpl;
    try congruence; auto.
Qed.

Lemma In_update {A} (l : list A) i x y :
  In y (update l i x) -> y = x \/ In y l.
Proof.
  revert i. induction l as [| z t IH]; intros [| i]; simpl; intros H;
    try tauto.
  - destruct H; auto.
  - destruct H as [H | H]; auto. apply IH in H. tauto.
Qed.

(** ** Loops *)

Lemma foldM_invariant {A B} (I : B -> world -> Prop) (body : B -> A -> M B)
    (l : list A) :
  (forall acc x w acc' w',
      In x l -> I acc w -> body acc x w = (inr acc', w') -> I acc' w') ->
  forall acc w acc' w',
    I acc w -> foldM body l acc w = (inr acc', w') -> I acc' w'.
Proof.
  induction l as [| x t IH]; intros Hstep acc w acc' w' HI H; simpl in H.
  - invM H. exact HI.
  - invM H. eapply IH; [| | exact Hk].
    + intros. eapply Hstep; eauto. right; assumption.
    + eapply Hstep; eauto. left; reflexivity.
Qed.

Lemma foldM_app {A B} (body : B -> A -> M B) (l1 l2 : list A) acc w :
  foldM body (l1 ++ l2) acc w =
  bind (foldM body l1 acc) (foldM body l2) w.
Proof.
  revert acc w. induction l1 as [| x t IH]; intros acc w; simpl.
  - reflexivity.
  - unfold bind. destruct (body acc x w) as [[e | a] w1].
    + reflexivity.
    + exact (IH a w1).
Qed.

Lemma mapM_invariant {A B} (I : world -> Prop) (P : A -> B -> Prop)
    (f : A -> M B) (l : list A) :
  (forall x w y w',
      In x l -> I w -> f x w = (inr y, w') -> I w' /\ P x y) ->
  forall w ys w',
    I w -> mapM f l w = (inr ys, w') -> I w' /\ Forall2 P l ys.
Proof.
  induction l as [| x t IH]; intros Hstep w ys w' HI H; simpl in H.
  - invM H. split; [exact HI | constructor].
  - invM H.
    destruct (Hstep x w a w0 (or_introl eq_refl) HI Hm) as [HI0 HP].
    destruct (IH (fun x w y w' Hin => Hstep x w y w' (or_intror Hin))
                 w0 a0 w' HI0 Hm0) as [HI' HF].
    split; [exact HI' | constructor; assumption].
Qed.

Lemma mapM_length {A B} (f : A -> M B) (l : list A) w ys w' :
  mapM f l w = (inr ys, w') -> length ys = length l.
Proof.
  intros H.
  destruct (mapM_invariant (fun _ => True) (fun _ _ => True) f l
              (fun _ _ _ _ _ _ _ => conj I I) w ys w' I H) as [_ HF].
  symmetry. eapply Forall2_length; eauto.
Qed.

(** ** Computations that only consume randomness *)

Definition quiet {A} (m : M A) : Prop :=
  forall w r w', m w = (r, w') ->
    objective_calls w' = objective_calls w /\ stdout w' = stdout w /\
    patches w' = patches w /\ http_calls w' = http_calls w.

Lemma quiet_ret {A} (a : A) : quiet (ret a).
Proof. intros w r w' H. inversion H. auto. Qed.

Lemma quiet_raise {A} e : quiet (@raise A e).
Proof. intros w r w' H. inversion H. auto. Qed.

Lemma quiet_bind {A B} (m : M A) (k : A -> M B) :
  quiet m -> (forall a, quiet (k a)) -> quiet (bind m k).
Proof.
  intros Hm Hk w r w' H. unfold bind in H.
  destruct (m w) as [[e | a] w1] eqn:E.
  - inversion H; subst. eapply Hm; eauto.
  - apply Hm in E. apply Hk in H.
    destruct E as (E1 & E2 & E3 & E4), H as (H1 & H2 & H3 & H4).
    repeat split; congruence.
Qed.

Lemma quiet_index {A} (l : list A) i : quiet (index l i).
Proof.
  unfold index. destruct (nth_error l i);
    [apply quiet_ret | apply quiet_raise].
Qed.

Lemma quiet_store {A} (l : list A) i x : quiet (store l i x).
Proof.
  unfold store. destruct (i <? length l)%nat;
    [apply quiet_ret | apply quiet_raise].
Qed.

Lemma quiet_mapM {A B} (f : A -> M B) (l : list A) :
  (forall x, quiet (f x)) -> quiet (mapM f l).
Proof.
  intros Hf. induction l as [| x t IH]; simpl.
  - apply quiet_ret.
  - apply quiet_bind; [apply Hf |]. intros y.
    apply quiet_bind; [exact IH |]. intros ys. apply quiet_ret.
Qed.

Lemma quiet_foldM {A B} (body : B -> A -> M B) (l : list A) acc :
  (forall b x, quiet (body b x)) -> quiet (foldM body l acc).
Proof.
  intros Hf. revert acc. induction l as [| x t IH]; intros acc; simpl.
  - apply quiet_ret.
  - apply quiet_bind; [apply Hf | exact IH].
Qed.

Lemma quiet_next_raw rng : quiet (next_raw rng).
Proof. intros w r w' H. inversion H. simpl. auto. Qed.

Lemma quiet_random rng : quiet (random rng).
Proof.
  apply quiet_bind; [apply quiet_next_raw | intros; apply quiet_ret].
Qed.

Lemma quiet_randbelow rng n : quiet (randbelow rng n).
Proof.
  apply quiet_bind; [apply quiet_next_raw | intros; apply quiet_ret].
Qed.

Lemma quiet_uniform rng a b : quiet (uniform rng a b).
Proof.
  apply quiet_bind; [apply quiet_random | intros; apply quiet_ret].
Qed.

Lemma quiet_randint rng a b : quiet (randint rng a b).
Proof.
  unfold randint. destruct (b <? a)%Z; [apply quiet_raise |].
  apply quiet_bind; [apply quiet_randbelow | intros; apply quiet_ret].
Qed.

Lemma quiet_choice {A} rng (l : list A) : quiet (choice rng l).
Proof.
  unfold choice. destruct l; [apply quiet_raise |].
  apply quiet_bind; [apply quiet_randbelow | intros; apply quiet_index].
Qed.

Lemma quiet_pick {A} rng (pool : list A) : quiet (pick rng pool).
Proof.
  apply quiet_bind; [apply quiet_randbelow |]. intros p.
  destruct (nth_error pool p); [apply quiet_ret | apply quiet_raise].
Qed.

Lemma quiet_sample3 {A} rng (pool : list A) : quiet (sample3 rng pool).
Proof.
  unfold sample3. destruct (length pool <? 3)%nat; [apply quiet_raise |].
  repeat (apply quiet_bind; [apply quiet_pick | intros]).
  apply quiet_ret.
Qed.

Lemma quiet_list_remove l x : quiet (list_remove l x).
Proof.
  unfold list_remove. destruct (remove_first x l);
    [apply quiet_ret | apply quiet_raise].
Qed.

Lemma quiet_argmin l : quiet (argmin l).
Proof.
  unfold argmin. destruct (first_min_by _ l) as [[i x] |];
    [apply quiet_ret | apply quiet_raise].
Qed.

Lemma quiet_py_min_by {A} (key : A -> Q) l : quiet (py_min_by key l).
Proof.
  unfold py_min_by. destruct (first_min_by key l) as [[i x] |];
    [apply quiet_ret | apply quiet_raise].
Qed.

Create HintDb quiet.
#[export] Hint Resolve quiet_ret quiet_raise quiet_index quiet_store
  quiet_next_raw quiet_random quiet_randbelow quiet_uniform quiet_randint
  quiet_choice quiet_pick quiet_sample3 quiet_list_remove quiet_argmin
  quiet_py_min_by : quiet.

Ltac quiet_tac :=
  repeat first
    [ progress auto with quiet
    | apply quiet_bind; [| intros ]
    | apply quiet_mapM; intros
    | apply quiet_foldM; intros
    | match goal with
      | |- quiet (if ?b then _ else _) => destruct b
      | |- quiet (let '(_, _) := ?p in _) => destruct p
      end ].

(** ** Least elements *)

Definition lowest (l : list Q) (b : Q) : Prop :=
  In b l /\ forall x, In x l -> b <= x.

Lemma min_by_from_spec {A} (key : A -> Q) (l : list A) :
  forall i bi b j v,
    min_by_from key i bi b l = (j, v) ->
    key v <= key b /\
    (forall x, In x l -> key v <= key x) /\
    ((j = bi /\ v = b) \/ (i <= j /\ nth_error l (j - i) = Some v))%nat.
Proof.
  induction l as [| x t IH]; intros i bi b j v H; simpl in H.
  - inversion H; subst. split; [apply Qle_refl |].
    split; [intros x [] | left; auto].
  - destruct (Qltb (key x) (key b)) eqn:E.
    + apply Qltb_lt in E. apply IH in H. destruct H as (H1 & H2 & H3).
      split; [apply Qlt_le_weak; eapply Qle_lt_trans; eauto |].
      split.
      * intros y [<- | Hy]; auto.
      * right. destruct H3 as [[-> ->] | [Hle Hn]].
        -- split; [lia |]. rewrite Nat.sub_diag. reflexivity.
        -- split; [lia |].
           replace (j - i)%nat with (S (j - S i)) by lia. exact Hn.
    + apply Qltb_ge in E. apply IH in H. destruct H as (H1 & H2 & H3).
      split; [exact H1 |]. split.
      * intros y [<- | Hy]; auto. eapply Qle_trans; eauto.
      * destruct H3 as [H3 | [Hle Hn]]; [left; exact H3 | right].
        split; [lia |].
        replace (j - i)%nat with (S (j - S i)) by lia. exact Hn.
Qed.

Lemma first_min_by_spec {A} (key : A -> Q) (l : list A) j v :
  first_min_by key l = Some (j, v) ->
  nth_error l j = Some v /\ forall x, In x l -> key v <= key x.
Proof.
  destruct l as [| x t]; simpl; intros H; [discriminate |].
  inversion H as [H0]. apply min_by_from_spec in H0.
  destruct H0 as (H1 & H2 & H3). split.
  - destruct H3 as [[-> ->] | [Hle Hn]]; [reflexivity |].
    destruct j as [| j]; [lia |]. simpl.
    replace (S j - 1)%nat with j in Hn by lia. exact Hn.
  - intros y [<- | Hy]; auto.
Qed.

Lemma first_min_by_some {A} (key : A -> Q) (l : list A) :
  l <> [] -> exists j v, first_min_by key l = Some (j, v).
Proof.
  destruct l as [| x t]; [congruence | intros _]. simpl.
  destruct (min_by_from key 1 0 x t) as [j v]. eauto.
Qed.

Lemma lowest_exists (l : list Q) : l <> [] -> exists b, lowest l b.
Proof.
  intros H. destruct (first_min_by_some (fun x => x) l H) as (j & v & E).
  apply first_min_by_spec in E. destruct E as [E1 E2].
  exists v. split; [eapply nth_error_In; eauto | exact E2].
Qed.

Lemma argmin_inr l j w w' :
  argmin l w = (inr j, w') ->
  w' = w /\ exists v, nth_error l j = Some v /\ lowest l v.
Proof.
  unfold argmin. destruct (first_min_by (fun x => x) l) as [[i v] |] eqn:E;
    intros H; inversion H; subst.
  apply first_min_by_spec in E. destruct E as [E1 E2].
  split; [reflexivity |]. exists v. split; [exact E1 |].
  split; [eapply nth_error_In; eauto | exact E2].
Qed.

Lemma py_min_by_inr {A} (key : A -> Q) l v w w' :
  py_min_by key l w = (inr v, w') ->
  w' = w /\ In v l /\ forall x, In x l -> key v <= key x.
Proof.
  unfold py_min_by. destruct (first_min_by key l) as [[i u] |] eqn:E;
    intros H; inversion H; subst.
  apply first_min_by_spec in E. destruct E as [E1 E2].
  split; [reflexivity |]. split; [eapply nth_error_In; eauto | exact E2].
Qed.

(** [fit'] is pointwise no worse than [fit]. *)
Definition improves (fit fit' : list Q) : Prop :=
  length fit' = length fit /\
  forall j x, nth_error fit j = Some x ->
              exists x', nth_error fit' j = Some x' /\ x' <= x.

Lemma improves_refl fit : improves fit fit.
Proof.
  split; [reflexivity |]. intros j x H. exists x. split; [exact H |].
  apply Qle_refl.
Qed.

Lemma improves_trans f1 f2 f3 :
  improves f1 f2 -> improves f2 f3 -> improves f1 f3.
Proof.
  intros [L1 H1] [L2 H2]. split; [congruence |].
  intros j x Hx. destruct (H1 j x Hx) as (y & Hy & Hle).
  destruct (H2 j y Hy) as (z & Hz & Hle'). exists z.
  split; [exact Hz | eapply Qle_trans; eauto].
Qed.

Lemma improves_update fit i inc tf :
  nth_error fit i = Some inc -> tf <= inc -> improves fit (update fit i tf).
Proof.
  intros Hi Hle. split; [apply length_update |]. intros j x Hj.
  destruct (Nat.eq_dec i j) as [<- | Hne].
  - exists tf. split.
    + apply nth_error_update_eq. apply nth_error_Some. congruence.
    + congruence.
  - exists x. rewrite nth_error_update_neq by exact Hne.
    split; [exact Hj | apply Qle_refl].
Qed.

Lemma improves_lowest fit fit' b b' :
  improves fit fit' -> lowest fit b -> lowest fit' b' -> b' <= b.
Proof.
  intros [_ H] [Hb _] [_ Hb']. apply In_nth_error in Hb.
  destruct Hb as [j Hj]. destruct (H j b Hj) as (x' & Hx' & Hle).
  eapply Qle_trans; [apply Hb'; eapply nth_error_In; eauto | exact Hle].
Qed.

(** * Differential evolution: what a successful step establishes *)

Lemma Forall2_update {A B} (P : A -> B -> Prop) l1 l2 i x y :
  Forall2 P l1 l2 -> P x y -> Forall2 P (update l1 i x) (update l2 i y).
Proof.
  intros H Hxy. revert i. induction H as [| a b t1 t2 Hab Ht IH];
    intros [| i]; simpl; constructor; auto.
Qed.

Lemma Forall2_nth_error {A B} (P : A -> B -> Prop) l1 l2 i x y :
  Forall2 P l1 l2 -> nth_error l1 i = Some x -> nth_error l2 i = Some y ->
  P x y.
Proof.
  intros H. revert i. induction H as [| a b t1 t2 Hab Ht IH];
    intros [| i]; simpl; intros H1 H2; try discriminate.
  - congruence.
  - eapply IH; eauto.
Qed.

Lemma In_update_inv {A} (l : list A) i x y z :
  In z l -> nth_error l i = Some y -> In z (update l i x) \/ z = y.
Proof.
  revert i. induction l as [| a t IH]; intros [| i]; simpl;
    intros Hz Hi; try discriminate.
  - destruct Hz as [-> | Hz]; [right; congruence | left; right; exact Hz].
  - destruct Hz as [-> | Hz]; [left; left; reflexivity |].
    destruct (IH i Hz Hi) as [H | H]; [left; right; exact H | right; exact H].
Qed.

Lemma call_evaluate_inr cfg s w w' :
  DE.call_evaluate cfg w = (inr s, w') ->
  DE.evaluate_cicd cfg = inr s /\
  objective_calls w' = objective_calls w ++ [(cfg, s)] /\
  stdout w' = stdout w.
Proof.
  unfold DE.call_evaluate. destruct (DE.evaluate_cicd cfg) as [e | v];
    intros H; inversion H; subst; simpl. auto.
Qed.

Section DE_steps.
Variable rng : nat -> Z.
Variable bounds : list (Q * Q).
Variable pop_size : nat.
Variables F CR : Q.

Lemma quiet_make_trial population i :
  quiet (DE.make_trial rng bounds pop_size F CR population i).
Proof.
  unfold DE.make_trial, DE.mutate, DE.clamp, DE.crossover,
    DE.round_integer_parameters.
  apply quiet_bind; [auto with quiet | intros candidates].
  apply quiet_bind; [auto with quiet | intros [[a b] c]].
  quiet_tac.
Qed.

Lemma quiet_init_population :
  quiet (DE.init_population rng bounds pop_size).
Proof. unfold DE.init_population. quiet_tac. Qed.

(** Lines 61-65 read off a successful pass for index [i]. *)
Lemma evolve_index_spec population fitness i w population' fitness' w' :
  DE.evolve_index rng bounds pop_size F CR (population, fitness) i w
    = (inr (population', fitness'), w') ->
  exists trial trial_fitness incumbent,
    DE.evaluate_cicd trial = inr trial_fitness /\
    objective_calls w' = objective_calls w ++ [(trial, trial_fitness)] /\
    stdout w' = stdout w /\
    nth_error fitness i = Some incumbent /\
    ((trial_fitness < incumbent /\ (i < length population)%nat /\
      population' = update population i trial /\
      fitness' = update fitness i trial_fitness)
     \/
     (incumbent <= trial_fitness /\
      population' = population /\ fitness' = fitness)).
Proof.
  unfold DE.evolve_index. intros H. invM H. simpl in Hm.
  apply quiet_make_trial in Hm. destruct Hm as (Q1 & Q2 & _).
  unfold DE.select in Hk. invM Hk.
  apply call_evaluate_inr in Hm. destruct Hm as (Ev & L1 & L2).
  rewrite Q1 in L1. rewrite Q2 in L2.
  exists a, a0, a1.
  destruct (Qltb a0 a1) eqn:E; invM Hk.
  - inversion E0; subst. apply Qltb_lt in E. auto 10.
  - inversion E0; subst. apply Qltb_ge in E. auto 10.
Qed.

(** The bookkeeping invariant of the run: sizes agree, every current
    (candidate, fitness) pair was scored since [base], and every score
    obtained since [base] is matched or beaten by a current fitness. *)
Definition de_inv (base : list (list Q * Q))
    (pf : list (list Q) * list Q) (w : world) : Prop :=
  length (fst pf) = pop_size /\
  exists new,
    objective_calls w = base ++ new /\
    Forall2 (fun p f => In (p, f) new) (fst pf) (snd pf) /\
    forall c s, In (c, s) new -> exists f, In f (snd pf) /\ f <= s.

Lemma evolve_index_inv base pf i w pf' w' :
  de_inv base pf w ->
  DE.evolve_index rng bounds pop_size F CR pf i w = (inr pf', w') ->
  de_inv base pf' w' /\ improves (snd pf) (snd pf') /\
  stdout w' = stdout w.
Proof.
  destruct pf as [pop fit], pf' as [pop' fit'].
  intros (Hlen & new & Hlog & Hall & Hmin) H.
  apply evolve_index_spec in H.
  destruct H as (trial & tf & inc & _ & L & Hout & Hinc & Hcase).
  simpl in *.
  destruct Hcase as [(Hlt & Hi & -> & ->) | (Hle & -> & ->)].
  - split; [| split; [| exact Hout]].
    + split; [simpl; rewrite length_update; exact Hlen |].
      exists (new ++ [(trial, tf)]). simpl.
      split; [rewrite L, Hlog; symmetry; apply app_assoc |]. split.
      * apply Forall2_update.
        -- eapply Forall2_impl; [| exact Hall]. simpl.
           intros p f Hin. apply in_or_app. left; exact Hin.
        -- apply in_or_app. right. left. reflexivity.
      * intros c s Hin. apply in_app_or in Hin.
        destruct Hin as [Hin | [Heq | []]].
        -- destruct (Hmin c s Hin) as (f & Hf & Hfs).
           destruct (In_update_inv fit i tf inc f Hf Hinc) as [Hf' | ->].
           ++ exists f. auto.
           ++ exists tf. split.
              ** eapply nth_error_In. apply nth_error_update_eq.
                 apply nth_error_Some. congruence.
              ** apply Qlt_le_weak. eapply Qlt_le_trans; eauto.
        -- inversion Heq; subst. exists s. split; [| apply Qle_refl].
           eapply nth_error_In. apply nth_error_update_eq.
           apply nth_error_Some. congruence.
    + apply improves_update with (inc := inc); [exact Hinc |].
      apply Qlt_le_weak; exact Hlt.
  - split; [| split; [apply improves_refl | exact Hout]].
    split; [exact Hlen |]. exists (new ++ [(trial, tf)]). simpl.
    split; [rewrite L, Hlog; symmetry; apply app_assoc |]. split.
    + eapply Forall2_impl; [| exact Hall]. simpl.
      intros p f Hin. apply in_or_app. left; exact Hin.
    + intros c s Hin. apply in_app_or in Hin.
      destruct Hin as [Hin | [Heq | []]]; [apply Hmin in Hin; exact Hin |].
      inversion Heq; subst. exists inc. split; [| exact Hle].
      eapply nth_error_In; eauto.
Qed.

Lemma sweep_inv base l pf w pf' w' :
  de_inv base pf w ->
  foldM (DE.evolve_index rng bounds pop_size F CR) l pf w = (inr pf', w') ->
  de_inv base pf' w' /\ improves (snd pf) (snd pf') /\
  stdout w' = stdout w.
Proof.
  revert pf w. induction l as [| i t IH]; intros pf w HI H; simpl in H.
  - invM H. split; [exact HI |]. split; [apply improves_refl | reflexivity].
  - invM H. destruct (evolve_index_inv _ _ _ _ _ _ HI Hm) as (HI1 & Him & Ho).
    destruct (IH _ _ HI1 Hk) as (HI2 & Him2 & Ho2).
    split; [exact HI2 |].
    split; [eapply improves_trans; eauto | congruence].
Qed.

(** Lines 33-67: a generation keeps the invariant, never worsens a
    fitness entry, and prints the least fitness. *)
Lemma de_generation_inv base pf iteration w pf' w' :
  de_inv base pf w ->
  DE.generation rng bounds pop_size F CR pf iteration w = (inr pf', w') ->
  de_inv base pf' w' /\ improves (snd pf) (snd pf') /\
  exists b, lowest (snd pf') b /\ stdout w' = stdout w ++ [b].
Proof.
  intros HI H. unfold DE.generation in H. invM H.
  destruct (sweep_inv _ _ _ _ _ _ HI Hm) as (HI1 & Him & Ho).
  unfold py_min in Hm0. apply py_min_by_inr in Hm0.
  destruct Hm0 as (-> & Hin & Hmin).
  unfold DE.print_best in Hm1. inversion Hm1; subst. clear Hm1.
  split; [| split; [exact Him |]].
  - destruct HI1 as (Hl & new & Hlog & Hrest).
    split; [exact Hl |]. exists new. simpl. split; [exact Hlog | exact Hrest].
  - exists a0. split; [split; assumption |]. simpl. congruence.
Qed.
End DE_steps.

Section DE_run.
Variable rng : nat -> Z.
Variable bounds : list (Q * Q).
Variable pop_size : nat.
Variables F CR : Q.

Lemma init_population_length w population w' :
  DE.init_population rng bounds pop_size w = (inr population, w') ->
  length population = pop_size.
Proof.
  unfold DE.init_population.
  assert (G : forall l acc w acc' w',
             foldM (fun population (_ : nat) =>
                      ind <- mapM (fun i => b <- index bounds i ;;
                                            uniform rng (fst b) (snd b))
                                  (seq 0 (length bounds)) ;;
                      ret (population ++ [ind])) l acc w = (inr acc', w') ->
             length acc' = (length acc + length l)%nat).
  { induction l as [| x t IH]; intros acc w0 acc' w0' H; simpl in H.
    - invM H. simpl. lia.
    - invM H. apply IH in Hk. rewrite Hk, length_app. simpl. lia. }
  intros H. apply G in H. rewrite H, length_seq. reflexivity.
Qed.

Lemma score_all_spec population w fitness w' :
  mapM DE.call_evaluate population w = (inr fitness, w') ->
  stdout w' = stdout w /\
  exists new,
    objective_calls w' = objective_calls w ++ new /\
    length new = length population /\
    Forall2 (fun p f => In (p, f) new) population fitness /\
    forall c s, In (c, s) new -> In s fitness.
Proof.
  revert w fitness. induction population as [| p t IH];
    intros w fitness H; simpl in H.
  - invM H. split; [reflexivity |]. exists []. rewrite app_nil_r.
    split; [reflexivity |]. split; [reflexivity |].
    split; [constructor | intros c s []].
  - invM H. apply call_evaluate_inr in Hm. destruct Hm as (_ & L & O).
    destruct (IH _ _ Hm0) as (O' & new & L' & Hlen & Hall & Hin).
    split; [congruence |]. exists ((p, a) :: new).
    split; [rewrite L', L, <- app_assoc; reflexivity |].
    split; [simpl; congruence |]. split.
    + constructor; [left; reflexivity |].
      eapply Forall2_impl; [| exact Hall]. simpl. intros; right; assumption.
    + intros c s [Heq | Hcs].
      * inversion Heq; subst. left; reflexivity.
      * right. eapply Hin; eauto.
Qed.

Lemma de_initialise_inv w pf w' :
  DE.initialise rng bounds pop_size w = (inr pf, w') ->
  de_inv pop_size (objective_calls w) pf w' /\ stdout w' = stdout w /\
  length (objective_calls w') = (length (objective_calls w) + pop_size)%nat.
Proof.
  unfold DE.initialise. intros H. invM H.
  pose proof (init_population_length _ _ _ Hm) as Hlen.
  apply quiet_init_population in Hm. destruct Hm as (Q1 & Q2 & _).
  apply score_all_spec in Hm0.
  destruct Hm0 as (O & new & L & Hn & Hall & Hin).
  split; [| split; [congruence |]].
  - split; [exact Hlen |]. exists new. simpl.
    split; [congruence |]. split; [exact Hall |].
    intros c s Hcs. exists s. split; [eapply Hin; eauto | apply Qle_refl].
  - rewrite L, length_app, Q1. lia.
Qed.

Lemma de_generations_step k w pf' w' :
  DE.generations rng bounds pop_size F CR (S k) w = (inr pf', w') ->
  exists pf w1,
    DE.generations rng bounds pop_size F CR k w = (inr pf, w1) /\
    DE.generation rng bounds pop_size F CR pf k w1 = (inr pf', w').
Proof.
  unfold DE.generations. intros H. invM H.
  rewrite seq_S, foldM_app in Hk. simpl in Hk. invM Hk.
  exists a0, w1. split; [| exact Hm1].
  erewrite bind_ok by exact Hm. exact Hm0.
Qed.

Lemma de_generations_inv k w pf w' :
  DE.generations rng bounds pop_size F CR k w = (inr pf, w') ->
  de_inv pop_size (objective_calls w) pf w' /\
  length (stdout w') = (length (stdout w) + k)%nat.
Proof.
  revert pf w'. induction k as [| k IH]; intros pf w' H.
  - unfold DE.generations in H. invM H. simpl in Hk. invM Hk.
    apply de_initialise_inv in Hm. destruct Hm as (HI & O & _).
    split; [exact HI | rewrite O; lia].
  - apply de_generations_step in H. destruct H as (pf0 & w1 & H0 & H1).
    apply IH in H0. destruct H0 as [HI O].
    destruct (de_generation_inv _ _ _ _ _ _ _ _ _ _ _ HI H1)
      as (HI' & _ & b & _ & O').
    split; [exact HI' |]. rewrite O', length_app, O. simpl. lia.
Qed.

Lemma de_report_spec base pf w cfg s w' :
  de_inv pop_size base pf w ->
  DE.report pf w = (inr (cfg, s), w') ->
  w' = w /\ lowest (snd pf) s /\
  exists new, objective_calls w = base ++ new /\ In (cfg, s) new /\
              forall c' s', In (c', s') new -> s <= s'.
Proof.
  intros (Hlen & new & L & Hall & Hmin) H. unfold DE.report in H. invM H.
  apply argmin_inr in Hm. destruct Hm as (-> & v & Hv & Hlow).
  inversion E; subst. clear E.
  assert (s = v) by congruence. subst v.
  split; [reflexivity |]. split; [exact Hlow |].
  exists new. split; [exact L |]. split.
  - eapply (Forall2_nth_error _ _ _ _ _ _ Hall); eauto.
  - intros c' s' Hin. destruct (Hmin _ _ Hin) as (f & Hf & Hle).
    eapply Qle_trans; [apply Hlow; exact Hf | exact Hle].
Qed.
End DE_run.

(** * Local perturbation: sorting, frames and the run invariant *)

Definition preserves {X A} (f : world -> X) (m : M A) : Prop :=
  forall w r w', m w = (r, w') -> f w' = f w.

Lemma preserves_ret {X A} (f : world -> X) (a : A) : preserves f (ret a).
Proof. intros w r w' H. inversion H. reflexivity. Qed.

Lemma preserves_raise {X A} (f : world -> X) e : preserves f (@raise A e).
Proof. intros w r w' H. inversion H. reflexivity. Qed.

Lemma preserves_bind {X A B} (f : world -> X) (m : M A) (k : A -> M B) :
  preserves f m -> (forall a, preserves f (k a)) -> preserves f (bind m k).
Proof.
  intros Hm Hk w r w' H. unfold bind in H.
  destruct (m w) as [[e | a] w1] eqn:E.
  - inversion H; subst. eapply Hm; eauto.
  - apply Hm in E. apply Hk in H. congruence.
Qed.

Lemma preserves_mapM {X A B} (f : world -> X) (g : A -> M B) (l : list A) :
  (forall x, preserves f (g x)) -> preserves f (mapM g l).
Proof.
  intros Hg. induction l as [| x t IH]; simpl.
  - apply preserves_ret.
  - apply preserves_bind; [apply Hg |]. intros y.
    apply preserves_bind; [exact IH |]. intros ys. apply preserves_ret.
Qed.

Lemma quiet_preserves_log {A} (m : M A) :
  quiet m -> preserves objective_calls m.
Proof. intros H w r w' E. apply H in E. tauto. Qed.

Lemma quiet_preserves_patches {A} (m : M A) : quiet m -> preserves patches m.
Proof. intros H w r w' E. apply H in E. tauto. Qed.

Lemma quiet_preserves_http {A} (m : M A) : quiet m -> preserves http_calls m.
Proof. intros H w r w' E. apply H in E. tauto. Qed.

(** Drawing random numbers leaves the measurements as they are. *)
Lemma next_raw_keeps_measurements rng : preserves measurements (next_raw rng).
Proof. intros w r w' H. inversion H. reflexivity. Qed.

Lemma randbelow_keeps_measurements rng n :
  preserves measurements (randbelow rng n).
Proof.
  unfold randbelow. apply preserves_bind;
    [apply next_raw_keeps_measurements | intros; apply preserves_ret].
Qed.

Lemma uniform_keeps_measurements rng a b :
  preserves measurements (uniform rng a b).
Proof.
  unfold uniform, random.
  repeat (apply preserves_bind;
          [try apply next_raw_keeps_measurements | intros]);
    apply preserves_ret.
Qed.

Lemma randint_keeps_measurements rng a b :
  preserves measurements (randint rng a b).
Proof.
  unfold randint. destruct (b <? a)%Z; [apply preserves_raise |].
  apply preserves_bind;
    [apply randbelow_keeps_measurements | intros; apply preserves_ret].
Qed.

Lemma choice_keeps_measurements {A} rng (l : list A) :
  preserves measurements (choice rng l).
Proof.
  unfold choice. destruct l as [| a t]; [apply preserves_raise |].
  apply preserves_bind; [apply randbelow_keeps_measurements |].
  intros k. unfold index. destruct (nth_error (a :: t) k);
    [apply preserves_ret | apply preserves_raise].
Qed.

(** ** The order on floats *)

Lemma fl_lt_le x y : fl_lt x y -> fl_le x y.
Proof.
  destruct x, y; unfold fl_lt, fl_le; simpl; try discriminate;
    try reflexivity.
  intros H. apply Qltb_lt in H. apply Qle_bool_iff, Qlt_le_weak. exact H.
Qed.

Lemma fl_le_trans x y z : fl_le x y -> fl_le y z -> fl_le x z.
Proof.
  destruct x, y, z; unfold fl_le; simpl; try discriminate; try reflexivity.
  rewrite !Qle_bool_iff. apply Qle_trans.
Qed.

Lemma fl_lt_trans x y z : fl_lt x y -> fl_lt y z -> fl_lt x z.
Proof.
  destruct x, y, z; unfold fl_lt; simpl; try discriminate; try reflexivity.
  rewrite !Qltb_lt. apply Qlt_trans.
Qed.

Lemma fl_le_refl x : is_nan x = false -> fl_le x x.
Proof.
  destruct x; unfold fl_le; simpl; try discriminate; try reflexivity.
  intros _. apply Qle_bool_iff, Qle_refl.
Qed.

(** Away from NaN the order is total. *)
Lemma fl_nlt_le x y :
  is_nan x = false -> is_nan y = false -> fl_ltb x y = false -> fl_le y x.
Proof.
  destruct x, y; unfold fl_le; simpl; try discriminate; try reflexivity.
  intros _ _ H. apply Qltb_ge in H. apply Qle_bool_iff. exact H.
Qed.

Lemma fl_lt_not_le x y : fl_lt x y -> ~ fl_le y x.
Proof.
  destruct x, y; unfold fl_lt, fl_le; simpl; try discriminate;
    try (intros _ C; discriminate C).
  intros H C. apply Qltb_lt in H. apply Qle_bool_iff in C.
  exact (Qlt_not_le _ _ H C).
Qed.

Lemma fl_lt_not_nan x y : fl_lt x y -> is_nan x = false /\ is_nan y = false.
Proof.
  destruct x, y; unfold fl_lt; simpl; try discriminate; auto.
Qed.

Lemma fl_le_not_nan x y : fl_le x y -> is_nan x = false /\ is_nan y = false.
Proof.
  destruct x, y; unfold fl_le; simpl; try discriminate; auto.
Qed.

(** Comparisons with NaN are all false. *)
Lemma fl_nan_unordered x :
  fl_ltb x NaN = false /\ fl_ltb NaN x = false /\
  fl_leb x NaN = false /\ fl_leb NaN x = false.
Proof. destruct x; repeat split. Qed.

(** ** [min] with a key *)

Definition no_nan {A} (key : A -> pyfloat) (l : list A) : Prop :=
  Forall (fun x => is_nan (key x) = false) l.

Lemma min_from_In {A} (key : A -> pyfloat) (l : list A) :
  forall b, In (min_from key b l) (b :: l).
Proof.
  induction l as [| x t IH]; intros b; simpl; [left; reflexivity |].
  destruct (fl_ltb (key x) (key b)).
  - right. apply IH.
  - destruct (IH b) as [E | E]; [left; exact E | right; right; exact E].
Qed.

Lemma min_from_least {A} (key : A -> pyfloat) (l : list A) :
  forall b, no_nan key (b :: l) ->
            forall y, In y (b :: l) ->
                      fl_le (key (min_from key b l)) (key y).
Proof.
  induction l as [| x t IH]; intros b Hn y Hy.
  - simpl. destruct Hy as [<- | []]. apply fl_le_refl.
    inversion Hn; assumption.
  - inversion Hn as [| ? ? Hb Ht]; subst.
    inversion Ht as [| ? ? Hx Ht']; subst.
    change (min_from key b (x :: t))
      with (if fl_ltb (key x) (key b) then min_from key x t
            else min_from key b t).
    destruct (fl_ltb (key x) (key b)) eqn:E.
    + assert (Hnx : no_nan key (x :: t)) by (constructor; assumption).
      destruct Hy as [<- | Hy]; [| apply IH; assumption].
      eapply fl_le_trans; [apply (IH x Hnx x); left; reflexivity |].
      apply fl_lt_le. exact E.
    + assert (Hnb : no_nan key (b :: t)) by (constructor; assumption).
      destruct Hy as [<- | [<- | Hy]].
      * apply IH; [exact Hnb | left; reflexivity].
      * eapply fl_le_trans; [apply (IH b Hnb b); left; reflexivity |].
        apply fl_nlt_le; assumption.
      * apply IH; [exact Hnb | right; exact Hy].
Qed.

Lemma py_min_key_inr {A} (key : A -> pyfloat) (l : list A) w x w' :
  py_min_key key l w = (inr x, w') ->
  w' = w /\ In x l /\
  (no_nan key l -> forall y, In y l -> fl_le (key x) (key y)).
Proof.
  unfold py_min_key. destruct l as [| b t]; [discriminate |].
  intros H. apply ret_inr in H. destruct H as [<- <-].
  split; [reflexivity |]. split; [apply min_from_In |].
  apply min_from_least.
Qed.

Lemma py_min_key_ok {A} (key : A -> pyfloat) (l : list A) w :
  l <> [] -> exists x, py_min_key key l w = (inr x, w).
Proof.
  destruct l as [| b t]; [congruence |]. intros _.
  eexists. reflexivity.
Qed.

(** ** [list.sort] *)

Definition by_key {A} (key : A -> pyfloat) (x y : A) : Prop :=
  fl_le (key x) (key y).

Lemma insert_by_perm {A} (key : A -> pyfloat) x l :
  Permutation (MBO.insert_by key x l) (x :: l).
Proof.
  induction l as [| y t IH]; simpl.
  - apply Permutation_refl.
  - destruct (fl_ltb (key y) (key x)).
    + eapply perm_trans; [apply perm_skip; exact IH | apply perm_swap].
    + apply Permutation_refl.
Qed.

Lemma sort_by_perm {A} (key : A -> pyfloat) l :
  Permutation (MBO.sort_by key l) l.
Proof.
  induction l as [| x t IH]; simpl.
  - apply perm_nil.
  - eapply perm_trans; [apply insert_by_perm | apply perm_skip; exact IH].
Qed.

Lemma insert_at_perm {A} p (x : A) l :
  Permutation (MBO.insert_at p x l) (x :: l).
Proof.
  revert p. induction l as [| y t IH]; intros [| p]; simpl;
    try apply Permutation_refl.
  eapply perm_trans; [apply perm_skip; apply IH | apply perm_swap].
Qed.

Lemma arrange_perm {A} places (l : list A) :
  Permutation (MBO.arrange places l) l.
Proof.
  revert places. induction l as [| x t IH]; intros places; simpl.
  - apply perm_nil.
  - eapply perm_trans; [apply insert_at_perm | apply perm_skip; apply IH].
Qed.

(** Whatever the keys, the sort only rearranges. *)
Lemma list_sort_perm {A} disorder (key : A -> pyfloat) l :
  Permutation (MBO.list_sort disorder key l) l.
Proof.
  unfold MBO.list_sort. destruct (existsb is_nan (map key l)).
  - apply arrange_perm.
  - apply sort_by_perm.
Qed.

Lemma list_sort_length {A} disorder (key : A -> pyfloat) l :
  length (MBO.list_sort disorder key l) = length l.
Proof. apply Permutation_length, list_sort_perm. Qed.

Lemma no_nan_existsb {A} (key : A -> pyfloat) l :
  no_nan key l -> existsb is_nan (map key l) = false.
Proof.
  induction 1 as [| x t Hx Ht IH]; simpl; [reflexivity |].
  rewrite Hx, IH. reflexivity.
Qed.

Lemma list_sort_ordered {A} disorder (key : A -> pyfloat) l :
  no_nan key l -> MBO.list_sort disorder key l = MBO.sort_by key l.
Proof.
  intros H. unfold MBO.list_sort. rewrite (no_nan_existsb key l H).
  reflexivity.
Qed.

Lemma insert_by_sorted {A} (key : A -> pyfloat) x l :
  no_nan key (x :: l) ->
  StronglySorted (by_key key) l ->
  StronglySorted (by_key key) (MBO.insert_by key x l).
Proof.
  intros Hn. inversion Hn as [| ? ? Hx Hl]; subst. clear Hn.
  induction 1 as [| y t Ht IH Hy]; simpl.
  - constructor; constructor.
  - inversion Hl as [| ? ? Hny Hnt]; subst.
    destruct (fl_ltb (key y) (key x)) eqn:E.
    + constructor; [apply IH; exact Hnt |].
      eapply Permutation_Forall.
      * apply Permutation_sym, insert_by_perm.
      * constructor; [| exact Hy]. unfold by_key.
        apply fl_lt_le. exact E.
    + apply fl_nlt_le in E; [| assumption | assumption].
      constructor.
      * constructor; assumption.
      * constructor; [exact E |].
        eapply Forall_impl; [| exact Hy]. intros z Hz.
        unfold by_key in *. eapply fl_le_trans; eauto.
Qed.

Lemma sort_by_sorted {A} (key : A -> pyfloat) l :
  no_nan key l -> StronglySorted (by_key key) (MBO.sort_by key l).
Proof.
  induction 1 as [| x t Hx Ht IH]; simpl.
  - constructor.
  - apply insert_by_sorted; [| exact IH].
    constructor; [exact Hx |].
    eapply Permutation_Forall; [apply Permutation_sym, sort_by_perm |].
    exact Ht.
Qed.

(** Where no key is NaN the sort puts the list in ascending order. *)
Lemma list_sort_sorted {A} disorder (key : A -> pyfloat) l :
  no_nan key l -> StronglySorted (by_key key) (MBO.list_sort disorder key l).
Proof.
  intros H. rewrite list_sort_ordered by exact H.
  apply sort_by_sorted. exact H.
Qed.

Lemma skipn_In {A} (l : list A) n y : In y (skipn n l) -> In y l.
Proof.
  revert n. induction l as [| x t IH]; intros [| n]; simpl; auto.
  intros H. right. eapply IH; eauto.
Qed.

Lemma firstn_In {A} (l : list A) n y : In y (firstn n l) -> In y l.
Proof.
  revert n. induction l as [| x t IH]; intros [| n]; simpl; auto;
    try tauto.
  intros [H | H]; [left; exact H | right; eapply IH; eauto].
Qed.

(** In a sorted list every member of a prefix is no worse than every member
    of the matching suffix. *)
Lemma sorted_prefix_le_suffix {A} (key : A -> pyfloat) (l : list A) n x y :
  StronglySorted (by_key key) l ->
  In x (firstn n l) -> In y (skipn n l) -> fl_le (key x) (key y).
Proof.
  intros H. revert n. induction H as [| z t Ht IH Hz]; intros n Hx Hy.
  - rewrite firstn_nil in Hx. destruct Hx.
  - destruct n as [| n]; simpl in Hx, Hy; [destruct Hx |].
    destruct Hx as [<- | Hx].
    + rewrite Forall_forall in Hz. apply Hz.
      eapply skipn_In. exact Hy.
    + eapply IH; eauto.
Qed.

Lemma sorted_head_least {A} (key : A -> pyfloat) (l : list A) x y :
  StronglySorted (by_key key) l -> is_nan (key x) = false ->
  nth_error l 0 = Some x -> In y l -> fl_le (key x) (key y).
Proof.
  intros H Hn Hx Hy. destruct H as [| z t Ht Hz]; simpl in Hx;
    [discriminate |].
  inversion Hx; subst. destruct Hy as [<- | Hy]; [apply fl_le_refl, Hn |].
  rewrite Forall_forall in Hz. apply Hz. exact Hy.
Qed.

(** The trace entry of a scored candidate. *)
Definition entry (e : MBO.scored) : list Q * pyfloat :=
  (MBO.values (fst (fst e)), MBO.score e).

Lemma no_nan_incl {A} (key : A -> pyfloat) (l l' : list A) :
  incl l l' -> no_nan key l' -> no_nan key l.
Proof.
  intros Hi Hn. apply Forall_forall. intros x Hx.
  unfold no_nan in Hn. rewrite Forall_forall in Hn. apply Hn, Hi, Hx.
Qed.

Section MBO_steps.
Variable rng : nat -> Z.
Variable http : nat -> MBO.query -> MBO.response.
Variable cluster : nat -> bool.
Variables incluster kubeconfig : bool.
Variables ALPHA BETA : Q.
Variable disorder : list pyfloat -> list nat.

Let evaluate := MBO.evaluate http cluster ALPHA BETA.
Let generation := MBO.generation rng http cluster ALPHA BETA disorder.
Let generations := MBO.generations rng http cluster incluster kubeconfig
                                   ALPHA BETA disorder.

Lemma attempt_query_keeps_log q n :
  preserves measurements (MBO.attempt_query http q n).
Proof.
  induction n as [| n IH]; simpl.
  - apply preserves_ret.
  - apply preserves_bind.
    + intros w r w' H. inversion H. reflexivity.
    + intros [| | result]; [exact IH | exact IH | apply preserves_ret].
Qed.

Lemma get_metric_scalar_keeps_log q :
  preserves measurements (MBO.get_metric_scalar http q).
Proof.
  unfold MBO.get_metric_scalar, MBO.prometheus_query.
  apply preserves_bind; [apply attempt_query_keeps_log |].
  intros [[[|] | [| e t]] |];
    try apply preserves_ret; try apply preserves_raise.
  destruct (MBO.somes (e :: t)); apply preserves_ret.
Qed.

Lemma fetch_keeps_log :
  preserves measurements (MBO.fetch_current_metrics http).
Proof.
  unfold MBO.fetch_current_metrics.
  repeat (apply preserves_bind;
          [apply get_metric_scalar_keeps_log | intros]).
  apply preserves_ret.
Qed.

Lemma mbo_evaluate_spec ind w e w' :
  evaluate ind w = (inr e, w') ->
  fst (fst e) = ind /\
  measurements w' = measurements w ++ [entry e].
Proof.
  unfold evaluate, MBO.evaluate. intros H.
  apply bind_inr in H. destruct H as (u & w0 & Hp & H).
  apply bind_inr in H. destruct H as (m & w1 & Hf & H).
  apply bind_inr in H. destruct H as (u' & w2 & Hr & H).
  apply ret_inr in H. destruct H as [<- <-].
  assert (P : measurements w0 = measurements w).
  { unfold MBO.patch_deployment_params in Hp.
    destruct (cluster (length (patches w))); inversion Hp; reflexivity. }
  apply fetch_keeps_log in Hf.
  unfold MBO.record_evaluation in Hr. inversion Hr; subst. simpl.
  split; [reflexivity |]. unfold entry. simpl. rewrite Hf, P.
  reflexivity.
Qed.

Lemma mbo_evaluate_all_spec pop w evs w' :
  mapM evaluate pop w = (inr evs, w') ->
  map (fun e => fst (fst e)) evs = pop /\
  measurements w' = measurements w ++ map entry evs.
Proof.
  revert w evs. induction pop as [| p t IH]; intros w evs H; simpl in H.
  - apply ret_inr in H. destruct H as [<- <-]. simpl.
    rewrite app_nil_r. auto.
  - apply bind_inr in H. destruct H as (e & w1 & He & H).
    apply bind_inr in H. destruct H as (es & w2 & Hes & H).
    apply ret_inr in H. destruct H as [<- <-].
    apply mbo_evaluate_spec in He. destruct He as [E1 L1].
    apply IH in Hes. destruct Hes as [E2 L2]. simpl. split.
    + congruence.
    + rewrite L2, L1, <- app_assoc. reflexivity.
Qed.

Lemma quiet_sample_individual : quiet (MBO.sample_individual rng).
Proof. unfold MBO.sample_individual. quiet_tac. Qed.

Lemma quiet_perturb ind : quiet (MBO.perturb rng ind).
Proof. unfold MBO.perturb. quiet_tac. Qed.

Lemma sample_individual_keeps_log :
  preserves measurements (MBO.sample_individual rng).
Proof.
  unfold MBO.sample_individual.
  apply preserves_bind; [apply randint_keeps_measurements | intros].
  apply preserves_bind; [apply uniform_keeps_measurements | intros].
  apply preserves_bind; [apply randint_keeps_measurements | intros].
  apply preserves_ret.
Qed.

Lemma perturb_keeps_log ind : preserves measurements (MBO.perturb rng ind).
Proof.
  unfold MBO.perturb.
  apply preserves_bind; [apply choice_keeps_measurements | intros].
  apply preserves_bind; [apply uniform_keeps_measurements | intros].
  apply preserves_bind; [apply choice_keeps_measurements | intros].
  apply preserves_ret.
Qed.

(** Lines 131-157 read off a successful generation. *)
Lemma mbo_generation_spec pop_size evaluated best it w evaluated' best' w' :
  generation pop_size (evaluated, best) it w
    = (inr (evaluated', best'), w') ->
  exists offspring top,
    length offspring = length evaluated /\
    measurements w' = measurements w ++ map entry offspring /\
    evaluated' =
      firstn pop_size
             (MBO.list_sort disorder MBO.score (evaluated ++ offspring)) /\
    nth_error evaluated' 0 = Some top /\
    best' = (if fl_ltb (MBO.score top) (MBO.score best) then top else best).
Proof.
  unfold generation, MBO.generation. intros H.
  apply bind_inr in H. destruct H as (new_pop & w1 & Hp & H).
  apply bind_inr in H. destruct H as (offspring & w2 & He & H).
  apply bind_inr in H. destruct H as (top & w3 & Ht & H).
  apply index_inr in Ht. destruct Ht as [Ht ->].
  pose proof (mapM_length _ _ _ _ _ Hp) as Lp.
  pose proof (mapM_length _ _ _ _ _ He) as Le.
  apply (preserves_mapM measurements) in Hp;
    [| intros; apply perturb_keeps_log].
  apply mbo_evaluate_all_spec in He. destruct He as [_ L].
  exists offspring, top.
  assert (L2 : measurements w2 = measurements w ++ map entry offspring)
    by (rewrite L, Hp; reflexivity).
  destruct (fl_ltb (MBO.score top) (MBO.score best));
    apply ret_inr in H; destruct H as [E <-]; inversion E; subst;
    (split; [rewrite Le; exact Lp |]); (split; [exact L2 |]); auto.
Qed.

Section Invariant.
Variable pop_size : nat.
Variable base : list (list Q * pyfloat).

(** Sizes agree; everything kept was scored since [base]; [best] was
    scored since [base]; and, provided no score since [base] is NaN,
    nothing scored beats [best] and the population still holds a candidate
    that nothing scored beats. *)
Definition mbo_inv (st : list MBO.scored * MBO.scored) (w : world)
    : Prop :=
  length (fst st) = pop_size /\
  exists all,
    measurements w = base ++ map entry all /\
    incl (fst st) all /\
    In (snd st) all /\
    (no_nan MBO.score all ->
     (forall e, In e all -> fl_le (MBO.score (snd st)) (MBO.score e)) /\
     exists e0, In e0 (fst st) /\
                forall e, In e all -> fl_le (MBO.score e0) (MBO.score e)).

Lemma mbo_generation_inv st it w st' w' :
  mbo_inv st w ->
  generation pop_size st it w = (inr st', w') ->
  mbo_inv st' w' /\
  (is_nan (MBO.score (snd st)) = false ->
   fl_le (MBO.score (snd st')) (MBO.score (snd st))).
Proof.
  destruct st as [evaluated best], st' as [evaluated' best'].
  intros (Hlen & all & L & Hincl & Hbest & Hord) H.
  apply mbo_generation_spec in H.
  destruct H as (offspring & top & Hoff & L' & -> & Htop & ->).
  simpl in *.
  set (sorted := MBO.list_sort disorder MBO.score (evaluated ++ offspring))
    in *.
  change (nth_error (firstn pop_size sorted) 0 = Some top) in Htop.
  assert (Hperm : forall e, In e sorted <-> In e (evaluated ++ offspring)).
  { intros e. split; apply Permutation_in;
      [| apply Permutation_sym]; apply list_sort_perm. }
  assert (Hall : forall e, In e sorted -> In e (all ++ offspring)).
  { intros e He. apply Hperm in He. apply in_app_or in He.
    apply in_or_app. destruct He; [left; apply Hincl |]; auto. }
  assert (Htop_in : In top (firstn pop_size sorted))
    by (eapply nth_error_In; eauto).
  assert (Htop0 : nth_error sorted 0 = Some top).
  { destruct pop_size, sorted; simpl in *; try discriminate; auto. }
  split.
  - split.
    + simpl. rewrite length_firstn. unfold sorted.
      rewrite list_sort_length, length_app. lia.
    + exists (all ++ offspring). simpl.
      split; [rewrite L', L, map_app, app_assoc; reflexivity |].
      split; [intros e He; apply Hall; eapply firstn_In; eauto |].
      split.
      { destruct (fl_ltb (MBO.score top) (MBO.score best)).
        - apply Hall. eapply firstn_In; eauto.
        - apply in_or_app. left; exact Hbest. }
      intros Hnn.
      assert (Hnn' : forall e, In e (all ++ offspring) ->
                               is_nan (MBO.score e) = false).
      { unfold no_nan in Hnn. rewrite Forall_forall in Hnn. exact Hnn. }
      apply Forall_app in Hnn. destruct Hnn as [Hn1 Hn2].
      destruct (Hord Hn1) as (Hmin & e0 & He0 & Hmin0).
      assert (Hnm : no_nan MBO.score (evaluated ++ offspring)).
      { apply Forall_app. split; [| exact Hn2].
        eapply no_nan_incl; eauto. }
      assert (Htop_min : forall e, In e (all ++ offspring) ->
                                   fl_le (MBO.score top) (MBO.score e)).
      { intros e He.
        assert (G : forall x, In x sorted ->
                              fl_le (MBO.score top) (MBO.score x)).
        { intros x Hx.
          eapply (sorted_head_least MBO.score sorted);
            [apply list_sort_sorted; exact Hnm | | exact Htop0 | exact Hx].
          apply Hnn', Hall. eapply firstn_In; eauto. }
        apply in_app_or in He. destruct He as [He | He].
        - eapply fl_le_trans; [| apply Hmin0; exact He].
          apply G, Hperm, in_or_app. left; exact He0.
        - apply G, Hperm, in_or_app. right; exact He. }
      split.
      * intros e He.
        destruct (fl_ltb (MBO.score top) (MBO.score best)) eqn:E.
        -- apply Htop_min; exact He.
        -- apply fl_nlt_le in E.
           ++ apply in_app_or in He.
              destruct He as [He | He]; [apply Hmin; exact He |].
              eapply fl_le_trans; [exact E |].
              apply Htop_min, in_or_app. right; exact He.
           ++ apply Hnn', Hall. eapply firstn_In; eauto.
           ++ apply Hnn', in_or_app. left; exact Hbest.
      * exists top. split; [exact Htop_in | exact Htop_min].
  - simpl. intros Hb.
    destruct (fl_ltb (MBO.score top) (MBO.score best)) eqn:E.
    + apply fl_lt_le. exact E.
    + apply fl_le_refl. exact Hb.
Qed.
End Invariant.
End MBO_steps.

Section MBO_run.
Variable rng : nat -> Z.
Variable http : nat -> MBO.query -> MBO.response.
Variable cluster : nat -> bool.
Variables incluster kubeconfig : bool.
Variables ALPHA BETA : Q.
Variable disorder : list pyfloat -> list nat.
Variable pop_size : nat.

Let generations := MBO.generations rng http cluster incluster kubeconfig
                                   ALPHA BETA disorder pop_size.

Lemma mbo_initialise_inv w st w' :
  MBO.initialise rng http cluster ALPHA BETA pop_size w = (inr st, w') ->
  mbo_inv pop_size (measurements w) st w'.
Proof.
  unfold MBO.initialise. intros H.
  apply bind_inr in H. destruct H as (pop & w1 & Hp & H).
  apply bind_inr in H. destruct H as (evs & w2 & He & H).
  apply bind_inr in H. destruct H as (best & w3 & Hb & H).
  apply ret_inr in H. destruct H as [<- <-].
  pose proof (mapM_length _ _ _ _ _ Hp) as Lp. rewrite length_seq in Lp.
  apply (preserves_mapM measurements) in Hp;
    [| intros; apply sample_individual_keeps_log].
  pose proof (mapM_length _ _ _ _ _ He) as Le.
  apply mbo_evaluate_all_spec in He. destruct He as [_ L].
  apply py_min_key_inr in Hb. destruct Hb as (-> & Hin & Hmin).
  split; [simpl; congruence |]. exists evs. simpl.
  split; [rewrite L, Hp; reflexivity |].
  split; [apply incl_refl |]. split; [exact Hin |].
  intros Hn. split; [apply Hmin; exact Hn |].
  exists best. split; [exact Hin | apply Hmin; exact Hn].
Qed.

Lemma mbo_generations_step k w st' w' :
  generations (S k) w = (inr st', w') ->
  exists st w1,
    generations k w = (inr st, w1) /\
    MBO.generation rng http cluster ALPHA BETA disorder pop_size st k w1
      = (inr st', w').
Proof.
  unfold generations, MBO.generations. intros H.
  apply bind_inr in H. destruct H as (api & w0 & Hc & H).
  apply bind_inr in H. destruct H as (st0 & w1 & Hi & H).
  rewrite seq_S, foldM_app in H. simpl in H.
  apply bind_inr in H. destruct H as (st & w2 & Hf & H).
  apply bind_inr in H. destruct H as (st1 & w3 & Hg & H).
  apply ret_inr in H. destruct H as [-> ->].
  exists st, w2. split; [| exact Hg].
  erewrite bind_ok by exact Hc. erewrite bind_ok by exact Hi. exact Hf.
Qed.

Lemma mbo_generations_inv k w st w' :
  generations k w = (inr st, w') ->
  mbo_inv pop_size (measurements w) st w'.
Proof.
  revert st w'. induction k as [| k IH]; intros st w' H.
  - unfold generations, MBO.generations in H.
    apply bind_inr in H. destruct H as (api & w0 & Hc & H).
    apply bind_inr in H. destruct H as (st0 & w1 & Hi & H).
    simpl in H. apply ret_inr in H. destruct H as [-> ->].
    apply mbo_initialise_inv in Hi.
    replace (measurements w) with (measurements w0); [exact Hi |].
    unfold MBO.k8s_client in Hc.
    destruct incluster; [| destruct kubeconfig]; inversion Hc; reflexivity.
  - apply mbo_generations_step in H. destruct H as (st0 & w1 & H0 & H1).
    apply IH in H0.
    eapply proj1. eapply mbo_generation_inv; [exact H0 | exact H1].
Qed.
End MBO_run.

(** * Sample inputs *)

(** A raw stream that always yields [2^52], so that [random()] is [1/2]. *)
Definition rng_half : nat -> Z := fun _ => 4503599627370496%Z.

(** A raw stream with varied residues. *)
Definition rng_mix : nat -> Z :=
  fun n => (Z.of_nat n * 7919 * 1125899906842597 + 12345)%Z.

(** A metrics backend that is down, and one that answers with the call
    number as the only sample. *)
Definition http_down : nat -> MBO.query -> MBO.response :=
  fun _ _ => MBO.Raised.

Definition http_counter : nat -> MBO.query -> MBO.response :=
  fun n _ => MBO.Success (MBO.Items [Some (Fin (inject_Z (Z.of_nat n)))]).

(** A backend whose first answer reads [NaN] and which is down from then
    on; and one that first reports a build duration of [900], is down for
    the rest of the first evaluation, then reads [NaN] and stays down. *)
Definition http_nan_first : nat -> MBO.query -> MBO.response :=
  fun n _ => match n with
             | 0%nat => MBO.Success (MBO.Items [Some NaN])
             | _ => MBO.Raised
             end.

Definition http_nan_second : nat -> MBO.query -> MBO.response :=
  fun n _ => match n with
             | 0%nat => MBO.Success (MBO.Items [Some (Fin 900)])
             | 7%nat => MBO.Success (MBO.Items [Some NaN])
             | _ => MBO.Raised
             end.

Definition cluster_ok : nat -> bool := fun _ => true.

(** An interpreter whose sort leaves a list with a NaN key as it finds it,
    which is what CPython does when no key is [<] the key before it. *)
Definition no_disorder : list pyfloat -> list nat := fun _ => [].

(** No NaN among scores read off the trace. *)
Lemma no_nan_of_entries all :
  forallb (fun p => negb (is_nan (snd p))) (map entry all) = true ->
  no_nan MBO.score all.
Proof.
  intros H. apply Forall_forall. intros e He.
  rewrite forallb_forall in H.
  specialize (H (entry e) (in_map entry _ _ He)).
  unfold entry in H. simpl in H.
  destruct (is_nan (MBO.score e)); [discriminate H | reflexivity].
Qed.

(** * The claims *)

(** C1, as claimed, fails for local perturbation.  When the first
    build-duration sample of the run reads [NaN], the first score is NaN:
    [min] keeps it as [best], no later [<] holds against it, and
    [mbo_optimize] returns it although every other candidate of the run
    received a finite score.  The score returned is then not the lowest
    observed, and not even [best <= best] holds from one generation to the
    next. *)
Lemma mbo_returns_nan_best :
  exists best w' e,
    MBO.mbo_optimize rng_mix http_nan_first cluster_ok true true
                     (7 # 10) (3 # 10) no_disorder world0 = (inr best, w') /\
    length (patches w') = 104%nat /\
    http_calls w' = 934%nat /\
    MBO.score best = NaN /\
    In e (measurements w') /\
    is_nan (snd e) = false /\
    fl_leb (MBO.score best) (snd e) = false /\
    fl_leb (MBO.score best) (MBO.score best) = false.
Proof.
  do 3 eexists. split; [vm_compute; reflexivity |].
  split; [reflexivity |]. split; [reflexivity |].
  split; [reflexivity |].
  split; [right; left; reflexivity |].
  repeat split.
Qed.

(** C1, amended.  In differential evolution the least fitness entry (the
    value printed after each generation) never increases, and the pair
    returned carries the lowest score among all candidates scored during
    the run.  In local perturbation the score of the [best] tuple never
    increases from one generation to the next unless it is NaN, and the
    tuple returned was scored during the run and, provided no candidate of
    the run was scored NaN, no scored candidate beats it. *)
Theorem best_score_never_regresses_unless_nan
    rng bounds max_iter pop_size F CR
    http cluster incluster kubeconfig ALPHA BETA disorder
    mbo_pop_size mbo_iters w :
  (forall k pf' w',
      DE.generations rng bounds pop_size F CR (S k) w = (inr pf', w') ->
      exists pf w1 b b',
        DE.generations rng bounds pop_size F CR k w = (inr pf, w1) /\
        lowest (snd pf) b /\ lowest (snd pf') b' /\ b' <= b) /\
  (forall cfg s w',
      DE.differential_evolution rng bounds max_iter pop_size F CR w
        = (inr (cfg, s), w') ->
      exists new,
        objective_calls w' = objective_calls w ++ new /\
        In (cfg, s) new /\
        forall c' s', In (c', s') new -> s <= s') /\
  (forall k st' w',
      MBO.generations rng http cluster incluster kubeconfig ALPHA BETA
                      disorder mbo_pop_size (S k) w = (inr st', w') ->
      exists st w1,
        MBO.generations rng http cluster incluster kubeconfig ALPHA BETA
                        disorder mbo_pop_size k w = (inr st, w1) /\
        (is_nan (MBO.score (snd st)) = false ->
         fl_le (MBO.score (snd st')) (MBO.score (snd st)))) /\
  (forall best w',
      MBO.optimize rng http cluster incluster kubeconfig ALPHA BETA
                   disorder mbo_pop_size mbo_iters w = (inr best, w') ->
      exists all,
        measurements w' = measurements w ++ map entry all /\
        In best all /\
        (no_nan MBO.score all ->
         forall e, In e all -> fl_le (MBO.score best) (MBO.score e))).
Proof.
  split; [| split; [| split]].
  - intros k pf' w' H. apply de_generations_step in H.
    destruct H as (pf & w1 & H0 & H1). pose proof H0 as HI.
    apply de_generations_inv in HI. destruct HI as [HI _].
    destruct (de_generation_inv _ _ _ _ _ _ _ _ _ _ _ HI H1)
      as (_ & Him & b' & Hb' & _).
    assert (Hne : snd pf <> []).
    { destruct Him as [Hlen _]. destruct Hb' as [Hin _].
      intros E. rewrite E in Hlen. simpl in Hlen.
      apply length_zero_iff_nil in Hlen. rewrite Hlen in Hin. exact Hin. }
    destruct (lowest_exists _ Hne) as [b Hb].
    exists pf, w1, b, b'. split; [exact H0 |]. split; [exact Hb |].
    split; [exact Hb' |]. eapply improves_lowest; eauto.
  - intros cfg s w' H. unfold DE.differential_evolution in H.
    apply bind_inr in H. destruct H as (pf & w1 & H0 & H1).
    apply de_generations_inv in H0. destruct H0 as [HI _].
    destruct (de_report_spec _ _ _ _ _ _ _ HI H1) as (-> & _ & Hnew).
    exact Hnew.
  - intros k st' w' H. apply mbo_generations_step in H.
    destruct H as (st & w1 & H0 & H1). exists st, w1.
    split; [exact H0 |]. pose proof H0 as HI.
    apply mbo_generations_inv in HI.
    eapply proj2. eapply mbo_generation_inv; [exact HI | exact H1].
  - intros best w' H. unfold MBO.optimize in H.
    apply bind_inr in H. destruct H as (st & w1 & H0 & H1).
    apply ret_inr in H1. destruct H1 as [<- <-].
    apply mbo_generations_inv in H0.
    destruct H0 as (_ & all & L & _ & Hin & Hord).
    exists all. split; [exact L |]. split; [exact Hin |].
    intros Hn. apply Hord. exact Hn.
Qed.

Lemma best_score_never_regresses_unless_nan_witness :
  (exists pf' w' pf w1 b b',
      DE.generations rng_mix DE.bounds 5 (4 # 5) (7 # 10) 2 world0
        = (inr pf', w') /\
      DE.generations rng_mix DE.bounds 5 (4 # 5) (7 # 10) 1 world0
        = (inr pf, w1) /\
      lowest (snd pf) b /\ lowest (snd pf') b' /\ b' <= b) /\
  (exists best w' all,
      MBO.optimize rng_mix http_counter cluster_ok true true
                   (7 # 10) (3 # 10) no_disorder 2 2 world0
        = (inr best, w') /\
      measurements w' = measurements world0 ++ map entry all /\
      In best all /\
      no_nan MBO.score all /\
      forall e, In e all -> fl_le (MBO.score best) (MBO.score e)).
Proof.
  pose proof (best_score_never_regresses_unless_nan
                rng_mix DE.bounds 2 5 (4 # 5) (7 # 10)
                http_counter cluster_ok true true (7 # 10) (3 # 10)
                no_disorder 2 2 world0) as (H1 & _ & _ & H4).
  split.
  - destruct (DE.generations rng_mix DE.bounds 5 (4 # 5) (7 # 10) 2 world0)
      as [[e | pf'] w'] eqn:E.
    + vm_compute in E. discriminate E.
    + destruct (H1 1%nat pf' w' E) as (pf & w1 & b & b' & G).
      exists pf', w', pf, w1, b, b'. split; [reflexivity | exact G].
  - destruct (MBO.optimize rng_mix http_counter cluster_ok true true
                (7 # 10) (3 # 10) no_disorder 2 2 world0)
      as [[e | best] w'] eqn:E.
    + vm_compute in E. discriminate E.
    + destruct (H4 best w' eq_refl) as (all & L & Hin & Hmin).
      exists best, w', all. split; [reflexivity |].
      split; [exact L |]. split; [exact Hin |].
      assert (Hn : no_nan MBO.score all).
      { apply no_nan_of_entries. simpl in L. rewrite <- L.
        replace w' with (snd (MBO.optimize rng_mix http_counter cluster_ok
                                true true (7 # 10) (3 # 10) no_disorder
                                2 2 world0))
          by (rewrite E; reflexivity).
        vm_compute. reflexivity. }
      split; [exact Hn | exact (Hmin Hn)].
Defined.


(** A five-member population over the module's bounds, with a fitness list. *)
Definition sample_population : list (list Q) :=
  [ [1; 300; 2; 2]; [2; 400; 3; 3]; [1; 500; 4; 4]; [2; 600; 5; 5];
    [1; 700; 6; 1] ].



(** C3, as claimed, fails.  Start [mbo_optimize] against a backend that
    reports a build duration of [900] for the first candidate, [NaN] for the
    second and is down otherwise.  The initial population scores
    [0.77..., NaN, 0.27..., ...]; the eight offspring all score [0.27...].
    In the merged list no score is [<] the one before it, so the sort
    leaves it as it is and the first eight entries, the parents, are kept:
    the first of them scores strictly worse than every discarded
    offspring. *)
Lemma mbo_generation_keeps_a_worse_candidate :
  exists st0 w0 evaluated' best' w1 offspring kept discarded,
    MBO.generations rng_mix http_nan_second cluster_ok true true
                    (7 # 10) (3 # 10) no_disorder MBO.POP_SIZE 0 world0
      = (inr st0, w0) /\
    MBO.generation rng_mix http_nan_second cluster_ok (7 # 10) (3 # 10)
                   no_disorder MBO.POP_SIZE st0 0 w0
      = (inr (evaluated', best'), w1) /\
    measurements w1 = measurements w0 ++ map entry offspring /\
    evaluated'
    = firstn MBO.POP_SIZE
             (MBO.list_sort no_disorder MBO.score (fst st0 ++ offspring)) /\
    In kept evaluated' /\
    In discarded
       (skipn MBO.POP_SIZE
              (MBO.list_sort no_disorder MBO.score (fst st0 ++ offspring))) /\
    fl_ltb (MBO.score discarded) (MBO.score kept) = true /\
    fl_leb (MBO.score kept) (MBO.score discarded) = false.
Proof.
  destruct (MBO.generations rng_mix http_nan_second cluster_ok true true
              (7 # 10) (3 # 10) no_disorder MBO.POP_SIZE 0 world0)
    as [[e | [evaluated best]] w0] eqn:E0.
  { vm_compute in E0. discriminate E0. }
  destruct (mapM (fun e : MBO.scored => MBO.perturb rng_mix (fst (fst e)))
                 evaluated w0) as [[e | new_pop] wa] eqn:Ea.
  { exfalso. vm_compute in E0. injection E0 as <- <- <-.
    vm_compute in Ea. discriminate Ea. }
  destruct (mapM (MBO.evaluate http_nan_second cluster_ok (7 # 10) (3 # 10))
                 new_pop wa) as [[e | offspring] wb] eqn:Eb.
  { exfalso. vm_compute in E0. injection E0 as <- <- <-.
    vm_compute in Ea. injection Ea as <- <-.
    vm_compute in Eb. discriminate Eb. }
  exists (evaluated, best), w0. eexists _, _, _, offspring. do 2 eexists.
  vm_compute in E0. injection E0 as <- <- <-.
  vm_compute in Ea. injection Ea as <- <-.
  vm_compute in Eb. injection Eb as <- <-.
  split; [reflexivity |].
  split; [vm_compute; reflexivity |].
  split; [vm_compute; reflexivity |].
  split; [vm_compute; reflexivity |].
  split; [left; reflexivity |].
  split; [vm_compute; left; reflexivity |].
  split; vm_compute; reflexivity.
Qed.

(** C3, amended.  A generation of the local-perturbation loop scores one
    offspring per member, merges parents and offspring, sorts the merged
    list by score and keeps its first [pop_size] entries, which rearranges
    the merged list and nothing more.  Provided no parent and no offspring
    is scored NaN, the sorted list is ascending and no kept candidate
    scores worse than a discarded one. *)
Theorem mbo_generation_keeps_the_best_unless_nan
    rng http cluster ALPHA BETA disorder pop_size evaluated best it w
    evaluated' best' w' :
  MBO.generation rng http cluster ALPHA BETA disorder pop_size
                 (evaluated, best) it w
    = (inr (evaluated', best'), w') ->
  exists offspring,
    length offspring = length evaluated /\
    measurements w' = measurements w ++ map entry offspring /\
    let merged := evaluated ++ offspring in
    let sorted := MBO.list_sort disorder MBO.score merged in
    Permutation sorted merged /\
    evaluated' = firstn pop_size sorted /\
    (no_nan MBO.score merged ->
     StronglySorted (by_key MBO.score) sorted /\
     forall kept discarded,
       In kept evaluated' -> In discarded (skipn pop_size sorted) ->
       fl_le (MBO.score kept) (MBO.score discarded)).
Proof.
  intros H. apply mbo_generation_spec in H.
  destruct H as (offspring & top & Hlen & L & -> & _ & _).
  exists offspring. split; [exact Hlen |]. split; [exact L |].
  split; [apply list_sort_perm |]. split; [reflexivity |].
  intros Hn. split; [apply list_sort_sorted; exact Hn |].
  intros kept discarded Hk Hd.
  eapply sorted_prefix_le_suffix;
    [apply list_sort_sorted; exact Hn | exact Hk | exact Hd].
Qed.

(** Three scored candidates, the second doubling as [best]. *)
Definition sample_evaluated : list MBO.scored :=
  [ (MBO.mkInd 2 (3 # 10) 2, Fin (3 # 5),
     MBO.mkMetrics (Fin 300) (Fin (1 # 2)) (Fin 0));
    (MBO.mkInd 1 (1 # 5) 3, Fin (1 # 5),
     MBO.mkMetrics (Fin 100) (Fin (1 # 10)) (Fin 0));
    (MBO.mkInd 4 (2 # 5) 1, Fin (2 # 5),
     MBO.mkMetrics (Fin 200) (Fin (3 # 10)) (Fin 0)) ].

Definition sample_best : MBO.scored :=
  (MBO.mkInd 1 (1 # 5) 3, Fin (1 # 5),
   MBO.mkMetrics (Fin 100) (Fin (1 # 10)) (Fin 0)).

Lemma mbo_generation_keeps_the_best_unless_nan_witness :
  exists evaluated' best' w' offspring,
    MBO.generation rng_mix http_counter cluster_ok (7 # 10) (3 # 10)
                   no_disorder 3 (sample_evaluated, sample_best) 0 world0
      = (inr (evaluated', best'), w') /\
    length offspring = length sample_evaluated /\
    no_nan MBO.score (sample_evaluated ++ offspring) /\
    evaluated' =
      firstn 3 (MBO.list_sort no_disorder MBO.score
                              (sample_evaluated ++ offspring)) /\
    forall kept discarded,
      In kept evaluated' ->
      In discarded
         (skipn 3 (MBO.list_sort no_disorder MBO.score
                                 (sample_evaluated ++ offspring))) ->
      fl_le (MBO.score kept) (MBO.score discarded).
Proof.
  destruct (MBO.generation rng_mix http_counter cluster_ok (7 # 10) (3 # 10)
              no_disorder 3 (sample_evaluated, sample_best) 0 world0)
    as [[e | [evaluated' best']] w'] eqn:E.
  - vm_compute in E. discriminate E.
  - destruct (mbo_generation_keeps_the_best_unless_nan
                _ _ _ _ _ _ _ _ _ _ _ _ _ _ E)
      as (offspring & Hlen & L & _ & Heq & Hle).
    exists evaluated', best', w', offspring.
    split; [reflexivity |]. split; [exact Hlen |].
    assert (Hn : no_nan MBO.score (sample_evaluated ++ offspring)).
    { apply Forall_app. split; [repeat constructor |].
      apply no_nan_of_entries. simpl in L. rewrite <- L.
      replace w' with (snd (MBO.generation rng_mix http_counter cluster_ok
                              (7 # 10) (3 # 10) no_disorder 3
                              (sample_evaluated, sample_best) 0 world0))
        by (rewrite E; reflexivity).
      vm_compute. reflexivity. }
    split; [exact Hn |]. split; [exact Heq | apply Hle; exact Hn].
Defined.

(** C4.  In both modes the population has the configured size after
    initialisation ([k = 0]) and after every further generation; in
    differential evolution the fitness list has that size too. *)
Theorem population_size_invariant
    rng bounds pop_size F CR
    http cluster incluster kubeconfig ALPHA BETA disorder mbo_pop_size w k :
  (forall pf w',
      DE.generations rng bounds pop_size F CR k w = (inr pf, w') ->
      length (fst pf) = pop_size /\ length (snd pf) = pop_size) /\
  (forall st w',
      MBO.generations rng http cluster incluster kubeconfig ALPHA BETA
                      disorder mbo_pop_size k w = (inr st, w') ->
      length (fst st) = mbo_pop_size).
Proof.
  split.
  - intros pf w' H. apply de_generations_inv in H.
    destruct H as [(Hlen & new & _ & Hall & _) _].
    split; [exact Hlen |]. apply Forall2_length in Hall. congruence.
  - intros st w' H. apply mbo_generations_inv in H.
    destruct H as [Hlen _]. exact Hlen.
Qed.

Lemma population_size_invariant_witness :
  (exists pf w',
      DE.generations rng_mix DE.bounds 5 (4 # 5) (7 # 10) 2 world0
        = (inr pf, w') /\
      length (fst pf) = 5%nat /\ length (snd pf) = 5%nat) /\
  (exists st w',
      MBO.generations rng_mix http_counter cluster_ok true true
                      (7 # 10) (3 # 10) no_disorder 3 2 world0
        = (inr st, w') /\
      length (fst st) = 3%nat).
Proof.
  pose proof (population_size_invariant rng_mix DE.bounds 5 (4 # 5) (7 # 10)
                http_counter cluster_ok true true (7 # 10) (3 # 10)
                no_disorder 3 world0 2) as [H1 H2].
  split.
  - destruct (DE.generations rng_mix DE.bounds 5 (4 # 5) (7 # 10) 2 world0)
      as [[e | pf] w'] eqn:E.
    + vm_compute in E. discriminate E.
    + exists pf, w'. split; [reflexivity | exact (H1 pf w' eq_refl)].
  - destruct (MBO.generations rng_mix http_counter cluster_ok true true
                (7 # 10) (3 # 10) no_disorder 3 2 world0)
      as [[e | st] w'] eqn:E.
    + vm_compute in E. discriminate E.
    + exists st, w'. split; [reflexivity | exact (H2 st w' eq_refl)].
Defined.

(** * Normalisation, clamping and rounding *)

(** C8.  [normalize] is [0] on a degenerate range; on a proper range it maps
    [lo] to [0] and [hi] to [1]; and for [lo < hi] it is non-decreasing in
    its first argument, leaving [[0, 1]] when that argument leaves
    [[lo, hi]]. *)
Theorem normalize_spec (v lo hi : Q) :
  (lo == hi -> MBO.normalize v lo hi == 0) /\
  (~ lo == hi ->
     MBO.normalize lo lo hi == 0 /\ MBO.normalize hi lo hi == 1) /\
  (lo < hi ->
     (forall v', v <= v' -> MBO.normalize v lo hi <= MBO.normalize v' lo hi) /\
     (v < lo -> MBO.normalize v lo hi < 0) /\
     (hi < v -> 1 < MBO.normalize v lo hi)).
Proof.
  unfold MBO.normalize. split; [| split].
  - intros E. destruct (Qeq_bool hi lo) eqn:B; [reflexivity |].
    apply Qeq_bool_neq in B. exfalso. apply B. symmetry. exact E.
  - intros N. destruct (Qeq_bool hi lo) eqn:B.
    + apply Qeq_bool_eq in B. exfalso. apply N. symmetry. exact B.
    + apply Qeq_bool_neq in B. split; field; lra.
  - intros L. destruct (Qeq_bool hi lo) eqn:B.
    + apply Qeq_bool_eq in B. lra.
    + split; [| split].
      * intros v' Hv. apply Qle_shift_div_l; [lra |].
        setoid_replace ((v - lo) / (hi - lo) * (hi - lo)) with (v - lo);
          [lra | field; lra].
      * intros Hv. apply Qlt_shift_div_r; lra.
      * intros Hv. apply Qlt_shift_div_l; lra.
Qed.

Lemma normalize_spec_witness :
  MBO.normalize 300 50 50 == 0 /\
  (MBO.normalize 50 50 900 == 0 /\ MBO.normalize 900 50 900 == 1) /\
  MBO.normalize 300 50 900 <= MBO.normalize 1000 50 900 /\
  1 < MBO.normalize 1000 50 900.
Proof.
  split; [| split; [| split]].
  - apply (proj1 (normalize_spec 300 50 50)). reflexivity.
  - apply (proj1 (proj2 (normalize_spec 0 50 900))). intros C. discriminate C.
  - apply (proj1 (proj2 (proj2 (normalize_spec 300 50 900)) eq_refl)).
    intros C. discriminate C.
  - apply (proj2 (proj2 (proj2 (proj2 (normalize_spec 1000 50 900)) eq_refl))).
    reflexivity.
Defined.

Ltac cmp_cases :=
  unfold Qmin, Qmax, GenericMinMax.gmin, GenericMinMax.gmax;
  repeat (match goal with
          | |- context [Qcompare ?a ?b] =>
              is_var a; is_var b; destruct (Qcompare_spec a b)
          end; cbn iota);
  try reflexivity; try (exfalso; lra).

Lemma np_clip_idempotent x lo hi :
  np_clip (np_clip x lo hi) lo hi = np_clip x lo hi.
Proof. unfold np_clip. cmp_cases. Qed.

Lemma np_clip_bounds x lo hi : lo <= hi -> lo <= np_clip x lo hi <= hi.
Proof.
  intros H. unfold np_clip.
  unfold Qmin, Qmax, GenericMinMax.gmin, GenericMinMax.gmax.
  destruct (Qcompare_spec x lo); cbn iota.
  - destruct (Qcompare_spec x hi); lra.
  - destruct (Qcompare_spec lo hi); lra.
  - destruct (Qcompare_spec x hi); lra.
Qed.

Lemma np_clip_positive x lo hi : 0 < lo -> 0 < hi -> 0 < np_clip x lo hi.
Proof.
  intros Hl Hh. unfold np_clip.
  unfold Qmin, Qmax, GenericMinMax.gmin, GenericMinMax.gmax.
  destruct (Qcompare_spec x lo); cbn iota.
  - destruct (Qcompare_spec x hi); lra.
  - destruct (Qcompare_spec lo hi); lra.
  - destruct (Qcompare_spec x hi); lra.
Qed.

Lemma clampQ_idempotent b x : MBO.clampQ b (MBO.clampQ b x) = MBO.clampQ b x.
Proof.
  destruct b as [lo hi]. unfold MBO.clampQ. simpl. cmp_cases.
Qed.

Lemma clampQ_bounds b x :
  fst b <= snd b -> fst b <= MBO.clampQ b x <= snd b.
Proof.
  destruct b as [lo hi]. unfold MBO.clampQ. simpl. intros H.
  unfold Qmin, Qmax, GenericMinMax.gmin, GenericMinMax.gmax.
  destruct (Qcompare_spec hi x); cbn iota.
  - destruct (Qcompare_spec lo hi); lra.
  - destruct (Qcompare_spec lo hi); lra.
  - destruct (Qcompare_spec lo x); lra.
Qed.

(** The vector that the loop of lines 46-47 computes. *)
Fixpoint clip_all (v : list Q) (bounds : list (Q * Q)) : list Q :=
  match v, bounds with
  | x :: v', b :: bounds' => np_clip x (fst b) (snd b) :: clip_all v' bounds'
  | _, _ => v
  end.

Definition clamp_body (bounds : list (Q * Q)) (mutant : list Q) (j : nat)
    : M (list Q) :=
  m <- index mutant j ;;
  b <- index bounds j ;;
  store mutant j (np_clip m (fst b) (snd b)).

(** Post-composition with a pure function. *)
Definition fmap {A B} (f : A -> B) (m : M A) : M B :=
  fun w => match m w with
           | (inr a, w') => (inr (f a), w')
           | (inl e, w') => (inl e, w')
           end.

Lemma clamp_body_shift b bounds a v j w :
  clamp_body (b :: bounds) (a :: v) (S j) w
  = fmap (cons a) (clamp_body bounds v j) w.
Proof.
  unfold clamp_body, fmap, bind, index, store. simpl.
  destruct (nth_error v j) as [x |]; [| reflexivity]. simpl.
  destruct (nth_error bounds j) as [c |]; [| reflexivity]. simpl.
  change (S j <? S (length v))%nat with (j <? length v)%nat.
  destruct (j <? length v)%nat; reflexivity.
Qed.

Lemma clamp_loop_shift b bounds a n :
  forall k v w,
    foldM (clamp_body (b :: bounds)) (seq (S k) n) (a :: v) w
    = fmap (cons a) (foldM (clamp_body bounds) (seq k n) v) w.
Proof.
  induction n as [| n IH]; intros k v w; simpl.
  - reflexivity.
  - unfold bind at 1. rewrite clamp_body_shift. unfold fmap at 1 2.
    unfold bind.
    destruct (clamp_body bounds v k w) as [[e | v1] w1]; [reflexivity |].
    rewrite IH. reflexivity.
Qed.

Lemma clamp_loop_computes bounds :
  forall v w, length v = length bounds ->
              foldM (clamp_body bounds) (seq 0 (length bounds)) v w
              = (inr (clip_all v bounds), w).
Proof.
  induction bounds as [| b bounds IH]; intros v w Hlen.
  - destruct v; [reflexivity | discriminate].
  - destruct v as [| a v]; [discriminate |]. simpl in Hlen.
    injection Hlen as Hlen.
    change (seq 0 (length (b :: bounds)))
      with (0%nat :: seq 1 (length bounds)).
    change (foldM (clamp_body (b :: bounds)) (0%nat :: seq 1 (length bounds))
                  (a :: v) w)
      with (foldM (clamp_body (b :: bounds)) (seq 1 (length bounds))
                  (np_clip a (fst b) (snd b) :: v) w).
    rewrite clamp_loop_shift. unfold fmap.
    rewrite (IH v w Hlen). reflexivity.
Qed.

Lemma clamp_computes bounds v w :
  length v = length bounds ->
  DE.clamp bounds v w = (inr (clip_all v bounds), w).
Proof. exact (clamp_loop_computes bounds v w). Qed.

Lemma clip_all_length v bounds : length (clip_all v bounds) = length v.
Proof.
  revert bounds. induction v as [| x v IH]; intros [| b bounds]; simpl; auto.
Qed.

Lemma clip_all_idempotent v bounds :
  clip_all (clip_all v bounds) bounds = clip_all v bounds.
Proof.
  revert bounds. induction v as [| x v IH]; intros [| b bounds]; simpl; auto.
  rewrite np_clip_idempotent, IH. reflexivity.
Qed.

(** ** Rounding *)

Lemma Qfloor_unique (x : Q) (n : Z) :
  inject_Z n <= x -> x < inject_Z (n + 1) -> Qfloor x = n.
Proof.
  intros Hlo Hhi.
  assert (H1 : (n <= Qfloor x)%Z).
  { rewrite <- (Qfloor_Z n). apply Qfloor_resp_le. exact Hlo. }
  assert (H2 : (Qfloor x < n + 1)%Z).
  { rewrite Zlt_Qlt. eapply Qle_lt_trans; [apply Qfloor_le | exact Hhi]. }
  lia.
Qed.

Lemma py_round_integer (n : Z) : py_round (inject_Z n) = n.
Proof.
  unfold py_round. rewrite Qfloor_Z.
  destruct (Qcompare_spec (inject_Z n - inject_Z n) (1 # 2));
    [exfalso; lra | reflexivity | exfalso; lra].
Qed.

Lemma py_round_nearest (x : Q) :
  x - (1 # 2) <= inject_Z (py_round x) <= x + (1 # 2).
Proof.
  unfold py_round.
  pose proof (Qfloor_le x) as Hlo. pose proof (Qlt_floor x) as Hhi.
  rewrite inject_Z_plus in Hhi. change (inject_Z 1) with 1 in Hhi.
  destruct (Qcompare_spec (x - inject_Z (Qfloor x)) (1 # 2)) as [E | E | E].
  - destruct (Z.even (Qfloor x)).
    + lra.
    + rewrite inject_Z_plus. change (inject_Z 1) with 1. lra.
  - lra.
  - rewrite inject_Z_plus. change (inject_Z 1) with 1. lra.
Qed.

Lemma py_round_tie (x : Q) (n : Z) :
  x == inject_Z n + (1 # 2) ->
  py_round x = (if Z.even n then n else n + 1)%Z /\
  Z.even (py_round x) = true.
Proof.
  intros E. unfold py_round.
  assert (F : Qfloor x = n).
  { apply Qfloor_unique.
    - lra.
    - rewrite inject_Z_plus. change (inject_Z 1) with 1. lra. }
  rewrite F.
  destruct (Qcompare_spec (x - inject_Z n) (1 # 2));
    [| exfalso; lra | exfalso; lra].
  destruct (Z.even n) eqn:Ev; split; auto.
  replace (n + 1)%Z with (Z.succ n) by lia.
  rewrite Z.even_succ. rewrite <- Z.negb_even, Ev. reflexivity.
Qed.

Lemma round_integer_parameters_spec trial w trial' w' :
  DE.round_integer_parameters trial w = (inr trial', w') ->
  w' = w /\
  exists t2 t3,
    nth_error trial 2 = Some t2 /\ nth_error trial 3 = Some t3 /\
    trial' = update (update trial 2 (inject_Z (py_round t2))) 3
                    (inject_Z (py_round t3)).
Proof.
  unfold DE.round_integer_parameters. intros H.
  apply bind_inr in H. destruct H as (t2 & w1 & H2 & H).
  apply index_inr in H2. destruct H2 as [H2 ->].
  apply bind_inr in H. destruct H as (trial1 & w2 & H1 & H).
  apply store_inr in H1. destruct H1 as (L1 & -> & ->).
  apply bind_inr in H. destruct H as (t3 & w3 & H3 & H).
  apply index_inr in H3. destruct H3 as [H3 ->].
  apply store_inr in H. destruct H as (L3 & -> & ->).
  split; [reflexivity |]. exists t2, t3.
  rewrite nth_error_update_neq in H3 by lia. auto.
Qed.

(** C10.  The integer dimensions of the trial (indices 2 and 3) are rounded
    half-to-even: a value exactly midway between [n] and [n + 1] becomes
    whichever of the two is even, so [2.5] becomes [2] (and [3.5] becomes
    [4]); in every case the result is a nearest integer. *)
Theorem de_rounds_half_to_even trial w trial' w' j x :
  DE.round_integer_parameters trial w = (inr trial', w') ->
  (j = 2 \/ j = 3)%nat ->
  nth_error trial j = Some x ->
  nth_error trial' j = Some (inject_Z (py_round x)) /\
  x - (1 # 2) <= inject_Z (py_round x) <= x + (1 # 2) /\
  (forall n, x == inject_Z n + (1 # 2) ->
             py_round x = (if Z.even n then n else n + 1)%Z /\
             Z.even (py_round x) = true) /\
  py_round (5 # 2) = 2%Z /\ py_round (7 # 2) = 4%Z.
Proof.
  intros H Hj Hx. apply round_integer_parameters_spec in H.
  destruct H as (_ & t2 & t3 & H2 & H3 & ->).
  split; [| split; [apply py_round_nearest |
                    split; [intros n; apply py_round_tie |
                            split; reflexivity]]].
  assert (L : (3 < length trial)%nat)
    by (apply nth_error_Some; congruence).
  destruct Hj as [-> | ->].
  - rewrite nth_error_update_neq by lia.
    rewrite nth_error_update_eq by lia. congruence.
  - rewrite nth_error_update_eq by (rewrite length_update; lia). congruence.
Qed.

Lemma de_rounds_half_to_even_witness :
  exists trial',
    DE.round_integer_parameters [1; 300; 5 # 2; 7 # 2] world0
      = (inr trial', world0) /\
    nth_error trial' 2 = Some (inject_Z (py_round (5 # 2))) /\
    py_round (5 # 2) = 2%Z /\ Z.even (py_round (5 # 2)) = true.
Proof.
  exists [1; 300; inject_Z 2; inject_Z 4].
  split; [reflexivity |].
  destruct (de_rounds_half_to_even [1; 300; 5 # 2; 7 # 2] world0
              [1; 300; inject_Z 2; inject_Z 4] world0 2 (5 # 2)
              eq_refl (or_introl eq_refl) eq_refl)
    as (H1 & _ & H3 & H4 & _).
  split; [exact H1 |]. split; [exact H4 |].
  exact (proj2 (H3 2%Z eq_refl)).
Defined.

Lemma update_same {A} (l : list A) i x :
  nth_error l i = Some x -> update l i x = l.
Proof.
  revert i. induction l as [| y t IH]; intros [| i]; simpl; intros H;
    try discriminate.
  - congruence.
  - rewrite IH by exact H. reflexivity.
Qed.

Lemma round_computes trial t2 t3 w :
  nth_error trial 2 = Some t2 -> nth_error trial 3 = Some t3 ->
  DE.round_integer_parameters trial w
  = (inr (update (update trial 2 (inject_Z (py_round t2))) 3
                 (inject_Z (py_round t3))), w).
Proof.
  intros H2 H3. unfold DE.round_integer_parameters.
  assert (L : (3 < length trial)%nat) by (apply nth_error_Some; congruence).
  rewrite (bind_ok _ _ _ _ _ (index_ok _ _ _ w H2)).
  rewrite (bind_ok _ _ _ _ _ (store_ok trial 2 _ w ltac:(lia))).
  erewrite bind_ok
    by (apply index_ok; rewrite nth_error_update_neq by lia; exact H3).
  apply store_ok. rewrite length_update. lia.
Qed.

(** C9.  Clamping is total on vectors of the search space's dimension and
    idempotent: the loop of lines 46-47 returns, and run again on its own
    result returns that result; the [max]/[min] clamps of the local
    perturbation are idempotent too, and so is the rounding of the integer
    dimensions (lines 57-59), fractional inputs included.  With [lo <= hi]
    the clamped values lie within the bounds. *)
Theorem clamp_total_idempotent :
  (forall bounds v w,
      length v = length bounds ->
      exists v',
        DE.clamp bounds v w = (inr v', w) /\
        DE.clamp bounds v' w = (inr v', w) /\
        length v' = length v) /\
  (forall trial w,
      (4 <= length trial)%nat ->
      exists trial',
        DE.round_integer_parameters trial w = (inr trial', w) /\
        DE.round_integer_parameters trial' w = (inr trial', w)) /\
  (forall b x, MBO.clampQ b (MBO.clampQ b x) = MBO.clampQ b x) /\
  (forall b x, MBO.clampZ b (MBO.clampZ b x) = MBO.clampZ b x) /\
  (forall x lo hi, lo <= hi -> lo <= np_clip x lo hi <= hi) /\
  (forall b x, fst b <= snd b -> fst b <= MBO.clampQ b x <= snd b) /\
  (forall b x, (fst b <= snd b -> fst b <= MBO.clampZ b x <= snd b)%Z).
Proof.
  split; [| split; [| split; [| split; [| split; [| split]]]]].
  - intros bounds v w Hlen. exists (clip_all v bounds).
    split; [apply clamp_computes; exact Hlen |]. split.
    + rewrite clamp_computes by (rewrite clip_all_length; exact Hlen).
      rewrite clip_all_idempotent. reflexivity.
    + apply clip_all_length.
  - intros trial w Hlen.
    destruct (nth_error trial 2) as [t2 |] eqn:E2;
      [| apply nth_error_None in E2; lia].
    destruct (nth_error trial 3) as [t3 |] eqn:E3;
      [| apply nth_error_None in E3; lia].
    set (trial' := update (update trial 2 (inject_Z (py_round t2))) 3
                          (inject_Z (py_round t3))).
    assert (H2 : nth_error trial' 2 = Some (inject_Z (py_round t2))).
    { unfold trial'. rewrite nth_error_update_neq by lia.
      apply nth_error_update_eq. lia. }
    assert (H3 : nth_error trial' 3 = Some (inject_Z (py_round t3))).
    { unfold trial'. apply nth_error_update_eq. rewrite length_update. lia. }
    exists trial'. split; [apply round_computes; assumption |].
    rewrite (round_computes trial' _ _ w H2 H3), !py_round_integer.
    rewrite (update_same trial' 2 _ H2), (update_same trial' 3 _ H3).
    reflexivity.
  - apply clampQ_idempotent.
  - intros [lo hi] x. unfold MBO.clampZ. simpl. lia.
  - apply np_clip_bounds.
  - apply clampQ_bounds.
  - intros [lo hi] x. unfold MBO.clampZ. simpl. lia.
Qed.

Lemma clamp_total_idempotent_witness :
  (exists v',
      DE.clamp DE.bounds [5; 100; 7 # 2; -3] world0 = (inr v', world0) /\
      DE.clamp DE.bounds v' world0 = (inr v', world0) /\
      length v' = 4%nat) /\
  (1 # 10) <= np_clip 5 (1 # 10) 2 <= 2.
Proof.
  split.
  - apply (proj1 clamp_total_idempotent DE.bounds [5; 100; 7 # 2; -3] world0).
    reflexivity.
  - apply (proj1 (proj2 (proj2 (proj2 (proj2 clamp_total_idempotent))))).
    intros C. discriminate C.
Defined.

(** * Runs that are guaranteed to return *)

(** [m] returns from every world, with a result satisfying [P]. *)
Definition succeeds {A} (m : M A) (P : A -> Prop) : Prop :=
  forall w, exists a w', m w = (inr a, w') /\ P a.

Lemma succeeds_ret {A} (a : A) (P : A -> Prop) : P a -> succeeds (ret a) P.
Proof. intros H w. exists a, w. split; [reflexivity | exact H]. Qed.

Lemma succeeds_bind {A B} (m : M A) (k : A -> M B) (P : A -> Prop)
    (Q : B -> Prop) :
  succeeds m P -> (forall a, P a -> succeeds (k a) Q) -> succeeds (bind m k) Q.
Proof.
  intros Hm Hk w. destruct (Hm w) as (a & w1 & E & Ha).
  destruct (Hk a Ha w1) as (b & w2 & E' & Hb).
  exists b, w2. split; [| exact Hb]. rewrite (bind_ok _ _ _ _ _ E). exact E'.
Qed.

Lemma succeeds_weaken {A} (m : M A) (P Q : A -> Prop) :
  succeeds m P -> (forall a, P a -> Q a) -> succeeds m Q.
Proof.
  intros Hm HPQ w. destruct (Hm w) as (a & w1 & E & Ha).
  exists a, w1. split; [exact E | apply HPQ; exact Ha].
Qed.

Lemma succeeds_mapM {A B} (f : A -> M B) (P : A -> B -> Prop) (l : list A) :
  (forall x, In x l -> succeeds (f x) (P x)) ->
  succeeds (mapM f l) (Forall2 P l).
Proof.
  induction l as [| x t IH]; intros Hf; simpl.
  - apply succeeds_ret. constructor.
  - eapply succeeds_bind; [apply Hf; left; reflexivity |]. intros y Hy.
    eapply succeeds_bind.
    + apply IH. intros z Hz. apply Hf. right; exact Hz.
    + intros ys Hys. apply succeeds_ret. constructor; assumption.
Qed.

Lemma succeeds_foldM {A B} (body : B -> A -> M B) (I : B -> Prop)
    (l : list A) :
  (forall acc x, In x l -> I acc -> succeeds (body acc x) I) ->
  forall acc, I acc -> succeeds (foldM body l acc) I.
Proof.
  induction l as [| x t IH]; intros Hb acc HI; simpl.
  - apply succeeds_ret. exact HI.
  - eapply succeeds_bind; [apply Hb; [left; reflexivity | exact HI] |].
    intros acc' HI'. apply IH; [| exact HI'].
    intros a y Hy. apply Hb. right; exact Hy.
Qed.

Lemma succeeds_index {A} (l : list A) i x :
  nth_error l i = Some x -> succeeds (index l i) (eq x).
Proof.
  intros H w. exists x, w. split; [apply index_ok; exact H | reflexivity].
Qed.

Lemma succeeds_store {A} (l : list A) i x :
  (i < length l)%nat -> succeeds (store l i x) (eq (update l i x)).
Proof.
  intros H w. exists (update l i x), w.
  split; [apply store_ok; exact H | reflexivity].
Qed.

Section Random_total.
Variable rng : nat -> Z.

Lemma succeeds_next_raw : succeeds (next_raw rng) (fun _ => True).
Proof. intros w. eexists _, _. split; [reflexivity | exact I]. Qed.

Lemma succeeds_random :
  succeeds (random rng) (fun u => 0 <= u /\ u < 1).
Proof.
  eapply succeeds_bind; [apply succeeds_next_raw |]. intros r _.
  apply succeeds_ret.
  pose proof (Z.mod_pos_bound r 9007199254740992 eq_refl) as [H0 H1].
  unfold Qle, Qlt. simpl. lia.
Qed.

Lemma succeeds_randbelow n :
  (0 < n)%nat -> succeeds (randbelow rng n) (fun k => (k < n)%nat).
Proof.
  intros Hn. eapply succeeds_bind; [apply succeeds_next_raw |]. intros r _.
  apply succeeds_ret.
  pose proof (Z.mod_pos_bound r (Z.of_nat n)) as H. lia.
Qed.

(** [uniform] returns a convex combination of its two arguments. *)
Lemma succeeds_uniform a b :
  succeeds (uniform rng a b)
           (fun x => exists u, 0 <= u /\ u < 1 /\ x = a + (b - a) * u).
Proof.
  eapply succeeds_bind; [apply succeeds_random |]. intros u [H0 H1].
  apply succeeds_ret. exists u. auto.
Qed.

Lemma succeeds_randint a b :
  (a <= b)%Z -> succeeds (randint rng a b) (fun k => (a <= k <= b)%Z).
Proof.
  intros H. unfold randint.
  destruct (Z.ltb_spec b a) as [C | _]; [lia |].
  eapply succeeds_bind; [apply succeeds_randbelow; lia |]. intros k Hk.
  apply succeeds_ret. cbv beta in Hk. lia.
Qed.

Lemma succeeds_choice {A} (l : list A) :
  l <> [] -> succeeds (choice rng l) (fun x => In x l).
Proof.
  intros H. unfold choice. destruct l as [| a t]; [congruence |].
  eapply succeeds_bind; [apply succeeds_randbelow; simpl; lia |].
  intros k Hk. cbv beta in Hk.
  destruct (nth_error (a :: t) k) as [x |] eqn:E.
  - eapply succeeds_weaken; [apply succeeds_index; exact E |].
    intros y <-. eapply nth_error_In; eauto.
  - apply nth_error_None in E. lia.
Qed.

Lemma remove_at_In {A} (l : list A) p x : In x (remove_at p l) -> In x l.
Proof.
  revert p. induction l as [| y t IH]; intros [| p]; simpl; auto.
  intros [H | H]; [left; exact H | right; eapply IH; eauto].
Qed.

Lemma remove_at_length {A} (l : list A) p :
  (p < length l)%nat -> length (remove_at p l) = (length l - 1)%nat.
Proof.
  revert p. induction l as [| y t IH]; intros [| p]; simpl; intros H;
    try lia.
  rewrite IH by lia. lia.
Qed.

Lemma succeeds_pick {A} (pool : list A) :
  pool <> [] ->
  succeeds (pick rng pool)
           (fun r => In (fst r) pool /\
                     (forall x, In x (snd r) -> In x pool) /\
                     length (snd r) = (length pool - 1)%nat).
Proof.
  intros H. unfold pick.
  eapply succeeds_bind;
    [apply succeeds_randbelow; destruct pool; simpl; [congruence | lia] |].
  intros p Hp. cbv beta in Hp.
  destruct (nth_error pool p) as [x |] eqn:E.
  - apply succeeds_ret. simpl. split; [eapply nth_error_In; eauto |].
    split; [intros y; apply remove_at_In | apply remove_at_length; exact Hp].
  - apply nth_error_None in E. lia.
Qed.

Lemma succeeds_sample3 {A} (pool : list A) :
  (3 <= length pool)%nat ->
  succeeds (sample3 rng pool)
           (fun r => let '(a, b, c) := r in
                     In a pool /\ In b pool /\ In c pool).
Proof.
  intros H. unfold sample3.
  destruct (Nat.ltb_spec (length pool) 3) as [C | _]; [lia |].
  eapply succeeds_bind;
    [apply succeeds_pick; destruct pool; simpl in *; [lia | congruence] |].
  intros [a r1] (Ha & Hr1 & L1). simpl in *.
  eapply succeeds_bind;
    [apply succeeds_pick; destruct r1; simpl in *; [lia | congruence] |].
  intros [b r2] (Hb & Hr2 & L2). simpl in *.
  eapply succeeds_bind;
    [apply succeeds_pick; destruct r2; simpl in *; [lia | congruence] |].
  intros [c r3] (Hc & _ & _). simpl in *.
  apply succeeds_ret. auto.
Qed.
End Random_total.

(** * Local perturbation while the metrics backend is down *)

(** The metrics reported when every query gives up. *)
Definition default_metrics : MBO.metrics :=
  MBO.mkMetrics (Fin 300) (Fin (1 # 2)) (Fin 0).

Section MBO_outage.
Variable rng : nat -> Z.
Variable http : nat -> MBO.query -> MBO.response.
Variable cluster : nat -> bool.
Variables incluster kubeconfig : bool.
Variables ALPHA BETA : Q.
Variable disorder : list pyfloat -> list nat.

Hypothesis http_fails :
  forall n q, http n q = MBO.Raised \/ http n q = MBO.NotSuccess.
Hypothesis cluster_accepts : forall n, cluster n = true.










Lemma succeeds_sample_individual :
  succeeds (MBO.sample_individual rng) (fun _ => True).
Proof.
  unfold MBO.sample_individual.
  eapply succeeds_bind;
    [apply succeeds_randint; simpl; lia |]. intros r _.
  eapply succeeds_bind; [apply succeeds_uniform |]. intros c _.
  eapply succeeds_bind;
    [apply succeeds_randint; simpl; lia |]. intros k _.
  apply succeeds_ret. exact I.
Qed.

Lemma succeeds_perturb ind : succeeds (MBO.perturb rng ind) (fun _ => True).
Proof.
  unfold MBO.perturb.
  eapply succeeds_bind; [apply succeeds_choice; discriminate |]. intros d _.
  eapply succeeds_bind; [apply succeeds_uniform |]. intros u _.
  eapply succeeds_bind; [apply succeeds_choice; discriminate |]. intros d' _.
  apply succeeds_ret. exact I.
Qed.

Section Loop.
Variable pop_size : nat.
Hypothesis pop_size_positive : (1 <= pop_size)%nat.





End Loop.
End MBO_outage.



(** * Differential evolution: when the run returns and when it does not *)

(** A candidate that [evaluate_cicd] can score: four values, positive CPU. *)
Definition scorable (ind : list Q) : Prop :=
  length ind = 4%nat /\ exists c, nth_error ind 0 = Some c /\ 0 < c.

Lemma scorable_evaluates ind :
  scorable ind -> exists s, DE.evaluate_cicd ind = inr s.
Proof.
  intros [Hlen (c & Hc & Hpos)].
  destruct ind as [| x0 [| x1 [| x2 [| x3 [| x4 t]]]]]; try discriminate.
  simpl in Hc. inversion Hc; subst. unfold DE.evaluate_cicd.
  destruct (Qeq_bool c 0) eqn:E.
  - apply Qeq_bool_eq in E. lra.
  - eexists. reflexivity.
Qed.

Lemma succeeds_call_evaluate ind :
  scorable ind -> succeeds (DE.call_evaluate ind) (fun _ => True).
Proof.
  intros H w. destruct (scorable_evaluates ind H) as [s E].
  unfold DE.call_evaluate. rewrite E. eexists _, _.
  split; [reflexivity | exact I].
Qed.

Lemma Forall_update {A} (P : A -> Prop) (l : list A) i x :
  Forall P l -> P x -> Forall P (update l i x).
Proof.
  intros H Hx. revert i. induction H as [| y t Hy Ht IH]; intros [| i];
    simpl; constructor; auto.
Qed.

Lemma remove_first_spec x l :
  In x l ->
  exists l', remove_first x l = Some l' /\
             length l' = (length l - 1)%nat /\
             forall y, In y l' -> In y l.
Proof.
  induction l as [| z t IH]; intros H; [destruct H |]. simpl.
  destruct (Nat.eqb_spec x z) as [-> | Hne].
  - exists t. split; [reflexivity |]. split; [simpl; lia |].
    intros y Hy. right; exact Hy.
  - destruct H as [H | H]; [congruence |].
    destruct (IH H) as (t' & E & L & Hin). rewrite E.
    exists (z :: t'). split; [reflexivity |]. split.
    + simpl. destruct t; [destruct H | simpl in *; lia].
    + intros y [<- | Hy]; [left; reflexivity | right; apply Hin; exact Hy].
Qed.

(** Four values read off positions 0 to 3, the first of them positive. *)
Lemma four_values (P : nat -> Q -> Prop) (ind : list Q) :
  Forall2 P (seq 0 4) ind ->
  (forall x, P 0%nat x -> 0 < x) -> scorable ind.
Proof.
  intros H Hpos. simpl in H.
  inversion H as [| i0 x0 s0 t0 H0 T0]; subst.
  inversion T0 as [| i1 x1 s1 t1 H1 T1]; subst.
  inversion T1 as [| i2 x2 s2 t2 H2 T2]; subst.
  inversion T2 as [| i3 x3 s3 t3 H3 T3]; subst.
  inversion T3; subst.
  split; [reflexivity |]. exists x0. split; [reflexivity | auto].
Qed.

Section DE_total.
Variable rng : nat -> Z.
Variable bounds : list (Q * Q).
Variable pop_size : nat.
Variables F CR : Q.
Variables lo hi : Q.

Hypothesis four_dimensions : length bounds = 4%nat.
Hypothesis cpu_bounds : nth_error bounds 0 = Some (lo, hi).
Hypothesis lo_positive : 0 < lo.
Hypothesis hi_positive : 0 < hi.

Definition well_formed (pf : list (list Q) * list Q) : Prop :=
  length (fst pf) = pop_size /\ length (snd pf) = pop_size /\
  Forall scorable (fst pf).

Lemma succeeds_sample_vector :
  succeeds (mapM (fun i => b <- index bounds i ;;
                           uniform rng (fst b) (snd b))
                 (seq 0 (length bounds)))
           scorable.
Proof.
  rewrite four_dimensions.
  eapply succeeds_weaken.
  - apply (succeeds_mapM _ (fun i x => i = 0%nat -> 0 < x)).
    intros i Hi. apply in_seq in Hi.
    destruct (nth_error bounds i) as [b |] eqn:E;
      [| apply nth_error_None in E; lia].
    eapply succeeds_bind; [apply succeeds_index; exact E |].
    intros b' <-. eapply succeeds_weaken; [apply succeeds_uniform |].
    intros x (u & H0 & H1 & ->) ->.
    rewrite cpu_bounds in E. inversion E; subst. simpl. nra.
  - intros ind H. eapply four_values; [exact H |]. auto.
Qed.

Lemma succeeds_init_population :
  succeeds (DE.init_population rng bounds pop_size) (Forall scorable).
Proof.
  unfold DE.init_population. apply succeeds_foldM; [| constructor].
  intros acc x _ Hacc.
  eapply succeeds_bind; [apply succeeds_sample_vector |].
  intros ind Hind. apply succeeds_ret.
  apply Forall_app. split; [exact Hacc | constructor; [exact Hind | constructor]].
Qed.

Lemma initialise_returns w :
  exists pf w',
    DE.initialise rng bounds pop_size w = (inr pf, w') /\ well_formed pf.
Proof.
  unfold DE.initialise.
  destruct (succeeds_init_population w) as (pop & w1 & E1 & Hpop).
  pose proof (init_population_length _ _ _ _ _ _ E1) as L1.
  destruct (succeeds_mapM DE.call_evaluate (fun _ _ => True) pop
              (fun ind Hin =>
                 succeeds_call_evaluate ind
                   (proj1 (Forall_forall scorable pop) Hpop ind Hin)) w1)
    as (fit & w2 & E2 & _).
  pose proof (mapM_length _ _ _ _ _ E2) as L2.
  exists (pop, fit), w2. split.
  - rewrite (bind_ok _ _ _ _ _ E1), (bind_ok _ _ _ _ _ E2). reflexivity.
  - split; [exact L1 |]. split; [simpl; congruence | exact Hpop].
Qed.

Lemma succeeds_mutate x1 x2 x3 :
  length x1 = 4%nat -> length x2 = 4%nat -> length x3 = 4%nat ->
  succeeds (DE.mutate bounds F x1 x2 x3) (fun m => length m = 4%nat).
Proof.
  intros L1 L2 L3. unfold DE.mutate. rewrite four_dimensions.
  eapply succeeds_weaken.
  - apply (succeeds_mapM _ (fun _ _ => True)).
    intros j Hj. apply in_seq in Hj.
    destruct (nth_error x1 j) as [v1 |] eqn:E1;
      [| apply nth_error_None in E1; lia].
    destruct (nth_error x2 j) as [v2 |] eqn:E2;
      [| apply nth_error_None in E2; lia].
    destruct (nth_error x3 j) as [v3 |] eqn:E3;
      [| apply nth_error_None in E3; lia].
    eapply succeeds_bind; [apply succeeds_index; exact E1 |]. intros ? _.
    eapply succeeds_bind; [apply succeeds_index; exact E2 |]. intros ? _.
    eapply succeeds_bind; [apply succeeds_index; exact E3 |]. intros ? _.
    apply succeeds_ret. exact I.
  - intros m H. apply Forall2_length in H. simpl in H. congruence.
Qed.

Lemma succeeds_clamp mutant :
  length mutant = 4%nat -> succeeds (DE.clamp bounds mutant) scorable.
Proof.
  intros L w. exists (clip_all mutant bounds), w.
  split; [apply clamp_computes; congruence |].
  split; [rewrite clip_all_length; exact L |].
  destruct mutant as [| m0 t]; [discriminate |].
  destruct bounds as [| b0 bs]; [discriminate |].
  simpl in cpu_bounds. inversion cpu_bounds; subst. simpl.
  eexists. split; [reflexivity |]. apply np_clip_positive; assumption.
Qed.

Lemma succeeds_crossover population i mutant xi :
  nth_error population i = Some xi -> scorable xi -> scorable mutant ->
  succeeds (DE.crossover rng bounds CR population i mutant) scorable.
Proof.
  intros Hi [Lx (cx & Hcx & Px)] [Lm (cm & Hcm & Pm)].
  unfold DE.crossover. rewrite four_dimensions.
  eapply succeeds_bind; [apply succeeds_randint; simpl; lia |].
  intros R _. eapply succeeds_weaken.
  - apply (succeeds_mapM _ (fun j x => j = 0%nat -> 0 < x)).
    intros j Hj. apply in_seq in Hj.
    destruct (nth_error mutant j) as [mj |] eqn:Em;
      [| apply nth_error_None in Em; lia].
    destruct (nth_error xi j) as [xj |] eqn:Ex;
      [| apply nth_error_None in Ex; lia].
    eapply succeeds_bind; [apply succeeds_random |]. intros u _.
    destruct (Qltb u CR || (Z.of_nat j =? R)%Z).
    + eapply succeeds_weaken; [apply succeeds_index; exact Em |].
      intros y <- ->. congruence.
    + eapply succeeds_bind; [apply succeeds_index; exact Hi |]. intros ? <-.
      eapply succeeds_weaken; [apply succeeds_index; exact Ex |].
      intros y <- ->. congruence.
  - intros trial H. eapply four_values; [exact H |]. auto.
Qed.

Lemma succeeds_round trial :
  scorable trial -> succeeds (DE.round_integer_parameters trial) scorable.
Proof.
  intros [L (c & Hc & Pc)]. unfold DE.round_integer_parameters.
  destruct (nth_error trial 2) as [t2 |] eqn:E2;
    [| apply nth_error_None in E2; lia].
  destruct (nth_error trial 3) as [t3 |] eqn:E3;
    [| apply nth_error_None in E3; lia].
  eapply succeeds_bind; [apply succeeds_index; exact E2 |]. intros ? <-.
  eapply succeeds_bind; [apply succeeds_store; lia |]. intros ? <-.
  eapply succeeds_bind.
  { apply succeeds_index. rewrite nth_error_update_neq by lia. exact E3. }
  intros ? <-.
  eapply succeeds_weaken;
    [apply succeeds_store; rewrite length_update; lia |].
  intros ? <-. split.
  - rewrite !length_update. exact L.
  - exists c. rewrite !nth_error_update_neq by lia. auto.
Qed.

Lemma succeeds_make_trial population i :
  (4 <= pop_size)%nat -> (i < pop_size)%nat ->
  length population = pop_size -> Forall scorable population ->
  succeeds (DE.make_trial rng bounds pop_size F CR population i) scorable.
Proof.
  intros Hbig Hi Hlen Hall. unfold DE.make_trial.
  assert (Hget : forall a, (a < pop_size)%nat ->
                           exists x, nth_error population a = Some x /\
                                     scorable x).
  { intros a Ha. destruct (nth_error population a) as [x |] eqn:E;
      [| apply nth_error_None in E; lia].
    exists x. split; [reflexivity |]. rewrite Forall_forall in Hall.
    apply Hall. eapply nth_error_In; eauto. }
  destruct (remove_first_spec i (seq 0 pop_size)) as (cands & Er & Lr & Hin).
  { apply in_seq. lia. }
  rewrite length_seq in Lr.
  eapply succeeds_bind with
    (P := fun l => (3 <= length l)%nat /\
                   forall y, In y l -> (y < pop_size)%nat).
  { intros w. exists cands, w. unfold list_remove. rewrite Er.
    split; [reflexivity |]. split; [lia |].
    intros y Hy. apply Hin in Hy. apply in_seq in Hy. lia. }
  intros l [Ll Hl].
  eapply succeeds_bind; [apply succeeds_sample3; exact Ll |].
  intros [[a b] c] (Ha & Hb & Hc).
  destruct (Hget a (Hl a Ha)) as (x1 & E1 & [L1 _]).
  destruct (Hget b (Hl b Hb)) as (x2 & E2 & [L2 _]).
  destruct (Hget c (Hl c Hc)) as (x3 & E3 & [L3 _]).
  destruct (Hget i Hi) as (xi & Ei & Gi).
  eapply succeeds_bind; [apply succeeds_index; exact E1 |]. intros ? <-.
  eapply succeeds_bind; [apply succeeds_index; exact E2 |]. intros ? <-.
  eapply succeeds_bind; [apply succeeds_index; exact E3 |]. intros ? <-.
  eapply succeeds_bind; [apply succeeds_mutate; assumption |].
  intros mutant Lm.
  eapply succeeds_bind; [apply succeeds_clamp; exact Lm |].
  intros clamped Gc.
  eapply succeeds_bind;
    [eapply succeeds_crossover; [exact Ei | exact Gi | exact Gc] |].
  intros trial Gt. apply succeeds_round. exact Gt.
Qed.

Lemma succeeds_select pf i trial :
  well_formed pf -> (i < pop_size)%nat -> scorable trial ->
  succeeds (DE.select pf i trial) well_formed.
Proof.
  destruct pf as [population fitness]. intros (Lp & Lf & Hall) Hi Gt.
  simpl in Lp, Lf, Hall. unfold DE.select.
  eapply succeeds_bind; [apply succeeds_call_evaluate; exact Gt |].
  intros tf _.
  destruct (nth_error fitness i) as [fi |] eqn:E;
    [| apply nth_error_None in E; lia].
  eapply succeeds_bind; [apply succeeds_index; exact E |]. intros ? <-.
  destruct (Qltb tf fi).
  - eapply succeeds_bind; [apply succeeds_store; lia |]. intros ? <-.
    eapply succeeds_bind; [apply succeeds_store; lia |]. intros ? <-.
    apply succeeds_ret. split; [| split]; simpl.
    + rewrite length_update. exact Lp.
    + rewrite length_update. exact Lf.
    + apply Forall_update; assumption.
  - apply succeeds_ret. split; [| split]; assumption.
Qed.

Lemma succeeds_evolve_index pf i :
  (4 <= pop_size)%nat -> (i < pop_size)%nat -> well_formed pf ->
  succeeds (DE.evolve_index rng bounds pop_size F CR pf i) well_formed.
Proof.
  intros Hbig Hi Hwf. unfold DE.evolve_index.
  eapply succeeds_bind.
  - apply succeeds_make_trial; try assumption; apply Hwf.
  - intros trial Gt. apply succeeds_select; assumption.
Qed.

Lemma succeeds_generation pf iteration :
  (4 <= pop_size)%nat -> well_formed pf ->
  succeeds (DE.generation rng bounds pop_size F CR pf iteration) well_formed.
Proof.
  intros Hbig Hwf. unfold DE.generation.
  eapply succeeds_bind.
  - apply (succeeds_foldM _ well_formed); [| exact Hwf].
    intros acc i Hi Hacc. apply in_seq in Hi.
    apply succeeds_evolve_index; [assumption | lia | assumption].
  - intros pf' Hwf'.
    assert (Hne : snd pf' <> []).
    { destruct Hwf' as (_ & Lf & _). intros C. rewrite C in Lf.
      simpl in Lf. lia. }
    destruct (first_min_by_some (fun x : Q => x) _ Hne) as (j & b & Eb).
    eapply succeeds_bind with (P := fun _ => True).
    { intros w. exists b, w. unfold py_min, py_min_by. rewrite Eb.
      split; [reflexivity | exact I]. }
    intros best _. eapply succeeds_bind with (P := fun _ => True).
    { intros w. eexists _, _. split; [reflexivity | exact I]. }
    intros _ _. apply succeeds_ret. exact Hwf'.
Qed.

Lemma succeeds_report pf :
  (4 <= pop_size)%nat -> well_formed pf ->
  succeeds (DE.report pf) (fun _ => True).
Proof.
  intros Hbig (Lp & Lf & _). unfold DE.report.
  assert (Hne : snd pf <> []).
  { intros C. rewrite C in Lf. simpl in Lf. lia. }
  destruct (first_min_by_some (fun x : Q => x) _ Hne) as (j & b & Eb).
  pose proof (first_min_by_spec _ _ _ _ Eb) as [Hj _].
  assert (Lj : (j < pop_size)%nat).
  { rewrite <- Lf. apply nth_error_Some. congruence. }
  destruct (nth_error (fst pf) j) as [cfg |] eqn:Ec;
    [| apply nth_error_None in Ec; lia].
  eapply succeeds_bind with (P := eq j).
  { intros w. exists j, w. unfold argmin. rewrite Eb.
    split; reflexivity. }
  intros ? <-.
  eapply succeeds_bind; [apply succeeds_index; exact Ec |]. intros ? <-.
  eapply succeeds_bind; [apply succeeds_index; exact Hj |]. intros ? <-.
  apply succeeds_ret. exact I.
Qed.

Lemma differential_evolution_returns max_iter w :
  (4 <= pop_size)%nat ->
  exists r w',
    DE.differential_evolution rng bounds max_iter pop_size F CR w
      = (inr r, w').
Proof.
  intros Hbig. unfold DE.differential_evolution, DE.generations.
  destruct (initialise_returns w) as (pf0 & w1 & E1 & H1).
  destruct (succeeds_foldM (DE.generation rng bounds pop_size F CR)
              well_formed (seq 0 max_iter)
              (fun acc it _ Hacc => succeeds_generation acc it Hbig Hacc)
              pf0 H1 w1) as (pf & w2 & E2 & H2).
  destruct (succeeds_report pf Hbig H2 w2) as (r & w3 & E3 & _).
  exists r, w3.
  rewrite (bind_ok _ _ _ _ _ (eq_trans (bind_ok _ _ _ _ _ E1) E2)).
  exact E3.
Qed.

(** With fewer than four members the first trial cannot be built. *)
Lemma differential_evolution_fails max_iter w :
  (1 <= pop_size < 4)%nat -> (1 <= max_iter)%nat ->
  exists w',
    DE.differential_evolution rng bounds max_iter pop_size F CR w
      = (inl ValueError, w') /\
    stdout w' = stdout w /\
    length (objective_calls w')
      = (length (objective_calls w) + pop_size)%nat.
Proof.
  intros Hsmall Hiter.
  destruct (initialise_returns w) as (pf0 & w1 & E1 & H1).
  destruct (de_initialise_inv _ _ _ _ _ _ E1) as (_ & O1 & C1).
  exists w1. split; [| split; assumption].
  unfold DE.differential_evolution, DE.generations.
  apply bind_err. rewrite (bind_ok _ _ _ _ _ E1).
  destruct max_iter as [| k]; [lia |]. simpl seq. simpl foldM.
  apply bind_err. unfold DE.generation. apply bind_err.
  destruct pop_size as [| n] eqn:En; [lia |]. simpl seq. simpl foldM.
  apply bind_err. unfold DE.evolve_index. apply bind_err.
  unfold DE.make_trial. simpl list_remove.
  unfold list_remove. simpl remove_first. rewrite bind_ok with (a := seq 1 n)
    (w1 := w1) by reflexivity.
  apply bind_err. unfold sample3. rewrite length_seq.
  destruct (Nat.ltb_spec n 3) as [_ | C]; [reflexivity | lia].
Qed.
End DE_total.

Section DE_budget.
Variable rng : nat -> Z.
Variable bounds : list (Q * Q).
Variable pop_size : nat.
Variables F CR : Q.

Lemma sweep_count l :
  forall pf w pf' w',
    foldM (DE.evolve_index rng bounds pop_size F CR) l pf w = (inr pf', w') ->
    length (objective_calls w')
      = (length (objective_calls w) + length l)%nat.
Proof.
  induction l as [| i t IH]; intros pf w pf' w' H; simpl in H.
  - apply ret_inr in H. destruct H as [_ <-]. simpl. lia.
  - apply bind_inr in H. destruct H as (pf1 & w1 & H1 & H2).
    destruct pf as [p f], pf1 as [p1 f1].
    apply evolve_index_spec in H1.
    destruct H1 as (trial & tf & inc & _ & L & _).
    apply IH in H2. rewrite H2, L, length_app. simpl. lia.
Qed.

Lemma generation_count pf iteration w pf' w' :
  DE.generation rng bounds pop_size F CR pf iteration w = (inr pf', w') ->
  length (objective_calls w')
    = (length (objective_calls w) + pop_size)%nat.
Proof.
  unfold DE.generation. intros H.
  apply bind_inr in H. destruct H as (pf1 & w1 & H1 & H).
  apply bind_inr in H. destruct H as (best & w2 & H2 & H).
  apply bind_inr in H. destruct H as (u & w3 & H3 & H).
  apply ret_inr in H. destruct H as [_ <-].
  apply sweep_count in H1. rewrite length_seq in H1.
  apply (quiet_py_min_by (fun x : Q => x)) in H2. destruct H2 as (O2 & _).
  unfold DE.print_best in H3. inversion H3; subst. simpl. congruence.
Qed.

Lemma generations_count k :
  forall w pf w',
    DE.generations rng bounds pop_size F CR k w = (inr pf, w') ->
    length (objective_calls w')
      = (length (objective_calls w) + pop_size * (1 + k))%nat.
Proof.
  induction k as [| k IH]; intros w pf w' H.
  - unfold DE.generations in H.
    apply bind_inr in H. destruct H as (pf0 & w1 & H0 & H). simpl in H.
    apply ret_inr in H. destruct H as [_ <-].
    apply de_initialise_inv in H0. destruct H0 as (_ & _ & C). lia.
  - apply de_generations_step in H. destruct H as (pf0 & w1 & H0 & H1).
    apply IH in H0. apply generation_count in H1. lia.
Qed.
End DE_budget.

(** The outcome the specification asks of a run started in [w]: either a
    result, or a failure with no objective evaluation spent. *)
Definition completes_or_fails_fast {A} (run : M A) (w : world) : Prop :=
  (exists r w', run w = (inr r, w')) \/
  (exists e w', run w = (inl e, w') /\ objective_calls w' = objective_calls w).

(** C6, as stated, fails: with three members the run scores all three and
    only then raises, in the first generation. *)
Lemma de_small_population_fails_late :
  ~ completes_or_fails_fast
      (DE.differential_evolution rng_half DE.bounds 30 3 (4 # 5) (7 # 10))
      world0.
Proof.
  intros [(r & w' & H) | (e & w' & H & Hlog)].
  - vm_compute in H. discriminate H.
  - vm_compute in H. inversion H; subst. simpl in Hlog. discriminate Hlog.
Qed.

(** C6, amended.  Over four bound pairs with positive CPU bounds, a run
    with at least four members completes all [max_iter] generations and
    returns a best configuration and score, having scored
    [pop_size * (1 + max_iter)] candidates.  Nothing is checked before the
    run starts: with one to three members and at least one generation, the
    run scores its [pop_size] initial candidates and then raises
    [ValueError] while sampling three distinct indices in the first
    generation. *)
Theorem de_run_returns_or_fails_in_first_generation
    rng bounds max_iter pop_size F CR lo hi w :
  length bounds = 4%nat ->
  nth_error bounds 0 = Some (lo, hi) -> 0 < lo -> 0 < hi ->
  ((4 <= pop_size)%nat ->
     exists cfg s w',
       DE.differential_evolution rng bounds max_iter pop_size F CR w
         = (inr (cfg, s), w') /\
       length (stdout w') = (length (stdout w) + max_iter)%nat /\
       length (objective_calls w')
         = (length (objective_calls w) + pop_size * (1 + max_iter))%nat) /\
  ((1 <= pop_size < 4)%nat -> (1 <= max_iter)%nat ->
     exists w',
       DE.differential_evolution rng bounds max_iter pop_size F CR w
         = (inl ValueError, w') /\
       stdout w' = stdout w /\
       length (objective_calls w')
         = (length (objective_calls w) + pop_size)%nat).
Proof.
  intros Hdim Hcpu Hlo Hhi. split.
  - intros Hbig.
    destruct (differential_evolution_returns rng bounds pop_size F CR lo hi
                Hdim Hcpu Hlo Hhi max_iter w Hbig) as ([cfg s] & w' & E).
    exists cfg, s, w'. split; [exact E |].
    unfold DE.differential_evolution in E.
    apply bind_inr in E. destruct E as (pf & w1 & E1 & E2).
    pose proof (de_generations_inv _ _ _ _ _ _ _ _ _ E1) as [HI Hout].
    pose proof (generations_count _ _ _ _ _ _ _ _ _ E1) as Hcount.
    destruct (de_report_spec _ _ _ _ _ _ _ HI E2) as (-> & _).
    split; assumption.
  - intros Hsmall Hiter.
    exact (differential_evolution_fails rng bounds pop_size F CR lo hi
             Hdim Hcpu Hlo Hhi max_iter w Hsmall Hiter).
Qed.

Lemma de_run_returns_or_fails_in_first_generation_witness :
  (exists cfg s w',
      DE.differential_evolution rng_mix DE.bounds 2 5 (4 # 5) (7 # 10) world0
        = (inr (cfg, s), w') /\
      length (stdout w') = 2%nat /\
      length (objective_calls w') = 15%nat) /\
  (exists w',
      DE.differential_evolution rng_mix DE.bounds 2 3 (4 # 5) (7 # 10) world0
        = (inl ValueError, w') /\
      stdout w' = [] /\
      length (objective_calls w') = 3%nat).
Proof.
  split.
  - apply (proj1 (de_run_returns_or_fails_in_first_generation
                    rng_mix DE.bounds 2 5 (4 # 5) (7 # 10) (1 # 10) 2 world0
                    eq_refl eq_refl eq_refl eq_refl)).
    lia.
  - apply (proj2 (de_run_returns_or_fails_in_first_generation
                    rng_mix DE.bounds 2 3 (4 # 5) (7 # 10) (1 # 10) 2 world0
                    eq_refl eq_refl eq_refl eq_refl)); lia.
Defined.

(** * Bounds and integrality of what is scored *)

(** [v] has the dimension of the search space and every component lies
    within its bounds. *)
Definition in_bounds (bounds : list (Q * Q)) (v : list Q) : Prop :=
  length v = length bounds /\
  forall j x b, nth_error v j = Some x -> nth_error bounds j = Some b ->
                fst b <= x <= snd b.

Definition integral (x : Q) : Prop := exists z : Z, x = inject_Z z.

Lemma clip_all_in_bounds bounds :
  Forall (fun b => fst b <= snd b) bounds ->
  forall v, length v = length bounds -> in_bounds bounds (clip_all v bounds).
Proof.
  intros Hb v Hlen. split; [rewrite clip_all_length; exact Hlen |].
  revert v Hlen. induction Hb as [| b bs Hle Hbs IH]; intros v Hlen j x c Hx Hc.
  - destruct j; discriminate.
  - destruct v as [| y v]; [discriminate |]. simpl in Hlen.
    injection Hlen as Hlen. destruct j as [| j]; simpl in Hx, Hc.
    + inversion Hx; inversion Hc; subst. apply np_clip_bounds. exact Hle.
    + eapply IH; eauto.
Qed.

Lemma Forall2_seq_nth {A} (P : nat -> A -> Prop) (v : list A) :
  forall k n j x,
    Forall2 P (seq k n) v -> nth_error v j = Some x -> P (k + j)%nat x.
Proof.
  induction v as [| y v IH]; intros k n j x H Hx.
  - destruct j; discriminate.
  - destruct n as [| n]; simpl in H; inversion H; subst.
    destruct j as [| j]; simpl in Hx.
    + inversion Hx; subst. rewrite Nat.add_0_r. assumption.
    + replace (k + S j)%nat with (S k + j)%nat by lia. eapply IH; eauto.
Qed.

Lemma py_round_between (x : Q) (l h : Z) :
  inject_Z l <= x <= inject_Z h -> (l <= py_round x <= h)%Z.
Proof.
  intros [Hl Hh]. pose proof (py_round_nearest x) as [N1 N2]. split.
  - destruct (Z.lt_ge_cases (py_round x) l) as [C | C]; [| lia].
    assert (D : (py_round x + 1 <= l)%Z) by lia.
    rewrite Zle_Qle, inject_Z_plus in D. change (inject_Z 1) with 1 in D. lra.
  - destruct (Z.lt_ge_cases h (py_round x)) as [C | C]; [| lia].
    assert (D : (h + 1 <= py_round x)%Z) by lia.
    rewrite Zle_Qle, inject_Z_plus in D. change (inject_Z 1) with 1 in D. lra.
Qed.

Section DE_bounds.
Variable rng : nat -> Z.
Variable bounds : list (Q * Q).
Variable pop_size : nat.
Variables F CR : Q.

Hypothesis ordered_bounds : Forall (fun b => fst b <= snd b) bounds.

Lemma sample_vector_in_bounds w ind w' :
  mapM (fun i => b <- index bounds i ;; uniform rng (fst b) (snd b))
       (seq 0 (length bounds)) w = (inr ind, w') ->
  in_bounds bounds ind.
Proof.
  intros H. pose proof (mapM_length _ _ _ _ _ H) as L.
  rewrite length_seq in L. split; [exact L |].
  assert (HF : Forall2 (fun i x => forall b, nth_error bounds i = Some b ->
                                            fst b <= x <= snd b)
                       (seq 0 (length bounds)) ind).
  { eapply proj2.
    eapply (mapM_invariant (fun _ => True)); [| exact I | exact H].
    intros i w0 x w1 _ _ Hx. split; [exact I |].
    apply bind_inr in Hx. destruct Hx as (b & w2 & Hb & Hu).
    apply index_inr in Hb. destruct Hb as [Hb ->].
    destruct (succeeds_uniform rng (fst b) (snd b) w0)
      as (x' & w3 & E & u & H0 & H1 & ->).
    rewrite E in Hu. inversion Hu; subst.
    intros c Hc. rewrite Hb in Hc. inversion Hc; subst.
    rewrite Forall_forall in ordered_bounds.
    pose proof (ordered_bounds c (nth_error_In _ _ Hb)). split; nra. }
  intros j x b Hx Hb.
  exact (Forall2_seq_nth _ _ _ _ _ _ HF Hx b Hb).
Qed.

(** Lines 35-59: a trial built from an in-bounds population is in bounds,
    and its components 2 and 3 are integers, provided the bounds of those
    two dimensions are integers. *)
Lemma make_trial_in_bounds population i w trial w' l2 h2 l3 h3 :
  nth_error bounds 2 = Some (inject_Z l2, inject_Z h2) ->
  nth_error bounds 3 = Some (inject_Z l3, inject_Z h3) ->
  Forall (in_bounds bounds) population ->
  DE.make_trial rng bounds pop_size F CR population i w = (inr trial, w') ->
  in_bounds bounds trial /\
  (exists t2, nth_error trial 2 = Some t2 /\ integral t2) /\
  (exists t3, nth_error trial 3 = Some t3 /\ integral t3).
Proof.
  intros B2 B3 Hpop H. unfold DE.make_trial in H.
  apply bind_inr in H. destruct H as (cands & w1 & _ & H).
  apply bind_inr in H. destruct H as ([[a b] c] & w2 & _ & H).
  apply bind_inr in H. destruct H as (x1 & w3 & _ & H).
  apply bind_inr in H. destruct H as (x2 & w4 & _ & H).
  apply bind_inr in H. destruct H as (x3 & w5 & _ & H).
  apply bind_inr in H. destruct H as (mutant & w6 & Hm & H).
  apply bind_inr in H. destruct H as (clamped & w7 & Hc & H).
  apply bind_inr in H. destruct H as (crossed & w8 & Hx & H).
  apply mapM_length in Hm. rewrite length_seq in Hm.
  rewrite (clamp_computes bounds mutant w6 Hm) in Hc.
  inversion Hc; subst clamped w7. clear Hc.
  pose proof (clip_all_in_bounds bounds ordered_bounds mutant Hm) as Gc.
  assert (Gx : in_bounds bounds crossed).
  { unfold DE.crossover in Hx.
    apply bind_inr in Hx. destruct Hx as (R & w9 & _ & Hx).
    pose proof (mapM_length _ _ _ _ _ Hx) as L. rewrite length_seq in L.
    split; [exact L |].
    assert (HF : Forall2 (fun j x => forall b, nth_error bounds j = Some b ->
                                              fst b <= x <= snd b)
                         (seq 0 (length bounds)) crossed).
    { eapply proj2.
      eapply (mapM_invariant (fun _ => True)); [| exact I | exact Hx].
      intros j w0 x w10 _ _ Hj. split; [exact I |].
      apply bind_inr in Hj. destruct Hj as (u & w11 & _ & Hj).
      destruct (Qltb u CR || (Z.of_nat j =? R)%Z).
      + apply index_inr in Hj. destruct Hj as [Hj _].
        intros b0 Hb0. exact (proj2 Gc j x b0 Hj Hb0).
      + apply bind_inr in Hj. destruct Hj as (xi & w12 & Hi & Hj).
        apply index_inr in Hi. destruct Hi as [Hi _].
        apply index_inr in Hj. destruct Hj as [Hj _].
        rewrite Forall_forall in Hpop.
        pose proof (Hpop xi (nth_error_In _ _ Hi)) as [_ Gi].
        intros b0 Hb0. exact (Gi j x b0 Hj Hb0). }
    intros j x b0 Hj Hb0.
    exact (Forall2_seq_nth _ _ _ _ _ _ HF Hj b0 Hb0). }
  apply round_integer_parameters_spec in H.
  destruct H as (_ & t2 & t3 & H2 & H3 & ->).
  destruct Gx as [Lx Gx].
  assert (L3 : (3 < length crossed)%nat)
    by (apply nth_error_Some; congruence).
  split; [split |].
  - rewrite !length_update. exact Lx.
  - intros j x b0 Hj Hb0.
    destruct (Nat.eq_dec 3 j) as [<- | N3].
    + rewrite nth_error_update_eq in Hj by (rewrite length_update; lia).
      inversion Hj; subst. rewrite B3 in Hb0. inversion Hb0; subst. simpl.
      pose proof (Gx 3%nat t3 _ H3 B3) as G. simpl in G.
      apply py_round_between in G. rewrite <- !Zle_Qle. exact G.
    + rewrite nth_error_update_neq in Hj by exact N3.
      destruct (Nat.eq_dec 2 j) as [<- | N2].
      * rewrite nth_error_update_eq in Hj by lia.
        inversion Hj; subst. rewrite B2 in Hb0. inversion Hb0; subst. simpl.
        pose proof (Gx 2%nat t2 _ H2 B2) as G. simpl in G.
        apply py_round_between in G. rewrite <- !Zle_Qle. exact G.
      * rewrite nth_error_update_neq in Hj by exact N2.
        exact (Gx j x b0 Hj Hb0).
  - split.
    + exists (inject_Z (py_round t2)). split; [| eexists; reflexivity].
      rewrite nth_error_update_neq by lia.
      apply nth_error_update_eq. lia.
    + exists (inject_Z (py_round t3)). split; [| eexists; reflexivity].
      apply nth_error_update_eq. rewrite length_update. lia.
Qed.
End DE_bounds.

(** Candidates of the local perturbation stay within [SPACE]; their
    replica and concurrency counts are integers by construction. *)
Definition in_space (ind : MBO.individual) : Prop :=
  (fst MBO.SPACE_replicas <= MBO.replicas ind <= snd MBO.SPACE_replicas)%Z /\
  fst MBO.SPACE_cpu_request <= MBO.cpu ind <= snd MBO.SPACE_cpu_request /\
  (fst MBO.SPACE_concurrency <= MBO.concurrency ind
   <= snd MBO.SPACE_concurrency)%Z.

Lemma sample_individual_in_space rng w ind w' :
  MBO.sample_individual rng w = (inr ind, w') -> in_space ind.
Proof.
  unfold MBO.sample_individual. intros H.
  destruct (succeeds_randint rng 1 4 ltac:(lia) w) as (r & w1 & E1 & Hr).
  change (fst MBO.SPACE_replicas) with 1%Z in H.
  change (snd MBO.SPACE_replicas) with 4%Z in H.
  rewrite (bind_ok _ _ _ _ _ E1) in H.
  destruct (succeeds_uniform rng (1 # 10) (1 # 2) w1)
    as (c & w2 & E2 & u & H0 & H1 & ->).
  change (fst MBO.SPACE_cpu_request) with (1 # 10) in H.
  change (snd MBO.SPACE_cpu_request) with (1 # 2) in H.
  rewrite (bind_ok _ _ _ _ _ E2) in H.
  destruct (succeeds_randint rng 1 4 ltac:(lia) w2) as (k & w3 & E3 & Hk).
  change (fst MBO.SPACE_concurrency) with 1%Z in H.
  change (snd MBO.SPACE_concurrency) with 4%Z in H.
  rewrite (bind_ok _ _ _ _ _ E3) in H.
  apply ret_inr in H. destruct H as [<- _].
  unfold in_space. simpl. repeat split; try lia; lra.
Qed.

Lemma perturb_in_space rng ind w cand w' :
  MBO.perturb rng ind w = (inr cand, w') -> in_space cand.
Proof.
  unfold MBO.perturb. intros H.
  apply bind_inr in H. destruct H as (d & w1 & _ & H).
  apply bind_inr in H. destruct H as (u & w2 & _ & H).
  apply bind_inr in H. destruct H as (d' & w3 & _ & H).
  apply ret_inr in H. destruct H as [<- _].
  unfold in_space. simpl. split; [| split].
  - unfold MBO.clampZ. simpl. lia.
  - apply (clampQ_bounds MBO.SPACE_cpu_request). simpl. lra.
  - unfold MBO.clampZ. simpl. lia.
Qed.

(** C5 fails on the initial population: [random.uniform] draws every
    dimension, the integer ones included, as a float, and the draw is scored
    as it is.  With [random()] equal to [1/2] throughout, the default call
    [differential_evolution(bounds)] scores a candidate with [5.5] replicas
    and returns it as the best configuration. *)
Lemma de_scores_fractional_replicas :
  exists cfg s w' r,
    DE.differential_evolution rng_half DE.bounds 30 15 (4 # 5) (7 # 10) world0
      = (inr (cfg, s), w') /\
    In (cfg, s) (objective_calls w') /\
    nth_error cfg 2 = Some r /\
    r == 11 # 2 /\
    forall z : Z, ~ r == inject_Z z.
Proof.
  eexists _, _, _, _. split; [vm_compute; reflexivity |].
  split; [left; reflexivity |]. split; [reflexivity |].
  split; [reflexivity |].
  intros z C. unfold Qeq in C. simpl in C. lia.
Qed.

(** * Further properties of the differential-evolution code *)

(** ** The objective *)

Lemma evaluate_cicd_inr config s :
  DE.evaluate_cicd config = inr s ->
  exists cpu mem rep par,
    config = [cpu; mem; rep; par] /\ ~ cpu == 0 /\
    s = (500 / cpu + mem / 500 + rep * (3 # 2)) + (cpu * 2 + mem / 800).
Proof.
  unfold DE.evaluate_cicd.
  destruct config as [| cpu [| mem [| rep [| par [| x t]]]]];
    try discriminate.
  destruct (Qeq_bool cpu 0) eqn:E; [discriminate |].
  intros H. inversion H. apply Qeq_bool_neq in E.
  exists cpu, mem, rep, par. auto.
Qed.

Lemma evaluate_cicd_wrong_arity config :
  length config <> 4%nat -> DE.evaluate_cicd config = inl ValueError.
Proof.
  intros H.
  destruct config as [| cpu [| mem [| rep [| par [| x t]]]]];
    try reflexivity.
  simpl in H. congruence.
Qed.

Lemma Qdiv_500 x : x / 500 == x * (1 # 500).
Proof. field. Qed.

Lemma Qdiv_800 x : x / 800 == x * (1 # 800).
Proof. field. Qed.

(** X1.  [evaluate_cicd] never looks at the parallel-jobs value, and for a
    fixed CPU it grows strictly with memory and with the replica count. *)
Theorem evaluate_cicd_ignores_parallel_jobs cpu mem rep par s :
  DE.evaluate_cicd [cpu; mem; rep; par] = inr s ->
  (forall par', DE.evaluate_cicd [cpu; mem; rep; par'] = inr s) /\
  (forall mem' s',
      mem < mem' -> DE.evaluate_cicd [cpu; mem'; rep; par] = inr s' ->
      s < s') /\
  (forall rep' s',
      rep < rep' -> DE.evaluate_cicd [cpu; mem; rep'; par] = inr s' ->
      s < s').
Proof.
  intros H. unfold DE.evaluate_cicd in *.
  destruct (Qeq_bool cpu 0) eqn:E; [discriminate |].
  inversion H; subst. clear H. split; [reflexivity |]. split.
  - intros mem' s' Hm H'. inversion H'; subst.
    generalize (500 / cpu). intros q. rewrite !Qdiv_500, !Qdiv_800. lra.
  - intros rep' s' Hr H'. inversion H'; subst.
    generalize (500 / cpu). intros q. lra.
Qed.

Lemma evaluate_cicd_ignores_parallel_jobs_witness :
  DE.evaluate_cicd [1; 500; 2; 5]
  = inr (500 / 1 + 500 / 500 + 2 * (3 # 2) + (1 * 2 + 500 / 800)).
Proof.
  exact (proj1 (evaluate_cicd_ignores_parallel_jobs 1 500 2 1 _ eq_refl) 5).
Defined.

Lemma in_bounds_four v b0 b1 b2 b3 :
  in_bounds [b0; b1; b2; b3] v ->
  exists x0 x1 x2 x3,
    v = [x0; x1; x2; x3] /\
    fst b0 <= x0 <= snd b0 /\ fst b1 <= x1 <= snd b1 /\
    fst b2 <= x2 <= snd b2 /\ fst b3 <= x3 <= snd b3.
Proof.
  intros [L H].
  destruct v as [| x0 [| x1 [| x2 [| x3 [| x4 t]]]]]; try discriminate.
  exists x0, x1, x2, x3. split; [reflexivity |].
  split; [apply (H 0%nat); reflexivity |].
  split; [apply (H 1%nat); reflexivity |].
  split; [apply (H 2%nat); reflexivity | apply (H 3%nat); reflexivity].
Qed.

(** Over the module's bounds the objective is least at two CPUs, 256 MB and
    one replica. *)
Lemma objective_floor v s :
  in_bounds DE.bounds v -> DE.evaluate_cicd v = inr s -> 64083 # 250 <= s.
Proof.
  intros Hb Hs. apply in_bounds_four in Hb.
  destruct Hb as (cpu & mem & rep & par & -> & H0 & H1 & H2 & _).
  simpl in H0, H1, H2.
  apply evaluate_cicd_inr in Hs.
  destruct Hs as (c & m & r & p & E & Hc & ->). inversion E; subst.
  assert (Q : 500 / c * c == 500) by (field; exact Hc).
  revert Q. generalize (500 / c). intros q Q.
  rewrite !Qdiv_500, !Qdiv_800. nra.
Qed.

(** ** How a trial is put together *)

Lemma remove_at_NoDup {A} (l : list A) :
  forall p x, NoDup l -> nth_error l p = Some x ->
              NoDup (remove_at p l) /\ ~ In x (remove_at p l).
Proof.
  induction l as [| y t IH]; intros [| p] x Hnd Hx; simpl in *;
    try discriminate.
  - inversion Hx; subst. inversion Hnd; subst. auto.
  - inversion Hnd as [| ? ? Hy Ht]; subst.
    destruct (IH p x Ht Hx) as [Hnd' Hnot]. split.
    + constructor; [| exact Hnd']. intros C. apply Hy.
      eapply remove_at_In; eauto.
    + intros [-> | C]; [| exact (Hnot C)].
      apply Hy. eapply nth_error_In; eauto.
Qed.

Lemma remove_first_NoDup x l l' :
  NoDup l -> remove_first x l = Some l' ->
  NoDup l' /\ ~ In x l' /\ forall y, In y l' -> In y l.
Proof.
  revert l'. induction l as [| z t IH]; intros l' Hnd H; simpl in H;
    [discriminate |].
  inversion Hnd as [| ? ? Hz Ht]; subst.
  destruct (Nat.eqb_spec x z) as [-> | Hne].
  - inversion H; subst. split; [exact Ht |]. split; [exact Hz |].
    intros y Hy. right; exact Hy.
  - destruct (remove_first x t) as [t' |] eqn:E; [| discriminate].
    inversion H; subst. destruct (IH t' Ht eq_refl) as (N & Hx & Hin).
    split; [| split].
    + constructor; [| exact N]. intros C. apply Hz, Hin, C.
    + intros [C | C]; [congruence | exact (Hx C)].
    + intros y [<- | Hy]; [left; reflexivity | right; apply Hin, Hy].
Qed.

Section Draws.
Variable rng : nat -> Z.

Lemma random_inr w u w' :
  random rng w = (inr u, w') -> 0 <= u /\ u < 1.
Proof.
  intros H. destruct (succeeds_random rng w) as (u' & w1 & E & Hu).
  rewrite E in H. inversion H; subst. exact Hu.
Qed.

Lemma randint_inr a b w k w' :
  randint rng a b w = (inr k, w') -> (a <= k <= b)%Z.
Proof.
  intros H. destruct (Z.le_gt_cases a b) as [Hab | Hab].
  - destruct (succeeds_randint rng a b Hab w) as (k' & w1 & E & Hk).
    rewrite E in H. inversion H; subst. exact Hk.
  - unfold randint in H. destruct (Z.ltb_spec b a) as [_ | C]; [| lia].
    discriminate H.
Qed.

Lemma pick_inr {A} (pool : list A) w x rest w' :
  pick rng pool w = (inr (x, rest), w') -> NoDup pool ->
  In x pool /\ NoDup rest /\ ~ In x rest /\ forall y, In y rest -> In y pool.
Proof.
  unfold pick. intros H Hnd.
  apply bind_inr in H. destruct H as (p & w1 & _ & H).
  destruct (nth_error pool p) as [y |] eqn:E; [| discriminate H].
  apply ret_inr in H. destruct H as [H _]. inversion H; subst.
  destruct (remove_at_NoDup pool p x Hnd E) as [N Hnot].
  split; [eapply nth_error_In; eauto |]. split; [exact N |].
  split; [exact Hnot |]. intros z. apply remove_at_In.
Qed.

Lemma sample3_inr {A} (pool : list A) w a b c w' :
  sample3 rng pool w = (inr (a, b, c), w') -> NoDup pool ->
  In a pool /\ In b pool /\ In c pool /\ a <> b /\ a <> c /\ b <> c.
Proof.
  unfold sample3. intros H Hnd.
  destruct (length pool <? 3)%nat; [discriminate H |].
  apply bind_inr in H. destruct H as ([x1 r1] & w1 & H1 & H).
  apply bind_inr in H. destruct H as ([x2 r2] & w2 & H2 & H).
  apply bind_inr in H. destruct H as ([x3 r3] & w3 & H3 & H).
  apply ret_inr in H. destruct H as [H _]. simpl in *. inversion H; subst.
  destruct (pick_inr _ _ _ _ _ H1 Hnd) as (I1 & N1 & X1 & S1).
  destruct (pick_inr _ _ _ _ _ H2 N1) as (I2 & N2 & X2 & S2).
  destruct (pick_inr _ _ _ _ _ H3 N2) as (I3 & _ & _ & _).
  split; [exact I1 |]. split; [apply S1, I2 |].
  split; [apply S1, S2, I3 |].
  split; [intros ->; exact (X1 I2) |].
  split; [intros ->; exact (X1 (S2 _ I3)) | intros ->; exact (X2 I3)].
Qed.
End Draws.

Lemma clip_all_nth bounds :
  forall v j y,
    length v = length bounds -> nth_error (clip_all v bounds) j = Some y ->
    exists x b, nth_error v j = Some x /\ nth_error bounds j = Some b /\
                y = np_clip x (fst b) (snd b).
Proof.
  induction bounds as [| b bs IH]; intros v j y L H.
  - destruct v; [destruct j |]; discriminate.
  - destruct v as [| x v]; [discriminate |]. simpl in L. injection L as L.
    destruct j as [| j]; simpl in H.
    + inversion H; subst. exists x, b. auto.
    + destruct (IH v j y L H) as (x' & b' & H1 & H2 & H3).
      exists x', b'. auto.
Qed.

Section Trial.
Variable rng : nat -> Z.
Variable bounds : list (Q * Q).
Variable pop_size : nat.
Variables F CR : Q.

Lemma mutate_spec x1 x2 x3 w m w' :
  DE.mutate bounds F x1 x2 x3 w = (inr m, w') ->
  length m = length bounds /\
  forall j y, nth_error m j = Some y ->
              exists v1 v2 v3,
                nth_error x1 j = Some v1 /\ nth_error x2 j = Some v2 /\
                nth_error x3 j = Some v3 /\ y = v1 + F * (v2 - v3).
Proof.
  unfold DE.mutate. intros H.
  pose proof (mapM_length _ _ _ _ _ H) as L. rewrite length_seq in L.
  split; [exact L |].
  assert (HF : Forall2 (fun j y =>
                          exists v1 v2 v3,
                            nth_error x1 j = Some v1 /\
                            nth_error x2 j = Some v2 /\
                            nth_error x3 j = Some v3 /\
                            y = v1 + F * (v2 - v3))
                       (seq 0 (length bounds)) m).
  { eapply proj2.
    eapply (mapM_invariant (fun _ => True)); [| exact I | exact H].
    intros j w0 y w1 _ _ Hj. split; [exact I |].
    apply bind_inr in Hj. destruct Hj as (v1 & w2 & H1 & Hj).
    apply bind_inr in Hj. destruct Hj as (v2 & w3 & H2 & Hj).
    apply bind_inr in Hj. destruct Hj as (v3 & w4 & H3 & Hj).
    apply index_inr in H1. apply index_inr in H2. apply index_inr in H3.
    apply ret_inr in Hj. destruct Hj as [<- _].
    exists v1, v2, v3. tauto. }
  intros j y Hy. exact (Forall2_seq_nth _ _ _ _ _ _ HF Hy).
Qed.

Lemma crossover_spec population i mutant w trial w' :
  DE.crossover rng bounds CR population i mutant w = (inr trial, w') ->
  exists R,
    (R < length bounds)%nat /\ length trial = length bounds /\
    forall j x,
      nth_error trial j = Some x ->
      (nth_error mutant j = Some x /\ (j = R \/ 0 < CR)) \/
      (j <> R /\ CR < 1 /\
       exists xi, nth_error population i = Some xi /\
                  nth_error xi j = Some x).
Proof.
  unfold DE.crossover. intros H.
  apply bind_inr in H. destruct H as (R & w1 & HR & H).
  apply randint_inr in HR.
  pose proof (mapM_length _ _ _ _ _ H) as L. rewrite length_seq in L.
  exists (Z.to_nat R). split; [lia |]. split; [exact L |].
  assert (HF : Forall2 (fun j x =>
                          (nth_error mutant j = Some x /\
                           (j = Z.to_nat R \/ 0 < CR)) \/
                          (j <> Z.to_nat R /\ CR < 1 /\
                           exists xi, nth_error population i = Some xi /\
                                      nth_error xi j = Some x))
                       (seq 0 (length bounds)) trial).
  { eapply proj2.
    eapply (mapM_invariant (fun _ => True)); [| exact I | exact H].
    intros j w0 x w2 _ _ Hj. split; [exact I |].
    apply bind_inr in Hj. destruct Hj as (u & w3 & Hu & Hj).
    apply random_inr in Hu. destruct Hu as [U0 U1].
    destruct (Qltb u CR) eqn:EC; simpl in Hj.
    - apply index_inr in Hj. destruct Hj as [Hj _].
      apply Qltb_lt in EC. left. split; [exact Hj |]. right. lra.
    - apply Qltb_ge in EC. destruct (Z.eqb_spec (Z.of_nat j) R) as [E | N].
      + apply index_inr in Hj. destruct Hj as [Hj _].
        left. split; [exact Hj |]. left. lia.
      + apply bind_inr in Hj. destruct Hj as (xi & w4 & Hi & Hj).
        apply index_inr in Hi. apply index_inr in Hj.
        right. split; [lia |]. split; [lra |].
        exists xi. tauto. }
  intros j x Hx. exact (Forall2_seq_nth _ _ _ _ _ _ HF Hx).
Qed.

(** X2.  Crossover takes every component either from the mutant or from
    the incumbent [population[i]], and the component at one index [R] of the
    search space always from the mutant.  With [CR >= 1] the whole trial is
    the mutant; with [CR <= 0] only index [R] is. *)
Theorem crossover_mixes_mutant_and_incumbent
    population i mutant w trial w' :
  DE.crossover rng bounds CR population i mutant w = (inr trial, w') ->
  exists R,
    (R < length bounds)%nat /\ length trial = length bounds /\
    (exists x, nth_error trial R = Some x /\ nth_error mutant R = Some x) /\
    (forall j x,
        nth_error trial j = Some x ->
        nth_error mutant j = Some x \/
        exists xi, nth_error population i = Some xi /\
                   nth_error xi j = Some x) /\
    (1 <= CR ->
     forall j x, nth_error trial j = Some x -> nth_error mutant j = Some x) /\
    (CR <= 0 ->
     forall j x, j <> R -> nth_error trial j = Some x ->
                 exists xi, nth_error population i = Some xi /\
                            nth_error xi j = Some x).
Proof.
  intros H. apply crossover_spec in H.
  destruct H as (R & HR & L & Hall). exists R.
  split; [exact HR |]. split; [exact L |]. split; [| split; [| split]].
  - destruct (nth_error trial R) as [x |] eqn:E;
      [| apply nth_error_None in E; lia].
    exists x. split; [reflexivity |].
    destruct (Hall R x E) as [[Hm _] | [N _]]; [exact Hm | congruence].
  - intros j x Hx. destruct (Hall j x Hx) as [[Hm _] | (_ & _ & Hi)]; auto.
  - intros HC j x Hx.
    destruct (Hall j x Hx) as [[Hm _] | (_ & C & _)]; [exact Hm | lra].
  - intros HC j x N Hx.
    destruct (Hall j x Hx) as [[_ [C | C]] | (_ & _ & Hi)];
      [congruence | lra | exact Hi].
Qed.

(** X3.  The trial for index [i] is built from three population members at
    pairwise distinct indices, all different from [i]: each component is the
    clamped value of [x1 + F * (x2 - x3)] or the incumbent's component, and
    components 2 and 3 are then rounded. *)
Theorem make_trial_uses_three_distinct_donors population i w trial w' :
  DE.make_trial rng bounds pop_size F CR population i w = (inr trial, w') ->
  exists a b c x1 x2 x3 crossed t2 t3,
    (a < pop_size /\ b < pop_size /\ c < pop_size)%nat /\
    (a <> i /\ b <> i /\ c <> i) /\ (a <> b /\ a <> c /\ b <> c) /\
    nth_error population a = Some x1 /\
    nth_error population b = Some x2 /\
    nth_error population c = Some x3 /\
    length crossed = length bounds /\
    (forall j y,
        nth_error crossed j = Some y ->
        (exists v1 v2 v3 bj,
            nth_error x1 j = Some v1 /\ nth_error x2 j = Some v2 /\
            nth_error x3 j = Some v3 /\ nth_error bounds j = Some bj /\
            y = np_clip (v1 + F * (v2 - v3)) (fst bj) (snd bj)) \/
        (exists xi, nth_error population i = Some xi /\
                    nth_error xi j = Some y)) /\
    nth_error crossed 2 = Some t2 /\ nth_error crossed 3 = Some t3 /\
    trial = update (update crossed 2 (inject_Z (py_round t2))) 3
                   (inject_Z (py_round t3)).
Proof.
  unfold DE.make_trial. intros H.
  apply bind_inr in H. destruct H as (cands & w1 & Hr & H).
  apply bind_inr in H. destruct H as ([[a b] c] & w2 & Hs & H).
  apply bind_inr in H. destruct H as (x1 & w3 & H1 & H).
  apply bind_inr in H. destruct H as (x2 & w4 & H2 & H).
  apply bind_inr in H. destruct H as (x3 & w5 & H3 & H).
  apply bind_inr in H. destruct H as (mutant & w6 & Hm & H).
  apply bind_inr in H. destruct H as (clamped & w7 & Hc & H).
  apply bind_inr in H. destruct H as (crossed & w8 & Hx & H).
  apply index_inr in H1. destruct H1 as [H1 _].
  apply index_inr in H2. destruct H2 as [H2 _].
  apply index_inr in H3. destruct H3 as [H3 _].
  unfold list_remove in Hr.
  destruct (remove_first i (seq 0 pop_size)) as [l |] eqn:Er;
    [| discriminate Hr].
  apply ret_inr in Hr. destruct Hr as [-> _].
  destruct (remove_first_NoDup _ _ _ (seq_NoDup pop_size 0) Er)
    as (N & Hi & Hin).
  destruct (sample3_inr rng _ _ _ _ _ _ Hs N)
    as (Ia & Ib & Ic & Nab & Nac & Nbc).
  apply mutate_spec in Hm. destruct Hm as [Lm Hm].
  rewrite (clamp_computes bounds mutant w6 Lm) in Hc.
  inversion Hc; subst clamped w7. clear Hc.
  apply crossover_spec in Hx. destruct Hx as (R & _ & Lx & Hx).
  apply round_integer_parameters_spec in H.
  destruct H as (_ & t2 & t3 & T2 & T3 & ->).
  exists a, b, c, x1, x2, x3, crossed, t2, t3.
  assert (In_lt : forall y, In y cands -> (y < pop_size)%nat).
  { intros y Hy. apply Hin in Hy. apply in_seq in Hy. lia. }
  split; [auto |]. split.
  { repeat split; intros ->; contradiction. }
  split; [auto |]. split; [exact H1 |]. split; [exact H2 |].
  split; [exact H3 |]. split; [exact Lx |]. split; [| auto].
  intros j y Hy. destruct (Hx j y Hy) as [[Hc _] | (_ & _ & Hxi)].
  - left. destruct (clip_all_nth bounds mutant j y Lm Hc)
      as (m & bj & Hmj & Hbj & ->).
    destruct (Hm j m Hmj) as (v1 & v2 & v3 & E1 & E2 & E3 & ->).
    exists v1, v2, v3, bj. auto.
  - right. exact Hxi.
Qed.
End Trial.

Lemma crossover_mixes_mutant_and_incumbent_witness :
  exists trial w' R x,
    DE.crossover rng_mix DE.bounds (7 # 10) sample_population 0
                 [2; 256; 1; 1] world0 = (inr trial, w') /\
    (R < 4)%nat /\ length trial = 4%nat /\
    nth_error trial R = Some x /\ nth_error [2; 256; 1; 1] R = Some x.
Proof.
  destruct (DE.crossover rng_mix DE.bounds (7 # 10) sample_population 0
              [2; 256; 1; 1] world0) as [[e | trial] w'] eqn:E.
  - vm_compute in E. discriminate E.
  - destruct (crossover_mixes_mutant_and_incumbent _ _ _ _ _ _ _ _ _ E)
      as (R & HR & L & (x & H1 & H2) & _).
    exists trial, w', R, x. auto.
Defined.

Lemma make_trial_uses_three_distinct_donors_witness :
  exists trial w' a b c,
    DE.make_trial rng_mix DE.bounds 5 (4 # 5) (7 # 10) sample_population 0
                  world0 = (inr trial, w') /\
    (a < 5 /\ b < 5 /\ c < 5)%nat /\
    (a <> 0 /\ b <> 0 /\ c <> 0)%nat /\ (a <> b /\ a <> c /\ b <> c).
Proof.
  destruct (DE.make_trial rng_mix DE.bounds 5 (4 # 5) (7 # 10)
              sample_population 0 world0) as [[e | trial] w'] eqn:E.
  - vm_compute in E. discriminate E.
  - destruct (make_trial_uses_three_distinct_donors _ _ _ _ _ _ _ _ _ _ E)
      as (a & b & c & _ & _ & _ & _ & _ & _ & H1 & H2 & H3 & _).
    exists trial, w', a, b, c. auto.
Defined.

(** ** Invariants of the whole run *)

Section DE_invariants.
Variable rng : nat -> Z.
Variable bounds : list (Q * Q).
Variable pop_size : nat.
Variables F CR : Q.

Lemma evolve_index_trial population fitness i w population' fitness' w' :
  DE.evolve_index rng bounds pop_size F CR (population, fitness) i w
    = (inr (population', fitness'), w') ->
  exists trial tf w1,
    DE.make_trial rng bounds pop_size F CR population i w = (inr trial, w1) /\
    DE.evaluate_cicd trial = inr tf /\
    objective_calls w' = objective_calls w ++ [(trial, tf)] /\
    ((population' = update population i trial /\
      fitness' = update fitness i tf) \/
     (population' = population /\ fitness' = fitness)).
Proof.
  unfold DE.evolve_index. intros H.
  apply bind_inr in H. destruct H as (trial & w1 & Ht & H). simpl in Ht.
  pose proof (quiet_make_trial _ _ _ _ _ _ _ _ _ _ Ht) as (Q1 & _).
  unfold DE.select in H.
  apply bind_inr in H. destruct H as (tf & w2 & He & H).
  apply call_evaluate_inr in He. destruct He as (Ev & L & _).
  apply bind_inr in H. destruct H as (fi & w3 & Hi & H).
  apply index_inr in Hi. destruct Hi as [_ ->].
  exists trial, tf, w1. split; [exact Ht |]. split; [exact Ev |].
  destruct (Qltb tf fi).
  - apply bind_inr in H. destruct H as (p' & w4 & Hp & H).
    apply store_inr in Hp. destruct Hp as (_ & -> & ->).
    apply bind_inr in H. destruct H as (f' & w5 & Hf & H).
    apply store_inr in Hf. destruct Hf as (_ & -> & ->).
    apply ret_inr in H. destruct H as [E <-]. inversion E; subst.
    split; [congruence | left; auto].
  - apply ret_inr in H. destruct H as [E <-]. inversion E; subst.
    split; [congruence | right; auto].
Qed.

(** A property of (population, fitness) and the evaluation record that
    holds after initialisation and survives each pass of the inner loop
    holds after any number of generations. *)
Lemma generations_invariant
    (I : list (list Q) * list Q -> list (list Q * Q) -> Prop) :
  (forall pf i w pf' w',
      I pf (objective_calls w) ->
      DE.evolve_index rng bounds pop_size F CR pf i w = (inr pf', w') ->
      I pf' (objective_calls w')) ->
  forall k w0 pf w,
    (forall pf0 w1,
        DE.initialise rng bounds pop_size w0 = (inr pf0, w1) ->
        I pf0 (objective_calls w1)) ->
    DE.generations rng bounds pop_size F CR k w0 = (inr pf, w) ->
    I pf (objective_calls w).
Proof.
  intros Hstep k w0 pf w Hinit H. unfold DE.generations in H.
  apply bind_inr in H. destruct H as (pf0 & w1 & H0 & H).
  apply Hinit in H0.
  revert H0 H.
  apply (foldM_invariant (fun pf w => I pf (objective_calls w))).
  intros acc it wa acc' wa' _ HI Hg. unfold DE.generation in Hg.
  apply bind_inr in Hg. destruct Hg as (pf1 & w2 & Hs & Hg).
  apply bind_inr in Hg. destruct Hg as (best & w3 & Hb & Hg).
  apply bind_inr in Hg. destruct Hg as (u & w4 & Hp & Hg).
  apply ret_inr in Hg. destruct Hg as [<- <-].
  apply (quiet_py_min_by (fun x : Q => x)) in Hb. destruct Hb as (O3 & _).
  unfold DE.print_best in Hp. inversion Hp; subst. simpl. rewrite O3.
  revert HI Hs.
  apply (foldM_invariant (fun pf w => I pf (objective_calls w))).
  intros a i wb a' wb' _. apply Hstep.
Qed.

Lemma score_all_log population w fitness w' :
  mapM DE.call_evaluate population w = (inr fitness, w') ->
  objective_calls w' = objective_calls w ++ combine population fitness /\
  Forall2 (fun p f => DE.evaluate_cicd p = inr f) population fitness.
Proof.
  revert w fitness. induction population as [| p t IH];
    intros w fitness H; simpl in H.
  - apply ret_inr in H. destruct H as [<- <-]. simpl.
    rewrite app_nil_r. split; [reflexivity | constructor].
  - apply bind_inr in H. destruct H as (f & w1 & H1 & H).
    apply bind_inr in H. destruct H as (fs & w2 & H2 & H).
    apply ret_inr in H. destruct H as [<- <-].
    apply call_evaluate_inr in H1. destruct H1 as (Ev & L & _).
    apply IH in H2. destruct H2 as [L2 F2]. split.
    + simpl. rewrite L2, L, <- app_assoc. reflexivity.
    + constructor; assumption.
Qed.

Lemma initialise_log w pf w' :
  DE.initialise rng bounds pop_size w = (inr pf, w') ->
  objective_calls w' = objective_calls w ++ combine (fst pf) (snd pf) /\
  Forall2 (fun p f => DE.evaluate_cicd p = inr f) (fst pf) (snd pf) /\
  Forall (fun ind => length ind = length bounds) (fst pf) /\
  (Forall (fun b => fst b <= snd b) bounds ->
   Forall (in_bounds bounds) (fst pf)).
Proof.
  unfold DE.initialise. intros H.
  apply bind_inr in H. destruct H as (pop & w1 & Hp & H).
  apply bind_inr in H. destruct H as (fit & w2 & Hf & H).
  apply ret_inr in H. destruct H as [<- <-]. simpl.
  pose proof (quiet_init_population _ _ _ _ _ _ Hp) as (Q1 & _).
  apply score_all_log in Hf. destruct Hf as [L Hc].
  split; [congruence |]. split; [exact Hc |].
  unfold DE.init_population in Hp. split.
  - revert Hp. refine (foldM_invariant
                         (fun acc _ =>
                            Forall (fun ind => length ind = length bounds) acc)
                         _ _ _ _ _ _ _ (Forall_nil _)).
    intros acc x wa acc' wa' _ HI Hb.
    apply bind_inr in Hb. destruct Hb as (ind & w3 & Hi & Hb).
    apply ret_inr in Hb. destruct Hb as [<- _].
    apply mapM_length in Hi. rewrite length_seq in Hi.
    apply Forall_app. split; [exact HI | constructor; [exact Hi | constructor]].
  - intros Hord. revert Hp.
    refine (foldM_invariant (fun acc _ => Forall (in_bounds bounds) acc)
                            _ _ _ _ _ _ _ (Forall_nil _)).
    intros acc x wa acc' wa' _ HI Hb.
    apply bind_inr in Hb. destruct Hb as (ind & w3 & Hi & Hb).
    apply ret_inr in Hb. destruct Hb as [<- _].
    apply (sample_vector_in_bounds rng bounds Hord) in Hi.
    apply Forall_app. split; [exact HI | constructor; [exact Hi | constructor]].
Qed.

Definition coherent (pf : list (list Q) * list Q) : Prop :=
  Forall2 (fun p f => DE.evaluate_cicd p = inr f) (fst pf) (snd pf).

Lemma generations_coherent k w pf w' :
  DE.generations rng bounds pop_size F CR k w = (inr pf, w') -> coherent pf.
Proof.
  apply (generations_invariant (fun pf _ => coherent pf)).
  - intros [pop fit] i wa [pop' fit'] wa' HI H.
    apply evolve_index_trial in H.
    destruct H as (trial & tf & w1 & _ & Ev & _ & [[-> ->] | [-> ->]]).
    + apply Forall2_update; assumption.
    + exact HI.
  - intros pf0 w1 H0. apply initialise_log in H0. tauto.
Qed.

Section Bounded.
Hypothesis ordered_bounds : Forall (fun b => fst b <= snd b) bounds.
Variables l2 h2 l3 h3 : Z.
Hypothesis replicas_bounds :
  nth_error bounds 2 = Some (inject_Z l2, inject_Z h2).
Hypothesis jobs_bounds :
  nth_error bounds 3 = Some (inject_Z l3, inject_Z h3).

(** The population is within bounds and so is every vector scored since
    [base]. *)
Definition bounded (base : list (list Q * Q))
    (pf : list (list Q) * list Q) (log : list (list Q * Q)) : Prop :=
  Forall (in_bounds bounds) (fst pf) /\
  exists new, log = base ++ new /\
              Forall (fun e => in_bounds bounds (fst e)) new.

Lemma generations_bounded k w pf w' :
  DE.generations rng bounds pop_size F CR k w = (inr pf, w') ->
  bounded (objective_calls w) pf (objective_calls w').
Proof.
  apply (generations_invariant (bounded (objective_calls w))).
  - intros [pop fit] i wa [pop' fit'] wa' (HI & new & L & Hnew) H.
    apply evolve_index_trial in H.
    destruct H as (trial & tf & w1 & Ht & _ & L' & Hcase).
    simpl in HI.
    destruct (make_trial_in_bounds rng bounds pop_size F CR ordered_bounds
                pop i wa trial w1 l2 h2 l3 h3 replicas_bounds jobs_bounds
                HI Ht) as (Gt & _).
    split.
    + simpl. destruct Hcase as [[-> _] | [-> _]];
        [apply Forall_update; assumption | exact HI].
    + exists (new ++ [(trial, tf)]).
      split; [rewrite L', L, app_assoc; reflexivity |].
      apply Forall_app. split; [exact Hnew |].
      constructor; [exact Gt | constructor].
  - intros pf0 w1 H0. apply initialise_log in H0.
    destruct H0 as (L & _ & _ & Hb). specialize (Hb ordered_bounds).
    split; [exact Hb |]. exists (combine (fst pf0) (snd pf0)).
    split; [exact L |]. apply Forall_forall. intros [p f] Hin.
    apply in_combine_l in Hin. rewrite Forall_forall in Hb.
    apply Hb. exact Hin.
Qed.
End Bounded.
End DE_invariants.

Lemma report_member pf w cfg s w' :
  DE.report pf w = (inr (cfg, s), w') ->
  exists j, nth_error (fst pf) j = Some cfg /\ nth_error (snd pf) j = Some s.
Proof.
  unfold DE.report. intros H.
  apply bind_inr in H. destruct H as (j & w1 & _ & H).
  apply bind_inr in H. destruct H as (c & w2 & Hc & H).
  apply bind_inr in H. destruct H as (f & w3 & Hf & H).
  apply index_inr in Hc. apply index_inr in Hf.
  apply ret_inr in H. destruct H as [E _]. inversion E; subst.
  exists j. tauto.
Qed.

(** X4.  The fitness list is a faithful cache: after any number of
    generations [fitness[i]] is the score [evaluate_cicd] gives to
    [population[i]], and the score a run returns is the score of the
    configuration it returns. *)
Theorem de_fitness_is_score_of_member rng bounds max_iter pop_size F CR w :
  (forall k pf w',
      DE.generations rng bounds pop_size F CR k w = (inr pf, w') ->
      length (fst pf) = length (snd pf) /\
      forall i p f,
        nth_error (fst pf) i = Some p -> nth_error (snd pf) i = Some f ->
        DE.evaluate_cicd p = inr f) /\
  (forall cfg s w',
      DE.differential_evolution rng bounds max_iter pop_size F CR w
        = (inr (cfg, s), w') ->
      DE.evaluate_cicd cfg = inr s).
Proof.
  split.
  - intros k pf w' H. apply generations_coherent in H. unfold coherent in H.
    split; [eapply Forall2_length; eauto |].
    intros i p f Hp Hf. exact (Forall2_nth_error _ _ _ _ _ _ H Hp Hf).
  - intros cfg s w' H. unfold DE.differential_evolution in H.
    apply bind_inr in H. destruct H as (pf & w1 & Hg & Hr).
    apply generations_coherent in Hg. apply report_member in Hr.
    destruct Hr as (j & Hc & Hs).
    exact (Forall2_nth_error _ _ _ _ _ _ Hg Hc Hs).
Qed.

Lemma de_fitness_is_score_of_member_witness :
  exists cfg s w',
    DE.differential_evolution rng_mix DE.bounds 2 5 (4 # 5) (7 # 10) world0
      = (inr (cfg, s), w') /\
    DE.evaluate_cicd cfg = inr s.
Proof.
  destruct (DE.differential_evolution rng_mix DE.bounds 2 5 (4 # 5) (7 # 10)
              world0) as [[e | [cfg s]] w'] eqn:E.
  - vm_compute in E. discriminate E.
  - exists cfg, s, w'. split; [reflexivity |].
    exact (proj2 (de_fitness_is_score_of_member rng_mix DE.bounds 2 5
                    (4 # 5) (7 # 10) world0) cfg s w' E).
Defined.

(** X5.  When every bound pair is ordered and the bounds of dimensions 2
    and 3 are integers, the population stays within bounds through any
    number of generations, and every vector handed to the objective during
    the run lies within bounds. *)
Theorem de_stays_within_bounds
    rng bounds pop_size F CR l2 h2 l3 h3 k w pf w' :
  Forall (fun b => fst b <= snd b) bounds ->
  nth_error bounds 2 = Some (inject_Z l2, inject_Z h2) ->
  nth_error bounds 3 = Some (inject_Z l3, inject_Z h3) ->
  DE.generations rng bounds pop_size F CR k w = (inr pf, w') ->
  Forall (in_bounds bounds) (fst pf) /\
  exists new,
    objective_calls w' = objective_calls w ++ new /\
    Forall (fun e => in_bounds bounds (fst e)) new.
Proof.
  intros Hord B2 B3 H.
  exact (generations_bounded rng bounds pop_size F CR Hord l2 h2 l3 h3
           B2 B3 k w pf w' H).
Qed.

Lemma module_bounds_ordered : Forall (fun b => fst b <= snd b) DE.bounds.
Proof. repeat constructor; simpl; intros C; discriminate C. Qed.

Lemma de_stays_within_bounds_witness :
  exists pf w',
    DE.generations rng_mix DE.bounds 5 (4 # 5) (7 # 10) 2 world0
      = (inr pf, w') /\
    Forall (in_bounds DE.bounds) (fst pf) /\
    exists new,
      objective_calls w' = objective_calls world0 ++ new /\
      Forall (fun e => in_bounds DE.bounds (fst e)) new.
Proof.
  destruct (DE.generations rng_mix DE.bounds 5 (4 # 5) (7 # 10) 2 world0)
    as [[e | pf] w'] eqn:E.
  - vm_compute in E. discriminate E.
  - exists pf, w'. split; [reflexivity |].
    exact (de_stays_within_bounds rng_mix DE.bounds 5 (4 # 5) (7 # 10)
             1 10 1 5 2 world0 pf w' module_bounds_ordered eq_refl eq_refl E).
Defined.

(** X6.  Over the module's [bounds] no run returns a score below
    [256.332], the value of the objective at two CPUs, 256 MB and one
    replica; the configuration returned lies within the bounds. *)
Theorem de_score_floor rng max_iter pop_size F CR w cfg s w' :
  DE.differential_evolution rng DE.bounds max_iter pop_size F CR w
    = (inr (cfg, s), w') ->
  in_bounds DE.bounds cfg /\ 64083 # 250 <= s /\
  DE.evaluate_cicd [2; 256; 1; 1] = inr (500 / 2 + 256 / 500 + 1 * (3 # 2)
                                         + (2 * 2 + 256 / 800)) /\
  500 / 2 + 256 / 500 + 1 * (3 # 2) + (2 * 2 + 256 / 800) == 64083 # 250.
Proof.
  intros H. unfold DE.differential_evolution in H.
  apply bind_inr in H. destruct H as (pf & w1 & Hg & Hr).
  pose proof (generations_coherent _ _ _ _ _ _ _ _ _ Hg) as Hc.
  pose proof (generations_bounded rng DE.bounds pop_size F CR
                module_bounds_ordered 1 10 1 5 eq_refl eq_refl
                max_iter w pf w1 Hg) as [Hb _].
  apply report_member in Hr. destruct Hr as (j & Hj & Hs).
  assert (G : in_bounds DE.bounds cfg).
  { rewrite Forall_forall in Hb. apply Hb. eapply nth_error_In; eauto. }
  split; [exact G |]. split.
  - apply (objective_floor cfg s G).
    exact (Forall2_nth_error _ _ _ _ _ _ Hc Hj Hs).
  - split; reflexivity.
Qed.

Lemma de_score_floor_witness :
  exists cfg s w',
    DE.differential_evolution rng_mix DE.bounds 2 5 (4 # 5) (7 # 10) world0
      = (inr (cfg, s), w') /\
    in_bounds DE.bounds cfg /\ 64083 # 250 <= s.
Proof.
  destruct (DE.differential_evolution rng_mix DE.bounds 2 5 (4 # 5) (7 # 10)
              world0) as [[e | [cfg s]] w'] eqn:E.
  - vm_compute in E. discriminate E.
  - exists cfg, s, w'. split; [reflexivity |].
    destruct (de_score_floor rng_mix 2 5 (4 # 5) (7 # 10) world0 cfg s w' E)
      as (G & Hs & _).
    split; assumption.
Defined.

(** ** Budget, progress lines and start-up failures *)

Lemma StronglySorted_snoc {A} (R : A -> A -> Prop) (l : list A) (b : A) :
  StronglySorted R l -> (forall x, In x l -> R x b) ->
  StronglySorted R (l ++ [b]).
Proof.
  induction 1 as [| y t Ht IH Hy]; intros Hb; simpl.
  - constructor; constructor.
  - constructor.
    + apply IH. intros x Hx. apply Hb. right; exact Hx.
    + apply Forall_app. split; [exact Hy |].
      constructor; [apply Hb; left; reflexivity | constructor].
Qed.

Lemma lowest_unique l a b : lowest l a -> lowest l b -> a == b.
Proof.
  intros [Ia Ha] [Ib Hb]. apply Qle_antisym; auto.
Qed.

Section DE_progress.
Variable rng : nat -> Z.
Variable bounds : list (Q * Q).
Variable pop_size : nat.
Variables F CR : Q.

(** What has been printed after [k] generations: [k] values, never
    increasing, none below the least current fitness, the last one equal to
    it. *)
Lemma generations_printed k :
  forall w pf w',
    DE.generations rng bounds pop_size F CR k w = (inr pf, w') ->
    exists printed,
      stdout w' = stdout w ++ printed /\ length printed = k /\
      StronglySorted (fun a b => b <= a) printed /\
      (forall b l, In b printed -> lowest (snd pf) l -> l <= b) /\
      (forall d l, printed <> [] -> lowest (snd pf) l ->
                   last printed d == l).
Proof.
  induction k as [| k IH]; intros w pf w' H.
  - unfold DE.generations in H.
    apply bind_inr in H. destruct H as (pf0 & w1 & H0 & H). simpl in H.
    apply ret_inr in H. destruct H as [<- <-].
    apply de_initialise_inv in H0. destruct H0 as (_ & O & _).
    exists []. rewrite app_nil_r. split; [exact O |].
    split; [reflexivity |]. split; [constructor |].
    split; [intros b l [] | intros d l C; congruence].
  - apply de_generations_step in H. destruct H as (pf0 & w1 & H0 & H1).
    pose proof (de_generations_inv _ _ _ _ _ _ _ _ _ H0) as [HI _].
    destruct (IH _ _ _ H0) as (printed & O & L & S & Hge & _).
    destruct (de_generation_inv _ _ _ _ _ _ _ _ _ _ _ HI H1)
      as (_ & Him & b & Hb & O').
    assert (Hne : snd pf0 <> []).
    { destruct Him as [Hlen _]. destruct Hb as [Hin _].
      intros C. rewrite C in Hlen. simpl in Hlen.
      apply length_zero_iff_nil in Hlen. rewrite Hlen in Hin. exact Hin. }
    destruct (lowest_exists _ Hne) as [l0 Hl0].
    pose proof (improves_lowest _ _ _ _ Him Hl0 Hb) as Hbl.
    exists (printed ++ [b]).
    split; [rewrite O', O, app_assoc; reflexivity |].
    split; [rewrite length_app; simpl; lia |].
    split; [| split].
    + apply StronglySorted_snoc; [exact S |].
      intros x Hx. eapply Qle_trans; [exact Hbl | exact (Hge x l0 Hx Hl0)].
    + intros x l Hx Hl. apply in_app_or in Hx.
      destruct Hx as [Hx | [<- | []]].
      * eapply Qle_trans; [apply Hl, Hb |].
        eapply Qle_trans; [exact Hbl | exact (Hge x l0 Hx Hl0)].
      * apply Hl, Hb.
    + intros d l _ Hl. rewrite last_last.
      exact (lowest_unique _ _ _ Hb Hl).
Qed.
End DE_progress.

(** X7.  A run that returns has called the objective exactly
    [pop_size * (1 + max_iter)] times and printed exactly [max_iter] progress
    values; these never increase, none is below the returned score and the
    last one equals it. *)
Theorem de_budget_and_progress rng bounds max_iter pop_size F CR w cfg s w' :
  DE.differential_evolution rng bounds max_iter pop_size F CR w
    = (inr (cfg, s), w') ->
  length (objective_calls w')
    = (length (objective_calls w) + pop_size * (1 + max_iter))%nat /\
  exists printed,
    stdout w' = stdout w ++ printed /\ length printed = max_iter /\
    StronglySorted (fun a b => b <= a) printed /\
    (forall b, In b printed -> s <= b) /\
    (printed <> [] -> last printed 0 == s).
Proof.
  intros H. unfold DE.differential_evolution in H.
  apply bind_inr in H. destruct H as (pf & w1 & Hg & Hr).
  pose proof (generations_count _ _ _ _ _ _ _ _ _ Hg) as Hcount.
  pose proof (de_generations_inv _ _ _ _ _ _ _ _ _ Hg) as [HI _].
  destruct (de_report_spec _ _ _ _ _ _ _ HI Hr) as (-> & Hlow & _).
  destruct (generations_printed _ _ _ _ _ _ _ _ _ Hg)
    as (printed & O & L & S & Hge & Hlast).
  split; [exact Hcount |]. exists printed.
  split; [exact O |]. split; [exact L |]. split; [exact S |]. split.
  - intros b Hb. exact (Hge b s Hb Hlow).
  - intros Hne. exact (Hlast 0 s Hne Hlow).
Qed.

Lemma de_budget_and_progress_witness :
  exists cfg s w' printed,
    DE.differential_evolution rng_mix DE.bounds 2 5 (4 # 5) (7 # 10) world0
      = (inr (cfg, s), w') /\
    length (objective_calls w') = 15%nat /\
    stdout w' = printed /\ length printed = 2%nat /\
    (forall b, In b printed -> s <= b).
Proof.
  destruct (DE.differential_evolution rng_mix DE.bounds 2 5 (4 # 5) (7 # 10)
              world0) as [[e | [cfg s]] w'] eqn:E.
  - vm_compute in E. discriminate E.
  - destruct (de_budget_and_progress _ _ _ _ _ _ _ _ _ _ E)
      as (C & printed & O & L & _ & Hge & _).
    exists cfg, s, w', printed. auto.
Defined.

(** X8.  With an empty population the run raises [ValueError] (from
    [min] when there is a generation to run, from [argmin] otherwise)
    without drawing a random number or calling the objective. *)
Theorem de_empty_population_raises rng bounds max_iter F CR w :
  DE.differential_evolution rng bounds max_iter 0 F CR w = (inl ValueError, w).
Proof.
  unfold DE.differential_evolution, DE.generations, DE.initialise,
    DE.init_population.
  destruct max_iter as [| k]; reflexivity.
Qed.

(** X9.  When the search space does not have exactly four dimensions and
    the population is not empty, the run raises [ValueError] at its first
    call of the objective: nothing has been scored or printed. *)
Theorem de_wrong_dimension_raises rng bounds max_iter pop_size F CR w :
  length bounds <> 4%nat -> (1 <= pop_size)%nat ->
  exists w',
    DE.differential_evolution rng bounds max_iter pop_size F CR w
      = (inl ValueError, w') /\
    objective_calls w' = objective_calls w /\ stdout w' = stdout w.
Proof.
  intros Hdim Hpop.
  assert (Hinit : succeeds (DE.init_population rng bounds pop_size)
                           (Forall (fun ind => length ind = length bounds))).
  { unfold DE.init_population. apply succeeds_foldM; [| constructor].
    intros acc x _ Hacc.
    eapply succeeds_bind with (P := fun ind => length ind = length bounds).
    - intros w0.
      destruct (succeeds_mapM
                  (fun i => b <- index bounds i ;;
                            uniform rng (fst b) (snd b))
                  (fun _ _ => True) (seq 0 (length bounds))) with (w := w0)
        as (ind & w1 & E & _).
      + intros i Hi. apply in_seq in Hi.
        destruct (nth_error bounds i) as [b |] eqn:Eb;
          [| apply nth_error_None in Eb; lia].
        eapply succeeds_bind; [apply succeeds_index; exact Eb |].
        intros ? _. eapply succeeds_weaken; [apply succeeds_uniform |].
        intros; exact I.
      + exists ind, w1. split; [exact E |].
        apply mapM_length in E. rewrite length_seq in E. exact E.
    - intros ind Hind. apply succeeds_ret. apply Forall_app.
      split; [exact Hacc | constructor; [exact Hind | constructor]]. }
  destruct (Hinit w) as (pop & w1 & E & Hall).
  pose proof (init_population_length _ _ _ _ _ _ E) as L.
  pose proof (quiet_init_population _ _ _ _ _ _ E) as (Q1 & Q2 & _).
  exists w1. split; [| split; assumption].
  unfold DE.differential_evolution, DE.generations, DE.initialise.
  apply bind_err, bind_err. rewrite (bind_ok _ _ _ _ _ E).
  apply bind_err. destruct pop as [| ind t]; [simpl in L; lia |].
  inversion Hall; subst. simpl mapM. apply bind_err.
  unfold DE.call_evaluate.
  rewrite evaluate_cicd_wrong_arity by congruence. reflexivity.
Qed.

Lemma de_wrong_dimension_raises_witness :
  exists w',
    DE.differential_evolution rng_mix [(1 # 10, 2); (256, 4096); (1, 10)]
                              30 15 (4 # 5) (7 # 10) world0
      = (inl ValueError, w') /\
    objective_calls w' = [] /\ stdout w' = [].
Proof.
  apply (de_wrong_dimension_raises
           rng_mix [(1 # 10, 2); (256, 4096); (1, 10)] 30 15 (4 # 5) (7 # 10)
           world0); simpl; lia.
Defined.

(** * Further properties of the local-perturbation code *)

(** ** Telemetry *)

(** [w'] differs from [w] only by [k] more HTTP requests. *)
Definition after_requests (k : nat) (w w' : world) : Prop :=
  http_calls w' = (http_calls w + k)%nat /\
  rand_calls w' = rand_calls w /\ objective_calls w' = objective_calls w /\
  stdout w' = stdout w /\ patches w' = patches w /\
  measurements w' = measurements w.

Lemma after_requests_trans j k w w1 w2 :
  after_requests j w w1 -> after_requests k w1 w2 ->
  after_requests (j + k) w w2.
Proof.
  unfold after_requests.
  intros (H1 & R1 & O1 & S1 & P1 & M1) (H2 & R2 & O2 & S2 & P2 & M2).
  repeat split; try congruence. lia.
Qed.

(** No successful body carries a truthy result that cannot be iterated. *)
Definition iterable_results (http : nat -> MBO.query -> MBO.response)
    : Prop :=
  forall n q, http n q <> MBO.Success (MBO.Atom true).

Definition is_finite (x : pyfloat) : bool :=
  match x with
  | Fin _ => true
  | _ => false
  end.

(** Every sample that parses is a finite number. *)
Definition finite_samples (http : nat -> MBO.query -> MBO.response)
    : Prop :=
  forall n q entries x,
    http n q = MBO.Success (MBO.Items entries) -> In (Some x) entries ->
    is_finite x = true.

(** A measurement that is not zero; NaN and the infinities are not. *)
Definition nonzero (x : pyfloat) : Prop := forall v, x = Fin v -> ~ v == 0.

Section Telemetry.
Variable http : nat -> MBO.query -> MBO.response.

Lemma requests_get_spec q w :
  exists w', MBO.requests_get http q w = (inr (http (http_calls w) q), w') /\
             after_requests 1 w w'.
Proof.
  eexists. split; [reflexivity |]. unfold after_requests. simpl.
  repeat split. lia.
Qed.

Lemma attempt_query_first_success q n :
  forall k res w,
    (k < n)%nat ->
    (forall j r, (j < k)%nat ->
                 http (http_calls w + j)%nat q <> MBO.Success r) ->
    http (http_calls w + k)%nat q = MBO.Success res ->
    exists w', MBO.attempt_query http q n w = (inr (Some res), w') /\
               after_requests (k + 1) w w'.
Proof.
  induction n as [| n IH]; intros k res w Hk Hfail Hok; [lia |].
  simpl. destruct (requests_get_spec q w) as (w1 & E1 & A1).
  rewrite (bind_ok _ _ _ _ _ E1).
  destruct k as [| k].
  - rewrite Nat.add_0_r in Hok. rewrite Hok.
    exists w1. split; [reflexivity | exact A1].
  - assert (H0 : forall r, http (http_calls w) q <> MBO.Success r).
    { intros r. specialize (Hfail 0%nat r ltac:(lia)).
      rewrite Nat.add_0_r in Hfail. exact Hfail. }
    destruct A1 as (A1 & A1').
    destruct (IH k res w1) as (w2 & E2 & A2).
    + lia.
    + intros j r Hj. rewrite A1.
      replace (http_calls w + 1 + j)%nat with (http_calls w + S j)%nat by lia.
      apply Hfail. lia.
    + rewrite A1.
      replace (http_calls w + 1 + k)%nat with (http_calls w + S k)%nat by lia.
      exact Hok.
    + exists w2. split.
      * destruct (http (http_calls w) q) as [| | r]; try exact E2.
        exfalso. exact (H0 r eq_refl).
      * replace (S k + 1)%nat with (1 + (k + 1))%nat by lia.
        eapply after_requests_trans; [split; [exact A1 | exact A1'] | exact A2].
Qed.

Lemma attempt_query_exhausted q n :
  forall w,
    (forall j r, (j < n)%nat ->
                 http (http_calls w + j)%nat q <> MBO.Success r) ->
    exists w', MBO.attempt_query http q n w = (inr None, w') /\
               after_requests n w w'.
Proof.
  induction n as [| n IH]; intros w Hfail; simpl.
  - exists w. split; [reflexivity |]. unfold after_requests.
    repeat split. lia.
  - destruct (requests_get_spec q w) as (w1 & E1 & A1).
    rewrite (bind_ok _ _ _ _ _ E1).
    assert (H0 : forall r, http (http_calls w) q <> MBO.Success r).
    { intros r. specialize (Hfail 0%nat r ltac:(lia)).
      rewrite Nat.add_0_r in Hfail. exact Hfail. }
    destruct (IH w1) as (w2 & E2 & A2).
    + intros j r Hj. destruct A1 as (A1 & _). rewrite A1.
      replace (http_calls w + 1 + j)%nat with (http_calls w + S j)%nat by lia.
      apply Hfail. lia.
    + exists w2. split.
      * destruct (http (http_calls w) q) as [| | r]; try exact E2.
        exfalso. exact (H0 r eq_refl).
      * change (S n) with (1 + n)%nat.
        eapply after_requests_trans; eassumption.
Qed.

(** Whatever the backend does, the retry loop returns, after at most [n]
    requests and at least one when [n] is positive; a result it returns is
    one the backend sent. *)
Lemma attempt_query_returns q n :
  forall w,
    exists r w' k,
      MBO.attempt_query http q n w = (inr r, w') /\
      after_requests k w w' /\ (k <= n)%nat /\ (1 <= n -> 1 <= k)%nat /\
      forall res, r = Some res -> exists j, http j q = MBO.Success res.
Proof.
  induction n as [| n IH]; intros w; simpl.
  - exists None, w, 0%nat. split; [reflexivity |].
    split; [unfold after_requests; repeat split; lia |].
    split; [lia |]. split; [lia |]. intros res C. discriminate C.
  - destruct (requests_get_spec q w) as (w1 & E1 & A1).
    rewrite (bind_ok _ _ _ _ _ E1).
    destruct (IH w1) as (r & w2 & k & E2 & A2 & Hk & _ & Hr).
    destruct (http (http_calls w) q) as [| | res] eqn:Eh.
    + exists r, w2, (1 + k)%nat. split; [exact E2 |].
      split; [eapply after_requests_trans; eassumption |].
      split; [lia |]. split; [lia | exact Hr].
    + exists r, w2, (1 + k)%nat. split; [exact E2 |].
      split; [eapply after_requests_trans; eassumption |].
      split; [lia |]. split; [lia | exact Hr].
    + exists (Some res), w1, 1%nat. split; [reflexivity |].
      split; [exact A1 |]. split; [lia |]. split; [lia |].
      intros res' C. inversion C; subst. eexists. exact Eh.
Qed.

(** [get_metric_scalar] returns unless the result is a truthy value that
    cannot be iterated: then the [for] loop raises. *)
Lemma get_metric_scalar_outcome q w :
  exists r w' k,
    MBO.get_metric_scalar http q w = (r, w') /\
    after_requests k w w' /\ (1 <= k <= 3)%nat /\
    match r with
    | inr v =>
        finite_samples http -> forall x, v = Some x -> is_finite x = true
    | inl e =>
        e = TypeError /\ exists j, http j q = MBO.Success (MBO.Atom true)
    end.
Proof.
  unfold MBO.get_metric_scalar, MBO.prometheus_query.
  destruct (attempt_query_returns q 3 w)
    as (r & w1 & k & E & A & Hk & Hk' & Hr).
  rewrite (bind_ok _ _ _ _ _ E).
  assert (K : (1 <= k <= 3)%nat) by lia.
  destruct r as [[[|] | [| e t]] |].
  - exists (inl TypeError), w1, k. split; [reflexivity |].
    split; [exact A |]. split; [exact K |].
    split; [reflexivity | apply Hr; reflexivity].
  - exists (inr None), w1, k. split; [reflexivity |].
    split; [exact A |]. split; [exact K |]. intros _ x C. discriminate C.
  - exists (inr None), w1, k. split; [reflexivity |].
    split; [exact A |]. split; [exact K |]. intros _ x C. discriminate C.
  - destruct (Hr _ eq_refl) as [j Hj].
    destruct (MBO.somes (e :: t)) as [| v vs] eqn:Es.
    + exists (inr None), w1, k. split; [reflexivity |].
      split; [exact A |]. split; [exact K |]. intros _ x C. discriminate C.
    + eexists (inr (Some _)), w1, k. split; [reflexivity |].
      split; [exact A |]. split; [exact K |].
      intros Hfin x C. inversion C; subst x. clear C.
      assert (Hall : Forall (fun y => is_finite y = true) (v :: vs)).
      { rewrite <- Es. apply Forall_forall. intros y Hy.
        apply (Hfin j q (e :: t) y Hj).
        clear - Hy. induction (e :: t) as [| [z |] l IH]; simpl in Hy.
        - destruct Hy.
        - destruct Hy as [<- | Hy]; [left; reflexivity | right; auto].
        - right; auto. }
      assert (Hsum : forall l acc,
                 is_finite acc = true ->
                 Forall (fun y => is_finite y = true) l ->
                 is_finite (fold_left fl_add l acc) = true).
      { induction l as [| y l IH]; intros acc Ha Hl; simpl; [exact Ha |].
        inversion Hl; subst. apply IH; [| assumption].
        destruct acc, y; try discriminate; reflexivity. }
      specialize (Hsum (v :: vs) (Fin 0) eq_refl Hall).
      unfold fl_sum. destruct (fold_left fl_add (v :: vs) (Fin 0));
        try discriminate Hsum. reflexivity.
  - exists (inr None), w1, k. split; [reflexivity |].
    split; [exact A |]. split; [exact K |]. intros _ x C. discriminate C.
Qed.

Lemma or_default_nonzero x d : ~ d == 0 -> nonzero (MBO.or_default x d).
Proof.
  intros Hd v. unfold MBO.or_default. destruct x as [[a | | |] |].
  - destruct (Qeq_bool a 0) eqn:E; intros C; inversion C; subst.
    + exact Hd.
    + apply Qeq_bool_neq. exact E.
  - discriminate.
  - discriminate.
  - discriminate.
  - intros C. inversion C; subst. exact Hd.
Qed.

Lemma or_default_finite x d :
  (forall y, x = Some y -> is_finite y = true) ->
  is_finite (MBO.or_default x d) = true.
Proof.
  intros H. unfold MBO.or_default. destruct x as [[a | | |] |];
    try reflexivity; try (apply H; reflexivity).
  destruct (Qeq_bool a 0); reflexivity.
Qed.

Definition finite_metrics (m : MBO.metrics) : Prop :=
  is_finite (MBO.build_duration m) = true /\
  is_finite (MBO.cpu_usage m) = true /\
  is_finite (MBO.memory m) = true.

(** [fetch_current_metrics] issues up to nine requests and changes nothing
    else.  It returns, after at least three requests, metrics whose build
    duration and CPU usage are not zero, unless a result is a truthy value
    that cannot be iterated. *)
Lemma fetch_outcome w :
  exists r w' k,
    MBO.fetch_current_metrics http w = (r, w') /\
    after_requests k w w' /\ (1 <= k <= 9)%nat /\
    match r with
    | inr m =>
        (3 <= k)%nat /\ nonzero (MBO.build_duration m) /\
        nonzero (MBO.cpu_usage m) /\
        (finite_samples http -> finite_metrics m)
    | inl e =>
        e = TypeError /\
        exists j q, http j q = MBO.Success (MBO.Atom true)
    end.
Proof.
  unfold MBO.fetch_current_metrics.
  destruct (get_metric_scalar_outcome MBO.build_duration_query w)
    as (r1 & w1 & k1 & E1 & A1 & K1 & R1).
  destruct r1 as [e1 | v1].
  { exists (inl e1), w1, k1. split; [apply bind_err; exact E1 |].
    split; [exact A1 |]. split; [lia |].
    destruct R1 as [-> [j Hj]]. split; [reflexivity | eauto]. }
  rewrite (bind_ok _ _ _ _ _ E1).
  destruct (get_metric_scalar_outcome MBO.cpu_query w1)
    as (r2 & w2 & k2 & E2 & A2 & K2 & R2).
  destruct r2 as [e2 | v2].
  { exists (inl e2), w2, (k1 + k2)%nat. split; [apply bind_err; exact E2 |].
    split; [eapply after_requests_trans; eassumption |]. split; [lia |].
    destruct R2 as [-> [j Hj]]. split; [reflexivity | eauto]. }
  rewrite (bind_ok _ _ _ _ _ E2).
  destruct (get_metric_scalar_outcome MBO.memory_query w2)
    as (r3 & w3 & k3 & E3 & A3 & K3 & R3).
  destruct r3 as [e3 | v3].
  { exists (inl e3), w3, (k1 + (k2 + k3))%nat.
    split; [apply bind_err; exact E3 |].
    split; [eapply after_requests_trans; [exact A1 |];
            eapply after_requests_trans; eassumption |].
    split; [lia |].
    destruct R3 as [-> [j Hj]]. split; [reflexivity | eauto]. }
  rewrite (bind_ok _ _ _ _ _ E3).
  eexists (inr _), w3, (k1 + (k2 + k3))%nat. split; [reflexivity |].
  split; [eapply after_requests_trans; [exact A1 |];
          eapply after_requests_trans; eassumption |].
  split; [lia |]. split; [lia |]. simpl.
  split; [apply or_default_nonzero; intros C; discriminate C |].
  split; [apply or_default_nonzero; intros C; discriminate C |].
  intros Hfin. unfold finite_metrics. simpl.
  repeat split; apply or_default_finite; auto.
Qed.
End Telemetry.

(** X10.  [prometheus_query] returns the result of the first attempt that
    succeeds and issues no request after it; when all three attempts fail
    it returns [None] after exactly three requests.  Nothing but the request
    counter changes. *)
Theorem prometheus_query_stops_at_first_success
    (http : nat -> MBO.query -> MBO.response) (q : MBO.query) (w : world) :
  (forall k res,
      (k < 3)%nat ->
      (forall j r, (j < k)%nat ->
                   http (http_calls w + j)%nat q <> MBO.Success r) ->
      http (http_calls w + k)%nat q = MBO.Success res ->
      exists w', MBO.prometheus_query http q w = (inr (Some res), w') /\
                 after_requests (k + 1) w w') /\
  ((forall j r, (j < 3)%nat ->
                http (http_calls w + j)%nat q <> MBO.Success r) ->
   exists w', MBO.prometheus_query http q w = (inr None, w') /\
              after_requests 3 w w').
Proof.
  unfold MBO.prometheus_query. split.
  - intros k res Hk Hfail Hok.
    exact (attempt_query_first_success http q 3 k res w Hk Hfail Hok).
  - intros Hfail. exact (attempt_query_exhausted http q 3 w Hfail).
Qed.

(** A backend whose second answer is the first successful one. *)
Definition http_second : nat -> MBO.query -> MBO.response :=
  fun n _ => match n with
             | 0%nat => MBO.NotSuccess
             | _ => MBO.Success
                      (MBO.Items [Some (Fin (inject_Z (Z.of_nat n)))])
             end.

Lemma prometheus_query_stops_at_first_success_witness :
  (exists w',
      MBO.prometheus_query http_second MBO.cpu_query world0
        = (inr (Some (MBO.Items [Some (Fin 1)])), w') /\
      after_requests 2 world0 w') /\
  (exists w',
      MBO.prometheus_query http_down MBO.cpu_query world0 = (inr None, w') /\
      after_requests 3 world0 w').
Proof.
  split.
  - apply (proj1 (prometheus_query_stops_at_first_success
                    http_second MBO.cpu_query world0)
                 1%nat (MBO.Items [Some (Fin 1)])).
    + lia.
    + intros j r Hj. assert (j = 0%nat) as -> by lia. discriminate.
    + reflexivity.
  - apply (proj2 (prometheus_query_stops_at_first_success
                    http_down MBO.cpu_query world0)).
    intros j r _. discriminate.
Defined.

(** A backend whose every result is the bare number [5]. *)
Definition http_bare_number : nat -> MBO.query -> MBO.response :=
  fun _ _ => MBO.Success (MBO.Atom true).

(** X11.  [fetch_current_metrics] issues at most nine requests and changes
    nothing else.  It ends in one of two ways: it returns, after at least
    three requests, metrics whose build duration and CPU usage are never
    zero (a measured [0.0] is replaced by the default, like a missing
    value); or it raises [TypeError], which happens only when the backend
    sent a successful body whose result is a truthy value that cannot be
    iterated.  Against a backend that never does, it always returns. *)
Theorem fetch_current_metrics_returns_or_type_error http w :
  (exists r w' k,
      MBO.fetch_current_metrics http w = (r, w') /\
      after_requests k w w' /\ (1 <= k <= 9)%nat /\
      match r with
      | inr m =>
          (3 <= k)%nat /\ nonzero (MBO.build_duration m) /\
          nonzero (MBO.cpu_usage m)
      | inl e =>
          e = TypeError /\
          exists j q, http j q = MBO.Success (MBO.Atom true)
      end) /\
  (iterable_results http ->
   exists m w' k,
     MBO.fetch_current_metrics http w = (inr m, w') /\
     after_requests k w w' /\ (3 <= k <= 9)%nat /\
     nonzero (MBO.build_duration m) /\ nonzero (MBO.cpu_usage m)).
Proof.
  destruct (fetch_outcome http w) as (r & w' & k & E & A & K & R).
  split.
  - exists r, w', k. split; [exact E |]. split; [exact A |].
    split; [exact K |]. destruct r as [e | m]; [exact R |].
    destruct R as (R1 & R2 & R3 & _). auto.
  - intros Hit. destruct r as [e | m].
    + destruct R as (_ & j & q & C). exfalso. exact (Hit j q C).
    + destruct R as (R1 & R2 & R3 & _). exists m, w', k.
      split; [exact E |]. split; [exact A |]. split; [lia | auto].
Qed.

Lemma fetch_current_metrics_returns_or_type_error_witness :
  (exists m w' k,
      MBO.fetch_current_metrics http_down world0 = (inr m, w') /\
      after_requests k world0 w' /\ (3 <= k <= 9)%nat /\
      nonzero (MBO.build_duration m) /\ nonzero (MBO.cpu_usage m)) /\
  fst (MBO.fetch_current_metrics http_bare_number world0) = inl TypeError.
Proof.
  split; [| reflexivity].
  apply (proj2 (fetch_current_metrics_returns_or_type_error
                  http_down world0)).
  intros n q C. discriminate C.
Defined.

Lemma Qdiv_850 x : x / (900 - 50) == x * (1 # 850).
Proof. field. Qed.

Lemma Qdiv_199 x : x / (2 - (1 # 100)) == x * (100 # 199).
Proof. field. Qed.

(** On finite measurements the score is finite and given by
    [normalize]. *)
Lemma objective_finite ALPHA BETA bd cpu mem :
  MBO.objective_from_metrics ALPHA BETA (MBO.mkMetrics (Fin bd) (Fin cpu) mem)
  = Fin (ALPHA * MBO.normalize bd 50 900
         + BETA * MBO.normalize cpu (1 # 100) 2).
Proof. reflexivity. Qed.

Lemma objective_formula ALPHA BETA bd cpu :
  ALPHA * MBO.normalize bd 50 900 + BETA * MBO.normalize cpu (1 # 100) 2
  == ALPHA * ((bd - 50) * (1 # 850))
     + BETA * ((cpu - (1 # 100)) * (100 # 199)).
Proof.
  unfold MBO.normalize. simpl.
  rewrite Qdiv_850, Qdiv_199. reflexivity.
Qed.

Lemma normalize_float_finite v lo hi :
  MBO.normalize_float (Fin v) lo hi = Fin (MBO.normalize v lo hi).
Proof.
  unfold MBO.normalize_float, MBO.normalize.
  destruct (Qeq_bool hi lo); reflexivity.
Qed.

Lemma fl_le_fin a b : fl_le (Fin a) (Fin b) <-> a <= b.
Proof. unfold fl_le. simpl. apply Qle_bool_iff. Qed.

(** X12.  The score of a measurement does not depend on its memory figure;
    with non-negative weights it is non-decreasing in build duration and in
    CPU usage, and for measurements inside the historical ranges it lies
    between [0] and [ALPHA + BETA]. *)
Theorem objective_from_metrics_shape ALPHA BETA bd cpu mem :
  (forall b c m m',
      MBO.objective_from_metrics ALPHA BETA (MBO.mkMetrics b c m)
      = MBO.objective_from_metrics ALPHA BETA (MBO.mkMetrics b c m')) /\
  (0 <= ALPHA -> 0 <= BETA ->
   (forall bd' cpu' mem',
       bd <= bd' -> cpu <= cpu' ->
       fl_le (MBO.objective_from_metrics ALPHA BETA
                (MBO.mkMetrics (Fin bd) (Fin cpu) mem))
             (MBO.objective_from_metrics ALPHA BETA
                (MBO.mkMetrics (Fin bd') (Fin cpu') mem'))) /\
   (50 <= bd <= 900 -> (1 # 100) <= cpu <= 2 ->
    fl_le (Fin 0)
          (MBO.objective_from_metrics ALPHA BETA
             (MBO.mkMetrics (Fin bd) (Fin cpu) mem)) /\
    fl_le (MBO.objective_from_metrics ALPHA BETA
             (MBO.mkMetrics (Fin bd) (Fin cpu) mem))
          (Fin (ALPHA + BETA)))).
Proof.
  split; [reflexivity |]. intros HA HB. split.
  - intros bd' cpu' mem' Hbd Hcpu. rewrite !objective_finite.
    apply fl_le_fin. rewrite !objective_formula. nra.
  - intros Hbd Hcpu. rewrite objective_finite.
    split; apply fl_le_fin; rewrite objective_formula; nra.
Qed.

Lemma objective_from_metrics_shape_witness :
  fl_le (Fin 0)
        (MBO.objective_from_metrics (7 # 10) (3 # 10) default_metrics) /\
  fl_le (MBO.objective_from_metrics (7 # 10) (3 # 10) default_metrics)
        (Fin ((7 # 10) + (3 # 10))).
Proof.
  apply (proj2 (objective_from_metrics_shape
                  (7 # 10) (3 # 10) 300 (1 # 2) (Fin 0)));
    try (intros C; discriminate C);
    split; intros C; discriminate C.
Defined.

(** ** Outcomes of a run, failures included *)

(** From a world satisfying [Pre], [m] ends either with a result and a
    world satisfying [Post], or with an exception and a world satisfying
    [Exc]. *)
Definition triple {A} (Pre : world -> Prop) (m : M A)
    (Post : A -> world -> Prop) (Exc : exn -> world -> Prop) : Prop :=
  forall w, Pre w ->
            match m w with
            | (inr a, w') => Post a w'
            | (inl e, w') => Exc e w'
            end.

Lemma triple_ret {A} (Pre : world -> Prop) (a : A) Post Exc :
  (forall w, Pre w -> Post a w) -> triple Pre (ret a) Post Exc.
Proof. intros H w Hw. simpl. apply H. exact Hw. Qed.

Lemma triple_bind {A B} Pre (m : M A) (k : A -> M B) Mid Post Exc :
  triple Pre m Mid Exc -> (forall a, triple (Mid a) (k a) Post Exc) ->
  triple Pre (bind m k) Post Exc.
Proof.
  intros Hm Hk w Hw. specialize (Hm w Hw). unfold bind.
  destruct (m w) as [[e | a] w1]; [exact Hm |]. exact (Hk a w1 Hm).
Qed.

Lemma triple_weaken {A} Pre (m : M A) (Post Post' : A -> world -> Prop) Exc :
  triple Pre m Post Exc -> (forall a w, Post a w -> Post' a w) ->
  triple Pre m Post' Exc.
Proof.
  intros Hm HP w Hw. specialize (Hm w Hw).
  destruct (m w) as [[e | a] w1]; [exact Hm | apply HP; exact Hm].
Qed.

Lemma triple_mapM {A B} (I : world -> Prop) (P : A -> B -> Prop)
    (f : A -> M B) (l : list A) Exc :
  (forall x, In x l -> triple I (f x) (fun y w => I w /\ P x y) Exc) ->
  triple I (mapM f l) (fun ys w => I w /\ Forall2 P l ys) Exc.
Proof.
  induction l as [| x t IH]; intros Hf; simpl.
  - apply triple_ret. intros w Hw. split; [exact Hw | constructor].
  - eapply triple_bind; [apply Hf; left; reflexivity |]. intros y.
    intros w [Hw Hy]. revert w Hw.
    change (triple I (ys <- mapM f t ;; ret (y :: ys))
                   (fun ys w => I w /\ Forall2 P (x :: t) ys) Exc).
    eapply triple_bind.
    + apply IH. intros z Hz. apply Hf. right; exact Hz.
    + intros ys w [Hw Hys]. simpl. split; [exact Hw |].
      constructor; assumption.
Qed.

Lemma triple_foldM {A B} (J : B -> world -> Prop) (body : B -> A -> M B)
    (l : list A) Exc :
  (forall acc x, In x l -> triple (J acc) (body acc x) J Exc) ->
  forall acc, triple (J acc) (foldM body l acc) J Exc.
Proof.
  induction l as [| x t IH]; intros Hb acc; simpl.
  - apply triple_ret. auto.
  - eapply triple_bind; [apply Hb; left; reflexivity |].
    intros acc'. apply IH. intros a y Hy. apply Hb. right; exact Hy.
Qed.

(** A world property that does not depend on the random stream's
    position. *)
Definition blind_to_randomness (I : world -> Prop) : Prop :=
  forall w w',
    objective_calls w' = objective_calls w -> stdout w' = stdout w ->
    patches w' = patches w -> http_calls w' = http_calls w ->
    I w -> I w'.

Lemma triple_quiet {A} (I : world -> Prop) (m : M A) (P Q : A -> Prop) Exc :
  blind_to_randomness I -> quiet m -> succeeds m P ->
  (forall w a w', m w = (inr a, w') -> Q a) ->
  triple I m (fun a w => I w /\ P a /\ Q a) Exc.
Proof.
  intros HI Hq Hs HQ w Hw. destruct (Hs w) as (a & w' & E & Ha).
  rewrite E. destruct (Hq _ _ _ E) as (O & S & P' & H).
  split; [exact (HI w w' O S P' H Hw) |]. split; [exact Ha |].
  exact (HQ _ _ _ E).
Qed.

(** A patch within [SPACE]. *)
Definition patch_in_space (p : Z * Q) : Prop :=
  (fst MBO.SPACE_replicas <= fst p <= snd MBO.SPACE_replicas)%Z /\
  fst MBO.SPACE_cpu_request <= snd p <= snd MBO.SPACE_cpu_request.

Section MBO_safety.
Variable rng : nat -> Z.
Variable http : nat -> MBO.query -> MBO.response.
Variable cluster : nat -> bool.
Variables incluster kubeconfig : bool.
Variables ALPHA BETA : Q.
Variable disorder : list pyfloat -> list nat.
Variable pop_size : nat.
Variable base : list (Z * Q).

Hypothesis pop_size_positive : (1 <= pop_size)%nat.

(** Since [base], only accepted patches within [SPACE] were applied. *)
Definition safe (w : world) : Prop :=
  exists applied,
    patches w = base ++ applied /\
    Forall patch_in_space applied /\
    forall k, (k < length applied)%nat -> cluster (length base + k) = true.

(** The three ways a run can fail: the cluster rejected the patch it was
    about to apply; no configuration could be loaded, before anything was
    applied; or the metrics backend sent a result that is truthy and
    cannot be iterated. *)
Definition failure (e : exn) (w : world) : Prop :=
  safe w /\
  ((e = ApiException /\ cluster (length (patches w)) = false) \/
   (e = ConfigException /\ incluster = false /\ kubeconfig = false /\
    patches w = base) \/
   (e = TypeError /\ exists j q, http j q = MBO.Success (MBO.Atom true))).

Lemma safe_blind : blind_to_randomness safe.
Proof.
  intros w w' _ _ P _ (applied & E & H). exists applied.
  rewrite P. auto.
Qed.

Lemma evaluate_triple ind :
  in_space ind ->
  triple safe (MBO.evaluate http cluster ALPHA BETA ind)
         (fun e w => safe w /\ fst (fst e) = ind) failure.
Proof.
  intros (Hr & Hc & _) w (applied & E & Hall & Hacc).
  unfold MBO.evaluate, bind, MBO.patch_deployment_params.
  destruct (cluster (length (patches w))) eqn:Ec.
  - set (w1 := mkWorld (rand_calls w) (objective_calls w) (stdout w)
                       (http_calls w)
                       (patches w ++ [(MBO.replicas ind, MBO.cpu ind)])
                       (measurements w)).
    assert (S1 : forall w2, patches w2 = patches w1 -> safe w2).
    { intros w2 P2.
      exists (applied ++ [(MBO.replicas ind, MBO.cpu ind)]).
      split; [rewrite P2; subst w1; simpl; rewrite E, app_assoc;
              reflexivity |].
      split.
      + apply Forall_app. split; [exact Hall |].
        constructor; [split; assumption | constructor].
      + intros j Hj. rewrite length_app in Hj. simpl in Hj.
        destruct (Nat.eq_dec j (length applied)) as [-> | N].
        * rewrite E, length_app in Ec. exact Ec.
        * apply Hacc. lia. }
    destruct (fetch_outcome http w1) as (r & w2 & k & Ef & A & _ & R).
    rewrite Ef. destruct A as (_ & _ & _ & _ & P2 & _).
    destruct r as [e | m].
    + split; [apply S1; exact P2 |]. right. right. exact R.
    + unfold MBO.record_evaluation, ret. simpl.
      split; [| reflexivity]. apply S1. exact P2.
  - split; [exists applied; auto |]. left. auto.
Qed.

Definition population_in_space (evaluated : list MBO.scored) : Prop :=
  Forall (fun e => in_space (fst (fst e))) evaluated.

Lemma evaluate_all_triple pop :
  Forall in_space pop ->
  triple safe (mapM (MBO.evaluate http cluster ALPHA BETA) pop)
         (fun evs w => safe w /\ length evs = length pop /\
                       population_in_space evs)
         failure.
Proof.
  intros Hpop. eapply triple_weaken.
  - apply (triple_mapM safe (fun ind e => fst (fst e) = ind)).
    intros ind Hin. apply evaluate_triple.
    rewrite Forall_forall in Hpop. apply Hpop. exact Hin.
  - intros evs w [Hw HF]. split; [exact Hw |].
    split; [symmetry; eapply Forall2_length; eauto |].
    unfold population_in_space. clear Hw.
    induction HF as [| ind e t1 t2 He Ht IH]; [constructor |].
    inversion Hpop; subst. constructor; [assumption | apply IH; assumption].
Qed.

Lemma Forall2_right {A B} (P : B -> Prop) (l : list A) (l' : list B) :
  Forall2 (fun _ y => P y) l l' -> Forall P l'.
Proof. induction 1; constructor; assumption. Qed.

Definition loop_state (st : list MBO.scored * MBO.scored) (w : world)
    : Prop :=
  safe w /\ length (fst st) = pop_size /\ population_in_space (fst st).

Lemma generation_triple st it :
  triple (loop_state st)
         (MBO.generation rng http cluster ALPHA BETA disorder pop_size st it)
         loop_state failure.
Proof.
  destruct st as [evaluated best]. unfold MBO.generation.
  intros w (Hw & Hlen & Hpop). simpl in Hlen, Hpop. revert w Hw.
  change (triple safe
            (new_pop <- mapM (fun e : MBO.scored =>
                                MBO.perturb rng (fst (fst e))) evaluated ;;
             new_evaluated <- mapM (MBO.evaluate http cluster ALPHA BETA)
                                   new_pop ;;
             let combined := MBO.list_sort disorder MBO.score
                               (evaluated ++ new_evaluated) in
             let evaluated' := firstn pop_size combined in
             top <- index evaluated' 0 ;;
             if fl_ltb (MBO.score top) (MBO.score best)
             then ret (evaluated', top) else ret (evaluated', best))
            loop_state failure).
  eapply triple_bind.
  - apply (triple_mapM safe (fun _ cand => in_space cand)).
    intros e _. eapply triple_weaken.
    + apply (triple_quiet safe _ (fun _ => True) in_space).
      * exact safe_blind.
      * apply quiet_perturb.
      * apply succeeds_perturb.
      * intros w0 a w1. apply perturb_in_space.
    + intros a w0 (Hw0 & _ & Ha). auto.
  - intros new_pop w [Hw HF]. revert w Hw.
    pose proof (Forall2_length HF) as Lp.
    apply Forall2_right in HF.
    change (triple safe
              (new_evaluated <- mapM (MBO.evaluate http cluster ALPHA BETA)
                                     new_pop ;;
               let combined := MBO.list_sort disorder MBO.score
                                 (evaluated ++ new_evaluated) in
               let evaluated' := firstn pop_size combined in
               top <- index evaluated' 0 ;;
               if fl_ltb (MBO.score top) (MBO.score best)
               then ret (evaluated', top) else ret (evaluated', best))
              loop_state failure).
    eapply triple_bind; [apply evaluate_all_triple; exact HF |].
    intros offspring w (Hw & Lo & Ho). simpl.
    set (sorted := MBO.list_sort disorder MBO.score (evaluated ++ offspring)).
    assert (Lk : length (firstn pop_size sorted) = pop_size).
    { rewrite length_firstn. unfold sorted.
      rewrite list_sort_length, length_app. lia. }
    assert (Hk : population_in_space (firstn pop_size sorted)).
    { apply Forall_forall. intros e He. apply firstn_In in He.
      apply (Permutation_in _ (list_sort_perm disorder MBO.score _)) in He.
      apply in_app_or in He. unfold population_in_space in Hpop, Ho.
      rewrite Forall_forall in Hpop, Ho. destruct He; auto. }
    destruct (nth_error (firstn pop_size sorted) 0) as [top |] eqn:Et;
      [| apply nth_error_None in Et; lia].
    unfold bind. rewrite (index_ok _ _ _ w Et).
    destruct (fl_ltb (MBO.score top) (MBO.score best)); simpl;
      (split; [exact Hw | split; assumption]).
Qed.

Lemma initialise_triple :
  triple safe (MBO.initialise rng http cluster ALPHA BETA pop_size)
         loop_state failure.
Proof.
  unfold MBO.initialise. eapply triple_bind.
  - apply (triple_mapM safe (fun _ ind => in_space ind)).
    intros i _. eapply triple_weaken.
    + apply (triple_quiet safe _ (fun _ => True) in_space).
      * exact safe_blind.
      * apply quiet_sample_individual.
      * apply succeeds_sample_individual.
      * intros w0 a w1. apply sample_individual_in_space.
    + intros a w0 (Hw0 & _ & Ha). auto.
  - intros pop w [Hw HF]. revert w Hw.
    pose proof (Forall2_length HF) as Lp. rewrite length_seq in Lp.
    apply Forall2_right in HF.
    change (triple safe
              (evaluated <- mapM (MBO.evaluate http cluster ALPHA BETA) pop ;;
               best <- py_min_key MBO.score evaluated ;;
               ret (evaluated, best))
              loop_state failure).
    eapply triple_bind; [apply evaluate_all_triple; exact HF |].
    intros evaluated w (Hw & Le & He).
    assert (Hne : evaluated <> []).
    { intros C. rewrite C in Le. simpl in Le. lia. }
    destruct (py_min_key_ok MBO.score evaluated w Hne) as (best & Eb).
    unfold bind. rewrite Eb. simpl.
    split; [exact Hw |]. split; [simpl; congruence | exact He].
Qed.

Lemma optimize_triple max_iters :
  triple (fun w => patches w = base)
         (MBO.optimize rng http cluster incluster kubeconfig ALPHA BETA
                       disorder pop_size max_iters)
         (fun _ w => safe w) failure.
Proof.
  assert (S0 : forall w, patches w = base -> safe w).
  { intros w Hw. exists []. rewrite app_nil_r.
    split; [exact Hw |]. split; [constructor | intros k Hk; simpl in Hk; lia]. }
  unfold MBO.optimize, MBO.generations. eapply triple_bind.
  - eapply triple_bind with (Mid := fun _ w => safe w).
    + intros w Hw. unfold MBO.k8s_client.
      destruct incluster eqn:Ei; [simpl; auto |].
      destruct kubeconfig eqn:Ek; [simpl; auto |]. simpl.
      split; [auto |]. right. left. auto.
    + intros _. eapply triple_bind; [apply initialise_triple |].
      intros st. apply (triple_foldM loop_state).
      intros acc it _. apply generation_triple.
  - intros st. apply triple_ret. intros w (Hw & _). exact Hw.
Qed.
End MBO_safety.

Section MBO_counts.
Variable rng : nat -> Z.
Variable http : nat -> MBO.query -> MBO.response.
Variable cluster : nat -> bool.
Variables incluster kubeconfig : bool.
Variables ALPHA BETA : Q.
Variable disorder : list pyfloat -> list nat.
Variable pop_size : nat.

(** Between [w] and [w'], [n] candidates were evaluated: [n] patches
    applied and between [3 * n] and [9 * n] requests issued. *)
Definition evaluations (n : nat) (w w' : world) : Prop :=
  length (patches w') = (length (patches w) + n)%nat /\
  (http_calls w + 3 * n <= http_calls w' <= http_calls w + 9 * n)%nat.

Lemma evaluate_count ind w e w' :
  MBO.evaluate http cluster ALPHA BETA ind w = (inr e, w') ->
  evaluations 1 w w'.
Proof.
  unfold MBO.evaluate. intros H.
  apply bind_inr in H. destruct H as (u & w1 & Hp & H).
  apply bind_inr in H. destruct H as (m & w2 & Hf & H).
  apply bind_inr in H. destruct H as (u' & w3 & Hr & H).
  apply ret_inr in H. destruct H as [_ <-].
  unfold MBO.patch_deployment_params in Hp.
  destruct (cluster (length (patches w))); [| discriminate Hp].
  inversion Hp; subst w1. clear Hp.
  destruct (fetch_outcome http
              (mkWorld (rand_calls w) (objective_calls w) (stdout w)
                       (http_calls w)
                       (patches w ++ [(MBO.replicas ind, MBO.cpu ind)])
                       (measurements w)))
    as (r & w2' & k & Ef & (A1 & _ & _ & _ & A5 & _) & Hk & R).
  rewrite Ef in Hf. inversion Hf; subst. clear Hf.
  destruct R as (Hk3 & _).
  unfold MBO.record_evaluation in Hr. inversion Hr; subst. clear Hr.
  unfold evaluations. simpl. simpl in A1, A5.
  rewrite A5, A1, length_app. simpl. lia.
Qed.

Lemma evaluate_all_count pop :
  forall w evs w',
    mapM (MBO.evaluate http cluster ALPHA BETA) pop w = (inr evs, w') ->
    evaluations (length pop) w w'.
Proof.
  induction pop as [| ind t IH]; intros w evs w' H; simpl in H.
  - apply ret_inr in H. destruct H as [_ <-].
    unfold evaluations. simpl. lia.
  - apply bind_inr in H. destruct H as (e & w1 & H1 & H).
    apply bind_inr in H. destruct H as (es & w2 & H2 & H).
    apply ret_inr in H. destruct H as [_ <-].
    apply evaluate_count in H1. apply IH in H2.
    unfold evaluations in *. simpl length. lia.
Qed.

Lemma generations_evaluations k :
  forall w st w',
    MBO.generations rng http cluster incluster kubeconfig ALPHA BETA
                    disorder pop_size k w = (inr st, w') ->
    evaluations (pop_size * (1 + k)) w w'.
Proof.
  induction k as [| k IH]; intros w st w' H.
  - unfold MBO.generations in H.
    apply bind_inr in H. destruct H as (u & w0 & Hc & H).
    apply bind_inr in H. destruct H as (st0 & w1 & Hi & H).
    simpl in H. apply ret_inr in H. destruct H as [_ <-].
    assert (E0 : w0 = w).
    { unfold MBO.k8s_client in Hc.
      destruct incluster; [| destruct kubeconfig]; inversion Hc; reflexivity. }
    subst w0. unfold MBO.initialise in Hi.
    apply bind_inr in Hi. destruct Hi as (pop & w2 & Hp & Hi).
    apply bind_inr in Hi. destruct Hi as (evs & w3 & He & Hi).
    apply bind_inr in Hi. destruct Hi as (best & w4 & Hb & Hi).
    apply ret_inr in Hi. destruct Hi as [_ <-].
    apply py_min_key_inr in Hb. destruct Hb as (-> & _).
    pose proof (mapM_length _ _ _ _ _ Hp) as Lp. rewrite length_seq in Lp.
    apply (quiet_mapM _ _ (fun _ => quiet_sample_individual rng)) in Hp.
    destruct Hp as (_ & _ & P & Hh).
    apply evaluate_all_count in He. rewrite Lp in He.
    unfold evaluations in *. rewrite P, Hh in He. lia.
  - apply mbo_generations_step in H. destruct H as (st0 & w1 & H0 & H1).
    pose proof (mbo_generations_inv _ _ _ _ _ _ _ _ _ _ _ _ _ H0)
      as [Hlen _].
    apply IH in H0. destruct st0 as [evaluated best]. simpl in Hlen.
    unfold MBO.generation in H1.
    apply bind_inr in H1. destruct H1 as (new_pop & w2 & Hp & H1).
    apply bind_inr in H1. destruct H1 as (offspring & w3 & He & H1).
    apply bind_inr in H1. destruct H1 as (top & w4 & Ht & H1).
    apply index_inr in Ht. destruct Ht as [_ ->].
    assert (E : w' = w3).
    { destruct (fl_ltb (MBO.score top) (MBO.score best));
        apply ret_inr in H1; destruct H1 as [_ <-]; reflexivity. }
    subst w'.
    pose proof (mapM_length _ _ _ _ _ Hp) as Lp.
    apply (quiet_mapM _ _ (fun e => quiet_perturb rng (fst (fst e)))) in Hp.
    destruct Hp as (_ & _ & P & Hh).
    assert (Lq : length new_pop = pop_size) by (rewrite Lp; exact Hlen).
    apply evaluate_all_count in He. rewrite Lq in He.
    unfold evaluations in *. rewrite P, Hh in He. lia.
Qed.
End MBO_counts.

(** X13.  [mbo_optimize] can fail in three ways only: with the cluster's
    exception, raised by a patch the cluster rejects; with the
    configuration exception when neither configuration loads, in which case
    nothing has been patched; or with [TypeError], when the metrics backend
    sent a successful body whose result is a truthy value that cannot be
    iterated.  No list, [min] or random operation of its own ever raises,
    whatever else the backend answers. *)
Theorem mbo_failure_modes
    rng http cluster incluster kubeconfig ALPHA BETA disorder w e w' :
  MBO.mbo_optimize rng http cluster incluster kubeconfig ALPHA BETA disorder w
    = (inl e, w') ->
  (e = ApiException /\ cluster (length (patches w')) = false) \/
  (e = ConfigException /\ incluster = false /\ kubeconfig = false /\
   patches w' = patches w) \/
  (e = TypeError /\ exists j q, http j q = MBO.Success (MBO.Atom true)).
Proof.
  intros H.
  assert (Hpos : (1 <= MBO.POP_SIZE)%nat) by (unfold MBO.POP_SIZE; lia).
  pose proof (optimize_triple rng http cluster incluster kubeconfig
                ALPHA BETA disorder MBO.POP_SIZE (patches w) Hpos
                MBO.MAX_ITERS w eq_refl) as T.
  unfold MBO.mbo_optimize in H. rewrite H in T.
  destruct T as [_ T]. exact T.
Qed.

(** A cluster that rejects its fourth patch. *)
Definition cluster_rejects_fourth : nat -> bool :=
  fun n => negb (Nat.eqb n 3).

Lemma mbo_failure_modes_witness :
  (exists w',
      MBO.mbo_optimize rng_mix http_down cluster_rejects_fourth true true
                       (7 # 10) (3 # 10) no_disorder world0
        = (inl ApiException, w') /\
      cluster_rejects_fourth (length (patches w')) = false) /\
  (exists w',
      MBO.mbo_optimize rng_mix http_bare_number cluster_ok true true
                       (7 # 10) (3 # 10) no_disorder world0
        = (inl TypeError, w')).
Proof.
  split.
  - destruct (MBO.mbo_optimize rng_mix http_down cluster_rejects_fourth
                true true (7 # 10) (3 # 10) no_disorder world0)
      as [[e | best] w'] eqn:E.
    + destruct (mbo_failure_modes _ _ _ _ _ _ _ _ _ _ _ E)
        as [[-> Hc] | [(_ & C & _) | (_ & j & q & C)]];
        [| discriminate C | discriminate C].
      exists w'. split; [reflexivity | exact Hc].
    + vm_compute in E. discriminate E.
  - destruct (MBO.mbo_optimize rng_mix http_bare_number cluster_ok
                true true (7 # 10) (3 # 10) no_disorder world0)
      as [[e | best] w'] eqn:E.
    + destruct (mbo_failure_modes _ _ _ _ _ _ _ _ _ _ _ E)
        as [[_ C] | [(_ & C & _) | (-> & _)]];
        [discriminate C | discriminate C |].
      exists w'. reflexivity.
    + vm_compute in E. discriminate E.
Defined.

(** X14.  Whether [mbo_optimize] returns or fails, every patch it has
    applied has a replica count and a CPU request within [SPACE]. *)
Theorem mbo_patches_stay_in_space
    rng http cluster incluster kubeconfig ALPHA BETA disorder w r w' :
  MBO.mbo_optimize rng http cluster incluster kubeconfig ALPHA BETA disorder w
    = (r, w') ->
  exists applied,
    patches w' = patches w ++ applied /\ Forall patch_in_space applied.
Proof.
  intros H.
  assert (Hpos : (1 <= MBO.POP_SIZE)%nat) by (unfold MBO.POP_SIZE; lia).
  pose proof (optimize_triple rng http cluster incluster kubeconfig
                ALPHA BETA disorder MBO.POP_SIZE (patches w) Hpos
                MBO.MAX_ITERS w eq_refl) as T.
  unfold MBO.mbo_optimize in H. rewrite H in T.
  destruct r as [e | best].
  - destruct T as [(applied & E & Hall & _) _]. exists applied. auto.
  - destruct T as (applied & E & Hall & _). exists applied. auto.
Qed.

Lemma mbo_patches_stay_in_space_witness :
  exists applied,
    patches (snd (MBO.mbo_optimize rng_mix http_counter cluster_ok true true
                    (7 # 10) (3 # 10) no_disorder world0)) = [] ++ applied /\
    Forall patch_in_space applied.
Proof.
  exact (mbo_patches_stay_in_space
           rng_mix http_counter cluster_ok true true (7 # 10) (3 # 10)
           no_disorder world0 _ _ (surjective_pairing _)).
Defined.

(** X15.  A rejected patch is not absorbed.  When a configuration loads
    and the cluster accepts [n] patches and rejects the next, with [n] below
    the [POP_SIZE * (1 + MAX_ITERS)] the run needs, [mbo_optimize] does not
    return: it raises the cluster's exception having applied exactly those
    [n] patches, unless a telemetry result that is truthy and cannot be
    iterated has stopped it earlier with [TypeError].  Against a backend
    that sends no such result it is the cluster's exception. *)
Theorem mbo_aborts_at_first_rejected_patch
    rng http (cluster : nat -> bool) incluster kubeconfig ALPHA BETA
    disorder w n :
  incluster || kubeconfig = true ->
  (n < MBO.POP_SIZE * (1 + MBO.MAX_ITERS))%nat ->
  (forall k, (k < n)%nat -> cluster (length (patches w) + k)%nat = true) ->
  cluster (length (patches w) + n)%nat = false ->
  (exists e w',
      MBO.mbo_optimize rng http cluster incluster kubeconfig ALPHA BETA
                       disorder w
        = (inl e, w') /\
      ((e = ApiException /\
        length (patches w') = (length (patches w) + n)%nat) \/
       (e = TypeError /\
        (exists j q, http j q = MBO.Success (MBO.Atom true)) /\
        (length (patches w') <= length (patches w) + n)%nat))) /\
  (iterable_results http ->
   exists w',
     MBO.mbo_optimize rng http cluster incluster kubeconfig ALPHA BETA
                      disorder w
       = (inl ApiException, w') /\
     length (patches w') = (length (patches w) + n)%nat).
Proof.
  intros Hcfg Hn Hacc Hrej.
  assert (Hpos : (1 <= MBO.POP_SIZE)%nat) by (unfold MBO.POP_SIZE; lia).
  pose proof (optimize_triple rng http cluster incluster kubeconfig
                ALPHA BETA disorder MBO.POP_SIZE (patches w) Hpos
                MBO.MAX_ITERS w eq_refl) as T.
  unfold MBO.mbo_optimize.
  destruct (MBO.optimize rng http cluster incluster kubeconfig ALPHA BETA
              disorder MBO.POP_SIZE MBO.MAX_ITERS w)
    as [[e | best] w'] eqn:E.
  - destruct T as [(applied & Ep & _ & Hall) T].
    assert (Hle : (length applied <= n)%nat).
    { destruct (Nat.le_gt_cases (length applied) n) as [C | C];
        [exact C |].
      rewrite (Hall _ C) in Hrej. discriminate Hrej. }
    destruct T as [[-> Hc] | [(_ & Hi & Hk & _) | (-> & Hbad)]].
    + assert (L : length (patches w') = (length (patches w) + n)%nat).
      { rewrite Ep, length_app in *.
        destruct (Nat.eq_dec (length applied) n) as [-> | N];
          [reflexivity |].
        rewrite (Hacc (length applied)) in Hc by lia. discriminate Hc. }
      split.
      * exists ApiException, w'. split; [reflexivity |]. left. auto.
      * intros _. exists w'. auto.
    + rewrite Hi, Hk in Hcfg. discriminate Hcfg.
    + split.
      * exists TypeError, w'. split; [reflexivity |]. right.
        split; [reflexivity |]. split; [exact Hbad |].
        rewrite Ep, length_app. lia.
      * intros Hit. exfalso. destruct Hbad as (j & q & C).
        exact (Hit j q C).
  - exfalso. destruct T as (applied & Ep & _ & Hall).
    unfold MBO.optimize in E.
    apply bind_inr in E. destruct E as (st & w1 & Hg & Hr).
    apply ret_inr in Hr. destruct Hr as [_ <-].
    apply generations_evaluations in Hg. destruct Hg as [Hg _].
    rewrite Ep, length_app in Hg.
    assert (L : length applied = (MBO.POP_SIZE * (1 + MBO.MAX_ITERS))%nat)
      by lia.
    rewrite (Hall n) in Hrej by lia. discriminate Hrej.
Qed.

Lemma mbo_aborts_at_first_rejected_patch_witness :
  exists w',
    MBO.mbo_optimize rng_mix http_down cluster_rejects_fourth true false
                     (7 # 10) (3 # 10) no_disorder world0
      = (inl ApiException, w') /\
    length (patches w') = 3%nat.
Proof.
  apply (proj2 (mbo_aborts_at_first_rejected_patch
                  rng_mix http_down cluster_rejects_fourth true false
                  (7 # 10) (3 # 10) no_disorder world0 3
                  eq_refl
                  ltac:(vm_compute; lia)
                  ltac:(intros k Hk; simpl in *;
                        destruct k as [| [| [| k]]]; try reflexivity; lia)
                  eq_refl)).
  intros j q C. discriminate C.
Defined.

(** X16.  A run of [mbo_optimize] that returns has applied exactly
    [POP_SIZE * (1 + MAX_ITERS)] patches, one per candidate scored, and has
    issued between three and nine requests for each. *)
Theorem mbo_evaluation_budget
    rng http cluster incluster kubeconfig ALPHA BETA disorder w best w' :
  MBO.mbo_optimize rng http cluster incluster kubeconfig ALPHA BETA disorder w
    = (inr best, w') ->
  length (patches w')
    = (length (patches w) + MBO.POP_SIZE * (1 + MBO.MAX_ITERS))%nat /\
  (http_calls w + 3 * (MBO.POP_SIZE * (1 + MBO.MAX_ITERS)) <= http_calls w'
   <= http_calls w + 9 * (MBO.POP_SIZE * (1 + MBO.MAX_ITERS)))%nat.
Proof.
  unfold MBO.mbo_optimize, MBO.optimize. intros H.
  apply bind_inr in H. destruct H as (st & w1 & Hg & Hr).
  apply ret_inr in Hr. destruct Hr as [_ <-].
  exact (generations_evaluations _ _ _ _ _ _ _ _ _ _ _ _ _ Hg).
Qed.

Lemma mbo_evaluation_budget_witness :
  exists best w',
    MBO.mbo_optimize rng_mix http_second cluster_ok true true
                     (7 # 10) (3 # 10) no_disorder world0 = (inr best, w') /\
    length (patches w') = 104%nat /\
    (312 <= http_calls w' <= 936)%nat.
Proof.
  destruct (MBO.mbo_optimize rng_mix http_second cluster_ok true true
              (7 # 10) (3 # 10) no_disorder world0)
    as [[e | best] w'] eqn:E.
  - vm_compute in E. discriminate E.
  - exists best, w'. split; [reflexivity |].
    exact (mbo_evaluation_budget _ _ _ _ _ _ _ _ _ _ _ E).
Defined.

(** ** The tracked best and the population *)

Lemma min_from_app {A} (key : A -> pyfloat) (l1 l2 : list A) :
  forall b, min_from key b (l1 ++ l2) = min_from key (min_from key b l1) l2.
Proof.
  induction l1 as [| x t IH]; intros b; simpl; [reflexivity |].
  destruct (fl_ltb (key x) (key b)); apply IH.
Qed.

Lemma min_from_cases {A} (key : A -> pyfloat) (l : list A) :
  forall b, min_from key b l = b \/ fl_lt (key (min_from key b l)) (key b).
Proof.
  induction l as [| x t IH]; intros b; simpl; [left; reflexivity |].
  destruct (fl_ltb (key x) (key b)) eqn:E; [| apply IH].
  right. destruct (IH x) as [-> | H]; [exact E | eapply fl_lt_trans; eauto].
Qed.

Lemma min_from_fixed {A} (key : A -> pyfloat) (l : list A) :
  forall b, (forall y, In y l -> fl_le (key b) (key y)) ->
            min_from key b l = b.
Proof.
  induction l as [| x t IH]; intros b H; simpl; [reflexivity |].
  destruct (fl_ltb (key x) (key b)) eqn:E.
  - exfalso. exact (fl_lt_not_le _ _ E (H x (or_introl eq_refl))).
  - apply IH. intros y Hy. apply H. right; exact Hy.
Qed.

(** Where no key is NaN, the least of [b :: y :: t] is [b] unless the
    least of [y :: t] is strictly better. *)
Lemma min_from_cons {A} (key : A -> pyfloat) (t : list A) :
  forall b y,
    no_nan key (b :: y :: t) ->
    min_from key b (y :: t)
    = if fl_ltb (key (min_from key y t)) (key b)
      then min_from key y t else b.
Proof.
  induction t as [| z t IH]; intros b y Hn.
  - simpl. destruct (fl_ltb (key y) (key b)); reflexivity.
  - inversion Hn as [| ? ? Hb Hn1]; subst.
    inversion Hn1 as [| ? ? Hy Hn2]; subst.
    inversion Hn2 as [| ? ? Hz Hn3]; subst.
    assert (Nbz : no_nan key (b :: z :: t))
      by (constructor; [| constructor]; assumption).
    assert (Nyz : no_nan key (y :: z :: t))
      by (constructor; [| constructor]; assumption).
    change (min_from key b (y :: z :: t))
      with (if fl_ltb (key y) (key b) then min_from key y (z :: t)
            else min_from key b (z :: t)).
    destruct (fl_ltb (key y) (key b)) eqn:E.
    + destruct (min_from_cases key (z :: t) y) as [-> | H].
      * rewrite E. reflexivity.
      * assert (G : fl_lt (key (min_from key y (z :: t))) (key b))
          by (eapply fl_lt_trans; eauto).
        unfold fl_lt in G. rewrite G. reflexivity.
    + rewrite (IH b z Nbz), (IH y z Nyz).
      destruct (fl_ltb (key (min_from key z t)) (key y)) eqn:E1.
      * reflexivity.
      * rewrite E.
        destruct (fl_ltb (key (min_from key z t)) (key b)) eqn:E3;
          [| reflexivity].
        exfalso. apply (fl_lt_not_le _ _ E3).
        assert (Nm : is_nan (key (min_from key z t)) = false).
        { apply (fl_lt_not_nan _ _ E3). }
        eapply fl_le_trans.
        -- apply fl_nlt_le; [exact Hy | exact Hb | exact E].
        -- apply fl_nlt_le; [exact Nm | exact Hy | exact E1].
Qed.

(** Where no key is NaN, the sort puts the first least element in
    front. *)
Lemma sort_by_head {A} (key : A -> pyfloat) (x : A) (t : list A) :
  no_nan key (x :: t) ->
  nth_error (MBO.sort_by key (x :: t)) 0 = Some (min_from key x t).
Proof.
  revert x. induction t as [| y t IH]; intros x Hn; [reflexivity |].
  change (MBO.sort_by key (x :: y :: t))
    with (MBO.insert_by key x (MBO.sort_by key (y :: t))).
  assert (Hn' : no_nan key (y :: t)) by (inversion Hn; assumption).
  specialize (IH y Hn').
  destruct (MBO.sort_by key (y :: t)) as [| h s] eqn:Es;
    [discriminate IH |].
  simpl in IH. injection IH as Eh. rewrite (min_from_cons key t x y Hn).
  rewrite <- Eh. simpl.
  destruct (fl_ltb (key h) (key x)); reflexivity.
Qed.

Section MBO_best.
Variable rng : nat -> Z.
Variable http : nat -> MBO.query -> MBO.response.
Variable cluster : nat -> bool.
Variables incluster kubeconfig : bool.
Variables ALPHA BETA : Q.
Variable disorder : list pyfloat -> list nat.
Variable pop_size : nat.

Hypothesis samples_are_finite : finite_samples http.

Lemma evaluate_finite ind w e w' :
  MBO.evaluate http cluster ALPHA BETA ind w = (inr e, w') ->
  is_nan (MBO.score e) = false.
Proof.
  unfold MBO.evaluate. intros H.
  apply bind_inr in H. destruct H as (u & w1 & Hp & H).
  apply bind_inr in H. destruct H as (m & w2 & Hf & H).
  apply bind_inr in H. destruct H as (u' & w3 & Hr & H).
  apply ret_inr in H. destruct H as [<- _].
  destruct (fetch_outcome http w1) as (r & w2' & k & Ef & _ & _ & R).
  rewrite Ef in Hf. inversion Hf; subst. clear Hf.
  destruct R as (_ & _ & _ & R). specialize (R samples_are_finite).
  destruct R as (Rb & Rc & _). destruct m as [b c mm]. simpl in Rb, Rc.
  destruct b; try discriminate Rb. destruct c; try discriminate Rc.
  reflexivity.
Qed.

Lemma evaluate_all_finite pop :
  forall w evs w',
    mapM (MBO.evaluate http cluster ALPHA BETA) pop w = (inr evs, w') ->
    no_nan MBO.score evs.
Proof.
  induction pop as [| ind t IH]; intros w evs w' H; simpl in H.
  - apply ret_inr in H. destruct H as [<- _]. constructor.
  - apply bind_inr in H. destruct H as (e & w1 & H1 & H).
    apply bind_inr in H. destruct H as (es & w2 & H2 & H).
    apply ret_inr in H. destruct H as [<- _].
    constructor; [eapply evaluate_finite; eauto | eapply IH; eauto].
Qed.

(** No member is scored NaN, and [best] is the first least-scoring
    member. *)
Definition best_is_first_least (st : list MBO.scored * MBO.scored) : Prop :=
  no_nan MBO.score (fst st) /\
  exists x t, fst st = x :: t /\ snd st = min_from MBO.score x t.

Lemma initialise_best w st w' :
  MBO.initialise rng http cluster ALPHA BETA pop_size w = (inr st, w') ->
  best_is_first_least st.
Proof.
  unfold MBO.initialise. intros H.
  apply bind_inr in H. destruct H as (pop & w1 & _ & H).
  apply bind_inr in H. destruct H as (evs & w2 & He & H).
  apply bind_inr in H. destruct H as (best & w3 & Hb & H).
  apply ret_inr in H. destruct H as [<- _].
  apply evaluate_all_finite in He. split; [exact He |].
  unfold py_min_key in Hb.
  destruct evs as [| x t]; [discriminate Hb |].
  apply ret_inr in Hb. destruct Hb as [<- _].
  exists x, t. split; reflexivity.
Qed.

Lemma generation_best st it w st' w' :
  best_is_first_least st ->
  MBO.generation rng http cluster ALPHA BETA disorder pop_size st it w
    = (inr st', w') ->
  nth_error (fst st') 0 = Some (snd st') /\ best_is_first_least st'.
Proof.
  destruct st as [evaluated best].
  intros (Hnn & x & t & Ex & Eb) H. simpl in Hnn, Ex, Eb. subst evaluated.
  unfold MBO.generation in H.
  apply bind_inr in H. destruct H as (new_pop & w1 & Hp & H).
  apply bind_inr in H. destruct H as (offspring & w2 & He & H).
  apply bind_inr in H. destruct H as (top & w3 & Htop & H).
  apply index_inr in Htop. destruct Htop as [Htop ->].
  apply evaluate_all_finite in He.
  assert (Hnm : no_nan MBO.score ((x :: t) ++ offspring))
    by (apply Forall_app; split; assumption).
  rewrite (list_sort_ordered disorder MBO.score _ Hnm) in Htop, H.
  set (sorted := MBO.sort_by MBO.score ((x :: t) ++ offspring)) in *.
  assert (Hss : StronglySorted (by_key MBO.score) sorted)
    by (apply sort_by_sorted; exact Hnm).
  assert (Hns : no_nan MBO.score sorted).
  { eapply Permutation_Forall;
      [apply Permutation_sym, sort_by_perm | exact Hnm]. }
  assert (Hhead : nth_error sorted 0 = Some top).
  { destruct pop_size, sorted; simpl in *; try discriminate; exact Htop. }
  assert (Et : top = min_from MBO.score best offspring).
  { unfold sorted in Hhead. simpl app in Hhead.
    rewrite sort_by_head in Hhead by exact Hnm.
    rewrite min_from_app, <- Eb in Hhead.
    inversion Hhead. reflexivity. }
  assert (Est : st' = (firstn pop_size sorted, top)).
  { destruct (fl_ltb (MBO.score top) (MBO.score best)) eqn:E;
      apply ret_inr in H; destruct H as [<- _]; [reflexivity |].
    destruct (min_from_cases MBO.score offspring best) as [G | G].
    - rewrite <- Et in G. rewrite G. reflexivity.
    - rewrite <- Et in G. unfold fl_lt in G. congruence. }
  subst st'. simpl. split; [exact Htop |].
  split.
  { apply Forall_forall. intros e He'. unfold no_nan in Hns.
    rewrite Forall_forall in Hns. apply Hns. eapply firstn_In; eauto. }
  destruct (firstn pop_size sorted) as [| h rest] eqn:Ef;
    [discriminate Htop |].
  simpl in Htop. inversion Htop; subst h.
  exists top, rest. split; [reflexivity |].
  symmetry. apply min_from_fixed. intros y Hy.
  apply (sorted_prefix_le_suffix MBO.score sorted 1 top y Hss).
  - destruct sorted as [| s0 ss]; [discriminate Hhead |].
    simpl in Hhead. inversion Hhead. left; reflexivity.
  - destruct pop_size as [| p]; [discriminate Ef |].
    destruct sorted as [| s0 ss]; [discriminate Ef |].
    simpl in Ef. inversion Ef; subst. simpl.
    eapply firstn_In. exact Hy.
Qed.

Lemma generations_best k :
  forall w st w',
    MBO.generations rng http cluster incluster kubeconfig ALPHA BETA
                    disorder pop_size k w = (inr st, w') ->
    best_is_first_least st /\
    ((1 <= k)%nat -> nth_error (fst st) 0 = Some (snd st)).
Proof.
  induction k as [| k IH]; intros w st w' H.
  - unfold MBO.generations in H.
    apply bind_inr in H. destruct H as (u & w0 & _ & H).
    apply bind_inr in H. destruct H as (st0 & w1 & Hi & H).
    simpl in H. apply ret_inr in H. destruct H as [<- _].
    split; [eapply initialise_best; eauto | lia].
  - apply mbo_generations_step in H. destruct H as (st0 & w1 & H0 & H1).
    apply IH in H0. destruct H0 as [H0 _].
    destruct (generation_best _ _ _ _ _ H0 H1) as [Hh Hb].
    split; [exact Hb | intros _; exact Hh].
Qed.
End MBO_best.

Lemma http_counter_finite : finite_samples http_counter.
Proof.
  intros n q entries x H Hin. unfold http_counter in H.
  inversion H; subst. destruct Hin as [Hin | []].
  inversion Hin. reflexivity.
Qed.

(** X17.  Against a backend whose samples are all finite, the population
    never loses the tracked best: after initialisation [best] is a member
    of [evaluated], after every generation it is its first element, and
    what [mbo_optimize] returns is the head of the final population. *)
Theorem mbo_population_keeps_best
    rng http cluster incluster kubeconfig ALPHA BETA disorder pop_size w :
  finite_samples http ->
  (forall k st w',
      MBO.generations rng http cluster incluster kubeconfig ALPHA BETA
                      disorder pop_size k w = (inr st, w') ->
      In (snd st) (fst st) /\
      ((1 <= k)%nat -> nth_error (fst st) 0 = Some (snd st))) /\
  (forall best w',
      MBO.mbo_optimize rng http cluster incluster kubeconfig ALPHA BETA
                       disorder w
        = (inr best, w') ->
      exists st,
        MBO.generations rng http cluster incluster kubeconfig ALPHA BETA
                        disorder MBO.POP_SIZE MBO.MAX_ITERS w
          = (inr st, w') /\
        nth_error (fst st) 0 = Some best).
Proof.
  intros Hfin. split.
  - intros k st w' H.
    apply (generations_best _ _ _ _ _ _ _ _ _ Hfin) in H.
    destruct H as [(_ & x & t & Ex & Eb) Hh]. split; [| exact Hh].
    rewrite Ex, Eb. apply min_from_In.
  - intros best w' H. unfold MBO.mbo_optimize, MBO.optimize in H.
    apply bind_inr in H. destruct H as (st & w1 & Hg & Hr).
    apply ret_inr in Hr. destruct Hr as [<- <-].
    exists st. split; [exact Hg |].
    apply (generations_best _ _ _ _ _ _ _ _ _ Hfin) in Hg.
    destruct Hg as [_ Hh].
    apply Hh. unfold MBO.MAX_ITERS. lia.
Qed.

Lemma mbo_population_keeps_best_witness :
  exists st w',
    MBO.generations rng_mix http_counter cluster_ok true true
                    (7 # 10) (3 # 10) no_disorder 3 2 world0
      = (inr st, w') /\
    In (snd st) (fst st) /\ nth_error (fst st) 0 = Some (snd st).
Proof.
  destruct (MBO.generations rng_mix http_counter cluster_ok true true
              (7 # 10) (3 # 10) no_disorder 3 2 world0)
    as [[e | st] w'] eqn:E.
  - vm_compute in E. discriminate E.
  - exists st, w'. split; [reflexivity |].
    destruct (proj1 (mbo_population_keeps_best rng_mix http_counter
                       cluster_ok true true (7 # 10) (3 # 10) no_disorder
                       3 world0 http_counter_finite)
                    2%nat st w' E) as [Hin Hh].
    split; [exact Hin | apply Hh; lia].
Defined.

(** ** Perturbation and the unused dimension *)

Lemma choice_inr {A} rng (l : list A) w x w' :
  choice rng l w = (inr x, w') -> In x l.
Proof.
  unfold choice. destruct l as [| a t]; [discriminate |]. intros H.
  apply bind_inr in H. destruct H as (k & w1 & _ & H).
  apply index_inr in H. destruct H as [H _].
  eapply nth_error_In; eauto.
Qed.

Lemma uniform_inr rng a b w x w' :
  uniform rng a b w = (inr x, w') ->
  exists u, 0 <= u /\ u < 1 /\ x = a + (b - a) * u.
Proof.
  intros H. destruct (succeeds_uniform rng a b w) as (x' & w1 & E & Hu).
  rewrite E in H. inversion H; subst. exact Hu.
Qed.

(** X18.  A perturbed candidate stays close to its parent: for a parent
    within [SPACE], the replica and concurrency counts move by at most one
    and the CPU request by at most a fifth of the parent's. *)
Theorem perturb_stays_close rng ind w cand w' :
  in_space ind ->
  MBO.perturb rng ind w = (inr cand, w') ->
  (MBO.replicas ind - 1 <= MBO.replicas cand <= MBO.replicas ind + 1)%Z /\
  (MBO.concurrency ind - 1 <= MBO.concurrency cand
   <= MBO.concurrency ind + 1)%Z /\
  (4 # 5) * MBO.cpu ind <= MBO.cpu cand <= (6 # 5) * MBO.cpu ind.
Proof.
  intros (Hr & Hc & Hk) H. unfold MBO.perturb in H.
  apply bind_inr in H. destruct H as (d & w1 & Hd & H).
  apply bind_inr in H. destruct H as (u & w2 & Hu & H).
  apply bind_inr in H. destruct H as (d' & w3 & Hd' & H).
  apply ret_inr in H. destruct H as [<- _]. simpl.
  apply choice_inr in Hd. apply choice_inr in Hd'.
  apply uniform_inr in Hu. destruct Hu as (r & R0 & R1 & ->).
  simpl in Hr, Hc, Hk.
  assert (D : (-1 <= d <= 1)%Z).
  { simpl in Hd. destruct Hd as [<- | [<- | [<- | []]]]; lia. }
  assert (D' : (-1 <= d' <= 1)%Z).
  { simpl in Hd'. destruct Hd' as [<- | [<- | [<- | []]]]; lia. }
  split; [unfold MBO.clampZ; simpl; lia |].
  split; [unfold MBO.clampZ; simpl; lia |].
  unfold MBO.clampQ. simpl.
  set (x := MBO.cpu ind * (1 + (- (1 # 5) + ((1 # 5) - - (1 # 5)) * r))).
  assert (X : (4 # 5) * MBO.cpu ind <= x <= (6 # 5) * MBO.cpu ind).
  { unfold x. split; nra. }
  clearbody x.
  unfold Qmin, Qmax, GenericMinMax.gmin, GenericMinMax.gmax.
  destruct (Qcompare_spec (1 # 2) x); cbn iota.
  - destruct (Qcompare_spec (1 # 10) (1 # 2)); lra.
  - destruct (Qcompare_spec (1 # 10) (1 # 2)); lra.
  - destruct (Qcompare_spec (1 # 10) x); lra.
Qed.

Lemma perturb_stays_close_witness :
  exists cand w',
    MBO.perturb rng_mix (MBO.mkInd 2 (3 # 10) 4) world0 = (inr cand, w') /\
    (1 <= MBO.replicas cand <= 3)%Z /\
    (4 # 5) * (3 # 10) <= MBO.cpu cand <= (6 # 5) * (3 # 10).
Proof.
  destruct (MBO.perturb rng_mix (MBO.mkInd 2 (3 # 10) 4) world0)
    as [[e | cand] w'] eqn:E.
  - vm_compute in E. discriminate E.
  - exists cand, w'. split; [reflexivity |].
    assert (S : in_space (MBO.mkInd 2 (3 # 10) 4)).
    { unfold in_space. simpl. repeat split; try lia;
        intros C; discriminate C. }
    destruct (perturb_stays_close rng_mix _ world0 cand w' S E)
      as (Hr & _ & Hc).
    split; [exact Hr | exact Hc].
Defined.

(** X19.  The concurrency value of a candidate has no effect on its
    evaluation: the same patch is sent, the same requests are issued and the
    same score and metrics (or the same exception) come back. *)
Theorem evaluate_ignores_concurrency
    http cluster ALPHA BETA r c k k' w :
  let run := MBO.evaluate http cluster ALPHA BETA in
  patches (snd (run (MBO.mkInd r c k) w))
  = patches (snd (run (MBO.mkInd r c k') w)) /\
  http_calls (snd (run (MBO.mkInd r c k) w))
  = http_calls (snd (run (MBO.mkInd r c k') w)) /\
  match fst (run (MBO.mkInd r c k) w), fst (run (MBO.mkInd r c k') w) with
  | inr e, inr e' => MBO.score e = MBO.score e' /\ snd e = snd e'
  | inl x, inl x' => x = x'
  | _, _ => False
  end.
Proof.
  intros run. unfold run, MBO.evaluate, bind, MBO.patch_deployment_params.
  simpl.
  destruct (cluster (length (patches w))); [| simpl; auto].
  destruct (MBO.fetch_current_metrics http _) as [[e | m] w1]; simpl; auto.
Qed.
